(** * dariah_topics.preprocessing: a shallow embedding

    The development follows [src/dariah_topics/preprocessing.py]: the
    tokenizer, the fuzzy segmenter, the dictionary builder, the sparse
    bag-of-words counter, the frequency filters and the MatrixMarket
    exporter.  Python lists are Rocq lists, Python [dict]s given by the
    caller are [gmap]s, ordered intermediate dictionaries are association
    lists, integers are [Z], the generator of [segment_fuzzy] is a step
    function on an explicit state.  A pandas data frame with the index
    levels [doc_id], [token_id] and the single column [0] is the list of
    its rows; the pandas operations are those of the releases 0.20 to
    0.25, which still have [DataFrame.set_value]. *)

From Stdlib Require Import ZArith QArith Qround.
From stdpp Require Import base option list sorting gmap strings pretty.

Local Open Scope Z_scope.

#[local] Set Warnings "-clear-no-such-hyp".

(** ** Python helpers shared by the modules *)

Module Py.

(** [len(l)] as a Python integer. *)
Definition len {A} (l : list A) : Z := Z.of_nat (length l).

(** Where a slice bound [i] lands in a sequence of length [n]: negative
    bounds count from the end, everything is clamped to [0..n]. *)
Definition bound (n i : Z) : nat :=
  Z.to_nat (if i <? 0 then Z.max 0 (n + i) else Z.min n i).

(** [l[:i]] *)
Definition slice_to {A} (l : list A) (i : Z) : list A :=
  take (bound (len l) i) l.

(** [l[i:]] *)
Definition slice_from {A} (l : list A) (i : Z) : list A :=
  drop (bound (len l) i) l.

(** Truthiness of a list. *)
Definition truthy {A} (l : list A) : bool :=
  match l with [] => false | _ => true end.

(** [round(q)] for a real [q]: to the nearest integer, ties to even. *)
Definition round (q : Q) : Z :=
  let f := Qfloor q in
  match Qcompare (q - inject_Z f) (1 # 2) with
  | Lt => f
  | Gt => f + 1
  | Eq => if Z.even f then f else f + 1
  end.

Definition Qlt_bool (x y : Q) : bool := negb (Qle_bool y x).

(** [range(start, start + n)] *)
Definition range (start : Z) (n : nat) : list Z := seqZ start (Z.of_nat n).

(** The exceptions the modelled code can raise, and results that are a
    value or an exception. *)
Inductive exn := KeyError | TypeError.

Inductive result (A : Type) :=
  | Ok (a : A)
  | Raise (e : exn).
Arguments Ok {A} a.
Arguments Raise {A} e.

#[export] Instance result_ret : MRet result := fun A a => Ok a.
#[export] Instance result_bind : MBind result := fun A B f m =>
  match m with Ok a => f a | Raise e => Raise e end.

(** [d[k]] on a dictionary given as a [gmap]. *)
Definition getitem `{Countable K} {V} (d : gmap K V) (k : K) : result V :=
  match d !! k with Some v => Ok v | None => Raise KeyError end.

(** Dictionaries that the code builds and then iterates over are kept
    as association lists in insertion order, one pair per key. *)
Section OrderedDict.
Context {K V : Type} `{EqDecision K}.

Fixpoint dict_get (k : K) (d : list (K * V)) : option V :=
  match d with
  | [] => None
  | (k', v) :: d' => if decide (k = k') then Some v else dict_get k d'
  end.

(** [d[k] = v] *)
Fixpoint dict_set (k : K) (v : V) (d : list (K * V)) : list (K * V) :=
  match d with
  | [] => [(k, v)]
  | (k', v') :: d' =>
      if decide (k = k') then (k, v) :: d' else (k', v') :: dict_set k v d'
  end.

(** [d[k]] *)
Definition dict_getitem (k : K) (d : list (K * V)) : result V :=
  match dict_get k d with Some v => Ok v | None => Raise KeyError end.
End OrderedDict.

(** [collections.Counter(l)]: keys in order of first occurrence; a
    missing key reads as 0. *)
Definition counter := list (Z * Z).

Definition Counter (l : list Z) : counter :=
  foldl (fun c x => dict_set x (default 0 (dict_get x c) + 1) c) [] l.

Definition counter_getitem (c : counter) (k : Z) : Z :=
  default 0 (dict_get k c).

End Py.

(** ** 4.2 Segmenter: [segment_fuzzy] *)

Module Segmenter.

Section Generator.

Context {token : Type}.

Definition chunk := list token.
Definition segment := list chunk.

(** The local variables of the generator between two iterations of
    its [while True] loop; [doc_iter] is what the iterator has still
    to deliver. *)
Record state := State {
    current_segment : segment;
    current_size : Z;
    carry : option chunk;
    doc_iter : list chunk
  }.

(** What one iteration does: it yields a segment, falls through the
    [if] without yielding, or leaves the loop on [StopIteration],
    after which the leftover segment, when it is not empty, is
    yielded. *)
Inductive step_result :=
  | Yielded (seg : segment) (st : state)
  | Silent (st : state)
  | Exhausted (leftover : option segment).

(** [tolerance = round(segment_size * tolerance)] when
    [0 < tolerance < 1].  The tolerance is a rational number here, and
    the product is exact, where Python has a float. *)
Definition effective_tolerance (segment_size : Z) (tolerance : Q) : Q :=
  if Py.Qlt_bool 0 tolerance && Py.Qlt_bool tolerance 1
  then inject_Z (Py.round (inject_Z segment_size * tolerance))
  else tolerance.

(** [carry if carry else next(doc_iter)]: [None] is [StopIteration]. *)
Definition next_chunk (st : state) : option (chunk * list chunk) :=
  match carry st with
  | Some (t :: c) => Some (t :: c, doc_iter st)
  | _ =>
      match doc_iter st with
      | [] => None
      | c :: rest => Some (c, rest)
      end
  end.

(** [current_segment.pop()] after the chunk has been appended. *)
Definition pop (seg : segment) : segment * chunk :=
  (removelast seg, List.last seg []).

(** [current_segment[-1] = part] *)
Definition set_last (seg : segment) (part : chunk) : segment :=
  removelast seg ++ [part].

(** The body of the [while True] loop once [chunk] has been taken, with
    the tolerance already made absolute; [rest] is what the iterator
    has left. *)
Definition loop_body (segment_size : Z) (tolerance : Q)
    (current_segment : segment) (current_size : Z)
    (rest : list chunk) (chunk : chunk) : step_result :=
  let seg := current_segment ++ [chunk] in
  let size := current_size + Py.len chunk in
  if segment_size <=? size then
    let too_long := size - segment_size in
    let too_short := segment_size - (size - Py.len chunk) in
    if Qle_bool 0 tolerance
       && Py.Qlt_bool tolerance (inject_Z (Z.min too_long too_short))
    then
      let chunk_part0 := Py.slice_to chunk (- too_long) in
      let carry' := Py.slice_from chunk (- too_long) in
      Yielded (set_last seg chunk_part0) (State [] 0 (Some carry') rest)
    else if too_short <=? too_long then
      let '(seg', c) := pop seg in
      Yielded seg' (State [] 0 (Some c) rest)
    else
      Yielded seg (State [] 0 None rest)
  else
    Silent (State seg size None rest).

(** One pass through the loop: take the next chunk, or leave on
    [StopIteration]. *)
Definition step (segment_size : Z) (tolerance : Q) (st : state)
    : step_result :=
  match next_chunk st with
  | None =>
      Exhausted (if Py.truthy (current_segment st)
                 then Some (current_segment st) else None)
  | Some (chunk, rest) =>
      loop_body segment_size tolerance
        (current_segment st) (current_size st) rest chunk
  end.

(** The segments yielded during the first [fuel] iterations, and
    whether the generator has finished by then. *)
Fixpoint run (fuel : nat) (segment_size : Z) (tolerance : Q) (st : state)
  : list segment * bool :=
  match fuel with
  | O => ([], false)
  | S fuel' =>
      match step segment_size tolerance st with
      | Yielded seg st' =>
          let '(segs, fin) := run fuel' segment_size tolerance st' in
          (seg :: segs, fin)
      | Silent st' => run fuel' segment_size tolerance st'
      | Exhausted (Some seg) => ([seg], true)
      | Exhausted None => ([], true)
      end
  end.

Definition initial (document : list chunk) : state :=
  State [] 0 None document.

(** The prefix of the generator's output seen within [fuel]
    iterations. *)
Definition segment_fuzzy_prefix (fuel : nat) (document : list chunk)
    (segment_size : Z) (tolerance : Q) : list segment * bool :=
  run fuel segment_size (effective_tolerance segment_size tolerance)
      (initial document).

(** [list(segment_fuzzy(document, segment_size, tolerance))]: [None]
    when the generator is still running after [fuel] iterations. *)
Definition segment_fuzzy (fuel : nat) (document : list chunk)
    (segment_size : Z) (tolerance : Q) : option (list segment) :=
  let '(segs, fin) :=
    segment_fuzzy_prefix fuel document segment_size tolerance in
  if fin then Some segs else None.

(** All tokens of a list of segments, in order. *)
Definition tokens_of (segs : list segment) : list token :=
  concat (concat segs).

End Generator.

Arguments chunk : clear implicits.
Arguments segment : clear implicits.
Arguments state : clear implicits.

(** The default arguments of [segment_fuzzy]. *)
Definition default_segment_size : Z := 5000.
Definition default_tolerance : Q := 5 # 100.

End Segmenter.

(** ** 4.3 Dictionary Builder: [create_dictionary] *)

Module Dictionary.
Import Py.

(** An element of the argument of [create_dictionary]: a token, or a
    list of tokens when the collection is nested. *)
Inductive element :=
  | Tok (t : string)
  | Lst (l : list string).

Definition is_list (e : element) : bool :=
  match e with Lst _ => true | Tok _ => false end.

(** [{token for element in tokens for token in element}], for elements
    that are all lists. *)
Definition union_of (tokens : list element) : gset string :=
  ⋃ (map (fun e => match e with
                   | Lst l => list_to_set l
                   | Tok _ => ∅
                   end) tokens).

(** [set(tokens)]: a list is not hashable, so one list among the
    elements is a [TypeError]. *)
Fixpoint set_of (tokens : list element) : result (gset string) :=
  match tokens with
  | [] => Ok ∅
  | Tok t :: rest => X ← set_of rest; Ok ({[ t ]} ∪ X)
  | Lst _ :: _ => Raise TypeError
  end.

(** [enumerate(l, start)] *)
Fixpoint enumerate {A} (l : list A) (start : Z) : list (Z * A) :=
  match l with
  | [] => []
  | x :: l' => (start, x) :: enumerate l' (start + 1)
  end.

(** [{token: id_ for id_, token in pairs}]: a later pair overwrites an
    earlier one with the same token. *)
Definition dict_of (pairs : list (Z * string)) : gmap string Z :=
  foldl (fun d p => <[p.2 := p.1]> d) ∅ pairs.

Section SetOrder.

(** The order in which Python iterates over a set is not specified;
    [set_order] is the order of the run at hand. *)
Variable set_order : gset string -> list string.

Definition create_dictionary (tokens : list element)
  : result (gmap string Z) :=
  X ← (if forallb is_list tokens
       then Ok (union_of tokens)
       else set_of tokens);
  Ok (dict_of (enumerate (set_order X) 1)).

End SetOrder.

(** A flat list of tokens and a list of token lists as arguments. *)
Definition flat (tokens : list string) : list element := map Tok tokens.
Definition nested (tokens : list (list string)) : list element :=
  map Lst tokens.

End Dictionary.

(** ** 4.4 Sparse Counter: [create_sparse_bow] *)

Module Bow.
Import Py.

(** A row of the data frame: the two index levels and column [0]. *)
Record row := Row { doc_id : Z; token_id : Z; count : Z }.

#[export] Instance row_eq_dec : EqDecision row.
Proof. solve_decision. Defined.

(** The data frame, in row order. *)
Abbreviation table := (list row).

(** [[type_dictionary[token] for token in tokens]] *)
Fixpoint token_ids (type_dictionary : gmap string Z) (tokens : list string)
  : result (list Z) :=
  match tokens with
  | [] => Ok []
  | t :: rest =>
      i ← getitem type_dictionary t;
      ids ← token_ids type_dictionary rest;
      Ok (i :: ids)
  end.

(** The loop of [_create_large_counter] over [zip(doc_labels, doc_tokens)],
    started from the dictionary built so far. *)
Fixpoint large_counter_loop (type_dictionary : gmap string Z)
    (pairs : list (string * list string))
    (largecounter : list (string * counter))
  : result (list (string * counter)) :=
  match pairs with
  | [] => Ok largecounter
  | (doc, tokens) :: rest =>
      ids ← token_ids type_dictionary tokens;
      large_counter_loop type_dictionary rest
        (dict_set doc (Counter ids) largecounter)
  end.

Definition _create_large_counter (doc_labels : list string)
    (doc_tokens : list (list string)) (type_dictionary : gmap string Z)
  : result (list (string * counter)) :=
  large_counter_loop type_dictionary (zip doc_labels doc_tokens) [].

(** [{doc_dictionary[key]: value for key, value in temp_counter.items()}] *)
Fixpoint relabel (doc_dictionary : gmap string Z)
    (items : list (string * counter)) (acc : list (Z * counter))
  : result (list (Z * counter)) :=
  match items with
  | [] => Ok acc
  | (key, value) :: rest =>
      d ← getitem doc_dictionary key;
      relabel doc_dictionary rest (dict_set d value acc)
  end.

(** The body of the [for key in range(...)] loop of
    [_create_sparse_index], for the keys [keys]. *)
Fixpoint sparse_index_loop (largecounter : list (Z * counter))
    (keys : list Z) : result (list (Z * Z)) :=
  match keys with
  | [] => Ok []
  | key :: rest =>
      c ← dict_getitem key largecounter;
      tuples ← sparse_index_loop largecounter rest;
      Ok ((if decide (length c = 0%nat) then [(key, 0)] else [])
          ++ map (fun kv => (key, kv.1)) c ++ tuples)
  end.

(** The index is the list of its tuples, in their order;
    [pd.MultiIndex.from_tuples] is given the [names] and so takes an
    empty list as well. *)
Definition _create_sparse_index (largecounter : list (Z * counter))
  : result (list (Z * Z)) :=
  sparse_index_loop largecounter (range 1 (length largecounter)).

(** [sparse_bow.set_value((doc_id, token_id), 0, v)] on a label of the
    index. *)
Definition set_value (tbl : table) (d t v : Z) : table :=
  map (fun r => if decide (doc_id r = d ∧ token_id r = t)
                then Row d t v else r) tbl.

(** [[val[1] for val in index_iterator[doc_id]]] *)
Definition group_token_ids (sparse_index : list (Z * Z)) (d : Z) : list Z :=
  map snd (filter (fun dt => dt.1 = d) sparse_index).

(** [len(sparse_index.levels[0])]: the number of distinct doc ids. *)
Definition num_doc_levels (sparse_index : list (Z * Z)) : nat :=
  length (remove_dups (map fst sparse_index)).

(** The two nested [for] loops that fill the table. *)
Fixpoint fill_loop (largecounter : list (Z * counter))
    (sparse_index : list (Z * Z)) (doc_ids : list Z) (tbl : table)
  : result table :=
  match doc_ids with
  | [] => Ok tbl
  | d :: rest =>
      c ← dict_getitem d largecounter;
      fill_loop largecounter sparse_index rest
        (foldl (fun tbl t => set_value tbl d t (counter_getitem c t))
               tbl (group_token_ids sparse_index d))
  end.

Definition create_sparse_bow (doc_labels : list string)
    (doc_tokens : list (list string))
    (type_dictionary doc_dictionary : gmap string Z) : result table :=
  temp_counter ← _create_large_counter doc_labels doc_tokens type_dictionary;
  largecounter ← relabel doc_dictionary temp_counter [];
  sparse_index ← _create_sparse_index largecounter;
  let sparse_bow_filled := map (fun dt => Row dt.1 dt.2 0) sparse_index in
  fill_loop largecounter sparse_index
    (range 1 (num_doc_levels sparse_index)) sparse_bow_filled.

End Bow.

(** ** 4.5 Frequency Filter: [find_hapax], [remove_features] *)

Module Filter.
Import Py Bow.

(** One more row in [groupby(token_id).sum()]: the groups are kept in
    increasing order of their key. *)
Fixpoint add_sorted (k v : Z) (acc : list (Z * Z)) : list (Z * Z) :=
  match acc with
  | [] => [(k, v)]
  | (k', v') :: acc' =>
      if k <? k' then (k, v) :: acc
      else if k =? k' then (k', v' + v) :: acc'
      else (k', v') :: add_sorted k v acc'
  end.

(** [sparse_bow.groupby(sparse_bow.index.get_level_values('token_id')).sum()] *)
Definition collapse (sparse_bow : table) : list (Z * Z) :=
  foldl (fun acc r => add_sorted (token_id r) (count r) acc) [] sparse_bow.

(** [{value: key for key, value in id_types.items()}] *)
Definition invert (id_types : gmap string Z) : gmap Z string :=
  foldl (fun d kv => <[kv.2 := kv.1]> d) ∅ (map_to_list id_types).

(** [[type2id[key] for key in keys]] *)
Fixpoint lookup_all (type2id : gmap Z string) (keys : list Z)
  : result (list string) :=
  match keys with
  | [] => Ok []
  | k :: rest =>
      w ← getitem type2id k;
      ws ← lookup_all type2id rest;
      Ok (w :: ws)
  end.

Definition find_hapax (sparse_bow : table) (id_types : gmap string Z)
  : result (list string) :=
  let type2id := invert id_types in
  let sparse_bow_collapsed := collapse sparse_bow in
  let sparse_bow_hapax :=
    filter (fun kv => kv.2 = 1) sparse_bow_collapsed in
  lookup_all type2id (map fst sparse_bow_hapax).

(** [sparse_bow.drop(labels, level="token_id")], as pandas implements
    it in the releases that still have [DataFrame.set_value], which
    [create_sparse_bow] calls: the rows whose token id is among the
    labels are left out, and a label that matches no row is ignored. *)
Definition drop_token_ids (sparse_bow : table) (labels : list Z) : table :=
  filter (fun r => token_id r ∉ labels) sparse_bow.

(** [[id_types[word] for word in stoplist_applied]] *)
Fixpoint ids_of (id_types : gmap string Z) (words : list string)
  : result (list Z) :=
  match words with
  | [] => Ok []
  | w :: rest =>
      i ← getitem id_types w;
      ids ← ids_of id_types rest;
      Ok (i :: ids)
  end.

(** [features] is a list or a set; only membership in it is used.  The
    set of keys is walked in the order [elements] gives. *)
Definition remove_features (sparse_bow : table) (id_types : gmap string Z)
    (features : list string) : result table :=
  let features : gset string := list_to_set features in
  let stoplist_applied :=
    filter (fun word => word ∈ features) (elements (dom id_types)) in
  labels ← ids_of id_types stoplist_applied;
  Ok (drop_token_ids sparse_bow labels).

End Filter.

(** ** 4.6 Exporter: [save_sparse_bow] *)

Module Exporter.
Import Py Bow.

Local Open Scope string_scope.

(** [index.max()]: [None] stands for the [nan] of an empty index. *)
Definition index_max (l : list Z) : option Z :=
  match l with
  | [] => None
  | x :: l' => Some (foldl Z.max x l')
  end.

(** [str(m)] of such a maximum. *)
Definition str_max (m : option Z) : string :=
  match m with Some z => pretty z | None => "nan" end.

(** [sparse_bow[0].sum()] *)
Definition sum_counts (sparse_bow : table) : Z :=
  foldl (fun acc r => acc + count r) 0 sparse_bow.

Definition newline : string := String (Ascii.ascii_of_nat 10) "".

Definition banner : string :=
  "%%MatrixMarket matrix coordinate real general".

Definition header_string (sparse_bow : table) : string :=
  str_max (index_max (map doc_id sparse_bow)) +:+ " " +:+
  str_max (index_max (map token_id sparse_bow)) +:+ " " +:+
  pretty (sum_counts sparse_bow) +:+ newline.

(** A line of [to_csv(f, sep=' ', header=None)]. *)
Definition csv_line (r : row) : string :=
  pretty (doc_id r) +:+ " " +:+ pretty (token_id r) +:+ " " +:+
  pretty (count r) +:+ newline.

(** The three writes to the file, in order. *)
Definition writes (sparse_bow : table) : list string :=
  [banner +:+ newline; header_string sparse_bow;
   String.concat "" (map csv_line sparse_bow)].

(** The content of [output + ".mm"] after [save_sparse_bow]. *)
Definition save_sparse_bow (sparse_bow : table) : string :=
  String.concat "" (writes sparse_bow).

End Exporter.

(** ** 4.1 Tokenizer: [tokenize] *)

Module Tokenizer.

(** A Python string is a sequence of Unicode code points. *)
Definition char := N.
Definition text := list char.

Definition codepoints (s : string) : text :=
  map Ascii.N_of_ascii (String.list_ascii_of_string s).

(** What the tokenizer takes from the Unicode character database: the
    general categories [\p{Letter}] and [\p{Punctuation}], the word
    characters of [\w], and the lower-case mapping of [str.lower],
    which may give several code points for one. *)
Class Unicode := {
    is_letter : char -> bool;
    is_punctuation : char -> bool;
    is_word : char -> bool;
    lower_char : char -> list char
  }.

(** The patterns that occur: classes of characters, sequences, [r+]
    and [r?], both greedy. *)
Inductive regex :=
  | Class (p : char -> bool)
  | Seq (r1 r2 : regex)
  | Plus (r : regex)
  | Opt (r : regex).

(** The repetition of [r+]: after a match of [r] that has consumed
    something, try [r] again before settling for what has been matched;
    [m] is the matcher of [r], [n] bounds the number of repetitions by
    the length of the text. *)
Fixpoint plus_loop (m : text -> list text) (n : nat) (s : text) : list text :=
  flat_map (fun s' =>
              match n with
              | S n' =>
                  (if decide (length s' < length s)%nat
                   then plus_loop m n' s' else []) ++ [s']
              | O => [s']
              end) (m s).

(** The backtracking matcher: what can be left of [s] after a match of
    [r] at its start, in the order in which the engine tries the
    alternatives; the first one is the match it reports. *)
Fixpoint match_re (r : regex) (s : text) : list text :=
  match r with
  | Class p =>
      match s with
      | c :: s' => if p c then [s'] else []
      | [] => []
      end
  | Seq r1 r2 => flat_map (match_re r2) (match_re r1 s)
  | Opt r => match_re r s ++ [s]
  | Plus r => plus_loop (match_re r) (length s) s
  end.

(** [pattern.finditer(s)], then [match.group()] of every match: scan
    from the left, take the first match at the earliest position, go
    on behind it.  An empty match is reported and the scan moves on by
    one character. *)
Fixpoint finditer (fuel : nat) (pattern : regex) (s : text) : list text :=
  match fuel with
  | O => []
  | S fuel' =>
      match match_re pattern s with
      | rest :: _ =>
          let group := take (length s - length rest) s in
          match group, s with
          | _ :: _, _ => group :: finditer fuel' pattern rest
          | [], _ :: s' => [] :: finditer fuel' pattern s'
          | [], [] => [[]]
          end
      | [] =>
          match s with
          | _ :: s' => finditer fuel' pattern s'
          | [] => []
          end
      end
  end.

Section Tokenize.

Context `{Unicode}.

(** [regular_expression]: [\p{Letter}+\p{Punctuation}?\p{Letter}+] *)
Definition regular_expression : regex :=
  Seq (Plus (Class is_letter))
      (Seq (Opt (Class is_punctuation)) (Plus (Class is_letter))).

(** [\w+] *)
Definition simple_expression : regex := Plus (Class is_word).

(** [doc_txt.lower()] *)
Definition lower_text (doc_txt : text) : text :=
  flat_map lower_char doc_txt.

Definition full_stop : char := 46%N.
Definition space : char := 32%N.
(** U+2012 figure dash, U+2013 en dash, U+2014 em dash, U+2015
    horizontal bar. *)
Definition dashes : list char := [8210; 8211; 8212; 8213]%N.

(** [regex.sub(c, "", doc_txt)] for a single character [c]. *)
Definition sub_delete (c : char) (doc_txt : text) : text :=
  filter (fun x => x ≠ c) doc_txt.

(** [regex.sub(c, " ", doc_txt)] for a single character [c]. *)
Definition sub_space (c : char) (doc_txt : text) : text :=
  map (fun x => if decide (x = c) then space else x) doc_txt.

Definition tokenize (doc_txt : text) (expression : regex)
    (lower simple : bool) : list text :=
  let doc_txt := if lower then lower_text doc_txt else doc_txt in
  let pattern := if simple then simple_expression else expression in
  let doc_txt := sub_delete full_stop doc_txt in
  let doc_txt := foldl (fun txt dash => sub_space dash txt) doc_txt dashes in
  finditer (S (length doc_txt)) pattern doc_txt.

End Tokenize.

(** The ASCII part of the character database: letters [A-Za-z], the
    ASCII characters of the categories Pc, Pd, Ps, Pe and Po, word
    characters [A-Za-z0-9_]; code points above 127 are in no class
    here and are their own lower case. *)
Definition ascii_upper (c : char) : bool := (65 <=? c)%N && (c <=? 90)%N.
Definition ascii_letter (c : char) : bool :=
  ascii_upper c || ((97 <=? c)%N && (c <=? 122)%N).
Definition ascii_digit (c : char) : bool := (48 <=? c)%N && (c <=? 57)%N.
Definition ascii_punctuation (c : char) : bool :=
  bool_decide (c ∈ [33; 34; 35; 37; 38; 39; 40; 41; 42; 44; 45; 46; 47;
                    58; 59; 63; 64; 91; 92; 93; 95; 123; 125]%N).
Definition ascii_word (c : char) : bool :=
  ascii_letter c || ascii_digit c || bool_decide (c = 95%N).
Definition ascii_lower (c : char) : list char :=
  [if ascii_upper c then (c + 32)%N else c].

Definition ascii_unicode : Unicode := {|
    is_letter := ascii_letter;
    is_punctuation := ascii_punctuation;
    is_word := ascii_word;
    lower_char := ascii_lower
  |}.

End Tokenizer.

(** ** [segment]: the wrapper around [segment_fuzzy] *)

Module Segment.
Import Segmenter.

(** The argument [flatten_chunks]: [False], [True], or a function that
    is applied to every segment. *)
Inductive flatten_chunks (T R : Type) :=
| Unflattened
| Chained
| FlattenedBy (f : segment T -> R).
Arguments Unflattened {T R}.
Arguments Chained {T R}.
Arguments FlattenedBy {T R} f.

(** What [segment] returns: the segments as lists of chunks, as lists of
    tokens, or as whatever the caller's function makes of them. *)
Inductive segments (T R : Type) :=
| Chunked (segs : list (segment T))
| Flattened (segs : list (list T))
| Mapped (segs : list R).
Arguments Chunked {T R} segs.
Arguments Flattened {T R} segs.
Arguments Mapped {T R} segs.

(** [chunker=None] and [tokenizer=None] leave the document as it is:
    they are the identity function here.  [materialize] only decides
    whether the caller gets a list or the lazy sequence, which are the
    same list here; [None] is a generator that has not finished within
    [fuel] iterations. *)
Definition segment {D C T R : Type} (fuel : nat) (document : D)
    (segment_size : Z) (tolerance : Q)
    (chunker : D -> list C) (tokenizer : C -> list T)
    (flatten : flatten_chunks T R) : option (segments T R) :=
  let document := chunker document in
  let document := map tokenizer document in
  segs ← segment_fuzzy fuel document segment_size tolerance;
  Some match flatten with
       | Unflattened => Chunked segs
       | Chained => Flattened (map (@concat T) segs)
       | FlattenedBy f => Mapped (map f segs)
       end.

(** The default arguments of [segment]. *)
Definition default_segment_size : Z := 1000.
Definition default_tolerance : Q := 0.

End Segment.

(** ** [split_paragraphs] *)

Module Paragraphs.
Import Tokenizer.

(** [sep.split(s)]: cut the text at every match of [sep], from the left;
    a match of no character cuts nothing.  [current] is the piece
    collected since the last cut. *)
Fixpoint re_split (fuel : nat) (sep : regex) (s : text) (current : text)
    : list text :=
  match fuel with
  | O => [current ++ s]
  | S fuel' =>
      match s with
      | [] => [current]
      | c :: s' =>
          match match_re sep s with
          | rest :: _ =>
              if decide (length rest < length s)%nat
              then current :: re_split fuel' sep rest []
              else re_split fuel' sep s' (current ++ [c])
          | [] => re_split fuel' sep s' (current ++ [c])
          end
      end
  end.

(** [sep] is a compiled pattern, or a string that is compiled first. *)
Definition split_paragraphs (doc_txt : text) (sep : regex) : list text :=
  re_split (S (length doc_txt)) sep doc_txt [].

(** The default separator, the line feed. *)
Definition line_feed : char := 10%N.
Definition default_sep : regex := Class (fun c => bool_decide (c = line_feed)).

End Paragraphs.

(** ** [find_stopwords] and [make_doc2bow_list] *)

Module Frequent.
Import Py Bow Filter.

Section NLargest.

(** [Series.nlargest(n)]: the [n] groups with the largest sums, largest
    first; pandas does not fix the order among equal sums, so the
    function is the one of the run at hand. *)
Variable nlargest : Z -> list (Z * Z) -> list (Z * Z).

Definition find_stopwords (sparse_bow : table) (id_types : gmap string Z)
    (mfw : Z) : result (list string) :=
  let type2id := invert id_types in
  let sparse_bow_collapsed := collapse sparse_bow in
  let sparse_bow_stopwords := nlargest mfw sparse_bow_collapsed in
  lookup_all type2id (map fst sparse_bow_stopwords).

End NLargest.

(** One way [nlargest] can go: sort by decreasing sum, groups with equal
    sums in their order, and take the first [n]. *)
Fixpoint insert_desc (kv : Z * Z) (l : list (Z * Z)) : list (Z * Z) :=
  match l with
  | [] => [kv]
  | h :: t => if kv.2 <=? h.2 then h :: insert_desc kv t else kv :: l
  end.

Definition sort_desc (l : list (Z * Z)) : list (Z * Z) :=
  foldl (fun acc kv => insert_desc kv acc) [] l.

Definition nlargest_first (n : Z) (l : list (Z * Z)) : list (Z * Z) :=
  take (Z.to_nat n) (sort_desc l).

(** The default of [mfw]. *)
Definition default_mfw : Z := 200.

(** The keys of [index.groupby(doc_id)]: the doc ids of the table, each
    once, in increasing order. *)
Definition doc_groups (sparse_bow : table) : list Z :=
  map fst (foldl (fun acc r => add_sorted (doc_id r) 0 acc) [] sparse_bow).

(** [zip(sparse_bow.loc[doc].index, sparse_bow.loc[doc][0])] *)
Definition doc_bag (sparse_bow : table) (doc : Z) : list (Z * Z) :=
  map (fun r => (token_id r, count r))
      (filter (fun r => doc_id r = doc) sparse_bow).

Definition make_doc2bow_list (sparse_bow : table) : list (list (Z * Z)) :=
  map (doc_bag sparse_bow) (doc_groups sparse_bow).

End Frequent.

(** * Properties *)

(** ** The segmenter *)

Module SegmenterFacts.
Import Segmenter.

Section Generator.

Context {token : Type}.
Implicit Types (st : state token) (c : chunk token) (seg : segment token).

(** The tokens a state still has to deliver. *)
Definition pending st : list token :=
  concat (current_segment st) ++ default [] (carry st)
    ++ concat (doc_iter st).

Lemma pop_snoc seg c : pop (seg ++ [c]) = (seg, c).
Proof. unfold pop. by rewrite removelast_last, last_last. Qed.

Lemma set_last_snoc seg c c' : set_last (seg ++ [c]) c' = seg ++ [c'].
Proof. unfold set_last. by rewrite removelast_last. Qed.

Lemma next_chunk_Some st c rest :
  next_chunk st = Some (c, rest) ->
  default [] (carry st) ++ concat (doc_iter st) = c ++ concat rest.
Proof.
  unfold next_chunk. destruct st as [cs sz [[|t c0]|] [|d it]]; simpl;
    intros; simplify_eq; done.
Qed.

Lemma next_chunk_None st :
  next_chunk st = None ->
  default [] (carry st) = [] ∧ doc_iter st = [].
Proof.
  unfold next_chunk. destruct st as [cs sz [[|t c0]|] [|d it]]; simpl;
    intros; simplify_eq; done.
Qed.

(** A yielding iteration hands out a prefix of the pending tokens. *)
Lemma step_yielded ss tol st seg st' :
  step ss tol st = Yielded seg st' ->
  pending st = concat seg ++ pending st'.
Proof.
  unfold step, loop_body, pending. destruct (next_chunk st) as [[c rest]|] eqn:Hn;
    [| done].
  apply next_chunk_Some in Hn. rewrite Hn. clear Hn.
  repeat case_match; intros; simplify_eq; simpl.
  - rewrite set_last_snoc, !concat_app. simpl.
    rewrite app_nil_r, <- !(assoc_L (++)). f_equal.
    rewrite (assoc_L (++)). f_equal. symmetry. apply take_drop.
  - rewrite pop_snoc in *. simplify_eq. done.
  - rewrite concat_app. simpl. by rewrite app_nil_r, <- !(assoc_L (++)).
Qed.

Lemma step_silent ss tol st st' :
  step ss tol st = Silent st' -> pending st = pending st'.
Proof.
  unfold step, loop_body, pending. destruct (next_chunk st) as [[c rest]|] eqn:Hn;
    [| done].
  apply next_chunk_Some in Hn. rewrite Hn. clear Hn.
  repeat case_match; intros; simplify_eq; simpl.
  rewrite concat_app. simpl. by rewrite app_nil_r, <- !(assoc_L (++)).
Qed.

Lemma step_exhausted ss tol st leftover :
  step ss tol st = Exhausted leftover ->
  pending st = concat (default [] leftover).
Proof.
  unfold step, loop_body, pending. destruct (next_chunk st) as [[c rest]|] eqn:Hn.
  { repeat case_match; done. }
  apply next_chunk_None in Hn as [-> ->]. intros. simplify_eq.
  destruct (current_segment st); simpl; by rewrite ?app_nil_r.
Qed.

(** Whenever the generator finishes, the segments it has yielded hold
    the pending tokens, each once and in order. *)
Lemma run_lossless fuel ss tol st segs :
  run fuel ss tol st = (segs, true) -> tokens_of segs = pending st.
Proof.
  revert st segs. induction fuel as [|fuel IH]; intros st segs; [done |].
  simpl. destruct (step ss tol st) as [seg st'|st'|[seg|]] eqn:Hs.
  - destruct (run fuel ss tol st') as [segs' fin] eqn:Hr.
    intros. simplify_eq. apply IH in Hr. unfold tokens_of in *. simpl.
    rewrite concat_app, Hr. symmetry. by eapply step_yielded.
  - intros Hr. apply IH in Hr. rewrite Hr. symmetry. by eapply step_silent.
  - intros. simplify_eq. apply step_exhausted in Hs. rewrite Hs.
    unfold tokens_of. simpl. by rewrite !app_nil_r.
  - intros. simplify_eq. apply step_exhausted in Hs. by rewrite Hs.
Qed.

(** [segment_fuzzy] loses, repeats and reorders no token whenever it
    comes to an end. *)
Lemma segment_fuzzy_lossless fuel (document : list (chunk token))
    ss tol segs :
  segment_fuzzy fuel document ss tol = Some segs ->
  tokens_of segs = concat document.
Proof.
  unfold segment_fuzzy, segment_fuzzy_prefix.
  destruct (run _ _ _ _) as [segs' [|]] eqn:Hr; [| done].
  intros. simplify_eq. apply run_lossless in Hr. rewrite Hr.
  unfold pending. simpl. done.
Qed.

(** A chunk of at least twice the segment size that is not split is
    evicted from a segment it is alone in: an empty segment is
    yielded and the chunk is carried over. *)
Lemma step_evict_alone ss tol st t c rest :
  current_segment st = [] -> current_size st = 0 ->
  next_chunk st = Some (t :: c, rest) ->
  2 * ss <= Py.len (t :: c) ->
  (Qle_bool 0 tol
   && Py.Qlt_bool tol
        (inject_Z (Z.min (Py.len (t :: c) - ss) ss)) = false) ->
  step ss tol st = Yielded [] (State [] 0 (Some (t :: c)) rest).
Proof.
  intros Hseg Hsize Hnext Hlen Htol. unfold step, loop_body.
  rewrite Hnext, Hseg, Hsize. cbv zeta. rewrite Z.add_0_l.
  assert (0 < Py.len (t :: c)) by (unfold Py.len; simpl; lia).
  rewrite (proj2 (Z.leb_le ss _)) by lia.
  replace (ss - (Py.len (t :: c) - Py.len (t :: c))) with ss by lia.
  rewrite Htol. rewrite (proj2 (Z.leb_le ss _)) by lia.
  by rewrite pop_snoc.
Qed.

(** The carried chunk is then evicted again and again: the state does
    not change any more. *)
Lemma run_stuck fuel ss tol t c rest :
  2 * ss <= Py.len (t :: c) ->
  (Qle_bool 0 tol
   && Py.Qlt_bool tol
        (inject_Z (Z.min (Py.len (t :: c) - ss) ss)) = false) ->
  run fuel ss tol (State [] 0 (Some (t :: c)) rest)
  = (replicate fuel [], false).
Proof.
  intros Hlen Htol. induction fuel as [|fuel IH]; [done |].
  simpl. rewrite (step_evict_alone _ _ _ t c rest) by done.
  by rewrite IH.
Qed.

(** So a document that starts with such a chunk is never segmented:
    the generator yields empty segments for ever. *)
Lemma run_oversized_first fuel ss tol t c rest :
  2 * ss <= Py.len (t :: c) ->
  (Qle_bool 0 tol
   && Py.Qlt_bool tol
        (inject_Z (Z.min (Py.len (t :: c) - ss) ss)) = false) ->
  run fuel ss tol (initial ((t :: c) :: rest)) = (replicate fuel [], false).
Proof.
  intros Hlen Htol. destruct fuel as [|fuel]; [done |].
  simpl. rewrite (step_evict_alone _ _ _ t c rest) by done.
  by rewrite run_stuck.
Qed.

End Generator.

(** *** Termination when the tolerance is below the segment size *)

Section Termination.

Context {token : Type}.
Variables (ss : Z) (tol : Q).
Hypothesis ss_pos : 1 ≤ ss.
Hypothesis tol_nonneg : Qle_bool 0 tol = true.
Hypothesis tol_small : Py.Qlt_bool tol (inject_Z ss) = true.

(** What is left to do: the carried tokens, and the chunks of the
    iterator with their tokens. *)
Definition weight (st : state token) : nat :=
  length (default [] (carry st))
  + sum_list (map (λ c, S (length c)) (doc_iter st)).

(** A chunk is only ever carried into an empty segment. *)
Definition fresh (st : state token) : Prop :=
  ∀ t c, carry st = Some (t :: c) →
         current_segment st = [] ∧ current_size st = 0.

Lemma split_positive m : Py.Qlt_bool tol (inject_Z m) = true → 0 < m.
Proof.
  unfold Py.Qlt_bool. intros Hlt%negb_true_iff.
  apply Qle_bool_iff in tol_nonneg.
  assert (tol < inject_Z m)%Q as Hm.
  { apply Qnot_le_lt. intros Hle%Qle_bool_iff. congruence. }
  pose proof (Qle_lt_trans _ _ _ tol_nonneg Hm) as H0.
  change 0%Q with (inject_Z 0) in H0. by rewrite <- Zlt_Qlt in H0.
Qed.

Lemma length_slice_from (c : chunk token) i :
  (length (Py.slice_from c i) ≤ length c)%nat.
Proof. unfold Py.slice_from. rewrite length_drop. lia. Qed.

Lemma length_slice_from_end (c : chunk token) k :
  0 < k → k < Py.len c →
  (length (Py.slice_from c (- k)) < length c)%nat.
Proof.
  intros Hk Hlen. unfold Py.slice_from, Py.bound, Py.len in *.
  rewrite length_drop.
  rewrite (proj2 (Z.ltb_lt (- k) 0)) by lia. lia.
Qed.

(** Whatever a pass through the loop body does with a chunk, it leaves
    no more than the chunk's tokens to be carried. *)
Lemma loop_body_bound seg size rest (c : chunk token) :
  match loop_body ss tol seg size rest c with
  | Yielded _ st' | Silent st' =>
      fresh st'
      ∧ (weight st' ≤ length c + sum_list (map (λ c, S (length c)) rest))%nat
  | Exhausted _ => True
  end.
Proof.
  unfold loop_body. repeat case_match; simplify_eq;
    (split; [by intros ? ? ? | unfold weight; simpl]).
  - pose proof (length_slice_from c (- (size + Py.len c - ss))). lia.
  - rewrite pop_snoc in *. simplify_eq. lia.
  - lia.
  - lia.
Qed.

(** A carried chunk alone in its segment is split, kept or waits for
    more; part of it leaves the carry. *)
Lemma loop_body_alone rest t (c : chunk token) :
  match loop_body ss tol [] 0 rest (t :: c) with
  | Yielded _ st' | Silent st' =>
      fresh st'
      ∧ (weight st'
         < length (t :: c) + sum_list (map (λ c, S (length c)) rest))%nat
  | Exhausted _ => True
  end.
Proof.
  unfold loop_body. rewrite !Z.add_0_l.
  replace (ss - (Py.len (t :: c) - Py.len (t :: c))) with ss by lia.
  destruct (ss <=? Py.len (t :: c)) eqn:Hsize.
  2:{ split; [by intros ? ? ? |]. unfold weight. simpl. lia. }
  apply Z.leb_le in Hsize.
  destruct (Qle_bool 0 tol
            && Py.Qlt_bool tol (inject_Z ((Py.len (t :: c) - ss) `min` ss)))
    eqn:Hsplit.
  - split; [by intros ? ? ? |]. unfold weight. simpl doc_iter. simpl carry.
    apply andb_true_iff in Hsplit as [_ Hpos%split_positive].
    assert (length (Py.slice_from (t :: c) (- (Py.len (t :: c) - ss)))
            < length (t :: c))%nat; [| simpl in *; lia].
    apply length_slice_from_end; lia.
  - destruct (ss <=? Py.len (t :: c) - ss) eqn:Hevict.
    + apply Z.leb_le in Hevict. rewrite Z.min_r in Hsplit by done.
      by rewrite tol_nonneg, tol_small in Hsplit.
    + split; [by intros ? ? ? |]. unfold weight. simpl. lia.
Qed.

(** Every pass through the loop that does not end it makes progress. *)
Lemma step_progress st :
  fresh st →
  match step ss tol st with
  | Yielded _ st' | Silent st' => fresh st' ∧ (weight st' < weight st)%nat
  | Exhausted _ => True
  end.
Proof.
  intros Hfresh. unfold step.
  destruct st as [seg size [[|t c]|] [|d it]]; simpl; try done.
  - pose proof (loop_body_bound seg size it d) as Hb.
    destruct (loop_body ss tol seg size it d); try done;
      (destruct Hb as [? Hb]; split; [done |]; unfold weight in *;
       simpl in *; lia).
  - destruct (Hfresh t c eq_refl) as [Hseg Hsize]. simpl in *. subst.
    pose proof (loop_body_alone [] t c) as Hb.
    destruct (loop_body ss tol [] 0 [] (t :: c)); try done;
      (destruct Hb as [? Hb]; split; [done |]; unfold weight in *;
       simpl in *; lia).
  - destruct (Hfresh t c eq_refl) as [Hseg Hsize]. simpl in *. subst.
    pose proof (loop_body_alone (d :: it) t c) as Hb.
    destruct (loop_body ss tol [] 0 (d :: it) (t :: c)); try done;
      (destruct Hb as [? Hb]; split; [done |]; unfold weight in *;
       simpl in *; lia).
  - pose proof (loop_body_bound seg size it d) as Hb.
    destruct (loop_body ss tol seg size it d); try done;
      (destruct Hb as [? Hb]; split; [done |]; unfold weight in *;
       simpl in *; lia).
Qed.

(** So the generator finishes within [weight st + 1] iterations. *)
Lemma run_finishes fuel st :
  fresh st → (weight st < fuel)%nat → (run fuel ss tol st).2 = true.
Proof.
  revert st. induction fuel as [|fuel IH]; intros st Hfresh Hfuel; [lia |].
  simpl. pose proof (step_progress st Hfresh) as Hstep.
  destruct (step ss tol st) as [seg st'|st'|[seg|]]; try done.
  - destruct Hstep as [Hfresh' Hlt].
    specialize (IH st' Hfresh' ltac:(lia)).
    by destruct (run fuel ss tol st').
  - destruct Hstep as [Hfresh' Hlt]. apply IH; [done | lia].
Qed.

End Termination.

(** For a segment size of at least 1 and a tolerance that, once made
    absolute, is at least 0 and below the segment size, [segment_fuzzy]
    finishes on every document, within one iteration per chunk and per
    token and one more, and its segments hold the tokens of the document,
    each once and in order. *)
Lemma segment_fuzzy_finishes_lossless {token : Type}
    (document : list (chunk token)) (segment_size : Z) (tolerance : Q) :
  1 ≤ segment_size →
  Qle_bool 0 (effective_tolerance segment_size tolerance) = true →
  Py.Qlt_bool (effective_tolerance segment_size tolerance)
    (inject_Z segment_size) = true →
  ∃ segs,
    segment_fuzzy (S (weight (initial document))) document
      segment_size tolerance = Some segs
    ∧ tokens_of segs = concat document.
Proof.
  intros Hss Hnonneg Hsmall.
  pose proof (run_finishes segment_size
    (effective_tolerance segment_size tolerance) Hss Hnonneg Hsmall
    (S (weight (initial document))) (initial document)) as Hfin.
  destruct (segment_fuzzy (S (weight (initial document))) document
              segment_size tolerance) as [segs|] eqn:Hsegs.
  - exists segs. split; [done |]. by eapply segment_fuzzy_lossless.
  - unfold segment_fuzzy, segment_fuzzy_prefix in Hsegs.
    destruct (run _ _ _ _) as [segs fin]. simpl in Hfin.
    rewrite Hfin in Hsegs; [done | by intros ? ? ? | lia].
Qed.




(** *** Whole chunks under a negative tolerance *)

Lemma loop_body_whole_chunks {token : Type} ss tol seg size rest
    (c : chunk token) :
  Qle_bool 0 tol = false →
  match loop_body ss tol seg size rest c with
  | Yielded out st' =>
      (∀ x, x ∈ out → x ∈ seg ∨ x = c)
      ∧ current_segment st' = []
      ∧ (∀ x, carry st' = Some x → x = c)
      ∧ doc_iter st' = rest
  | Silent st' =>
      current_segment st' = seg ++ [c] ∧ carry st' = None ∧ doc_iter st' = rest
  | Exhausted _ => False
  end.
Proof.
  intros Htol. unfold loop_body. rewrite Htol. simpl.
  repeat case_match; simplify_eq; simpl; try done.
  - rewrite removelast_last, last_last. split_and!; try done.
    + intros x Hx. by left.
    + by intros x [= ->].
  - split_and!; try done. intros x [Hx|Hx%list_elem_of_singleton]%elem_of_app;
      [by left | by right].
Qed.

(** Under a negative tolerance every chunk of every segment is a chunk
    that was put in whole. *)
Lemma run_whole_chunks {token : Type} fuel ss tol (st : state token) seg x :
  Qle_bool 0 tol = false →
  seg ∈ (run fuel ss tol st).1 → x ∈ seg →
  x ∈ current_segment st ∨ carry st = Some x ∨ x ∈ doc_iter st.
Proof.
  intros Htol. revert st. induction fuel as [|fuel IH]; intros st Hseg Hx.
  { by apply elem_of_nil in Hseg. }
  simpl in Hseg. unfold step in Hseg.
  destruct (next_chunk st) as [[c rest]|] eqn:Hnext.
  - assert (carry st = Some c ∧ doc_iter st = rest
            ∨ doc_iter st = c :: rest) as Hc.
    { unfold next_chunk in Hnext.
      destruct st as [cs sz [[|t c0]|] [|d it]]; simpl in *; simplify_eq;
        auto. }
    assert (∀ y, y = c ∨ y ∈ rest →
                 carry st = Some y ∨ y ∈ doc_iter st) as Hback.
    { intros y [->|Hy]; destruct Hc as [[Hc1 Hc2]|Hc]; rewrite ?Hc1, ?Hc2, ?Hc;
        auto; right; apply elem_of_cons; auto. }
    pose proof (loop_body_whole_chunks ss tol (current_segment st)
                  (current_size st) rest c Htol) as Hb.
    destruct (loop_body ss tol (current_segment st) (current_size st) rest c)
      as [out st'|st'|] eqn:Hbody; [| | done].
    + destruct Hb as (Hout & Hseg' & Hcarry & Hiter).
      destruct (run fuel ss tol st') as [segs fin] eqn:Hrun. simpl in Hseg.
      apply elem_of_cons in Hseg as [->|Hseg].
      * destruct (Hout x Hx) as [?| ->]; [by left |].
        right. apply Hback. by left.
      * assert (seg ∈ (run fuel ss tol st').1) as Hin by by rewrite Hrun.
        destruct (IH st' Hin Hx) as [Hin'|[Hin'|Hin']].
        -- rewrite Hseg' in Hin'. by apply elem_of_nil in Hin'.
        -- right. apply Hback. left. by apply Hcarry.
        -- right. apply Hback. right. by rewrite <- Hiter.
    + destruct Hb as (Hseg' & Hcarry & Hiter).
      destruct (IH st' Hseg Hx) as [Hin'|[Hin'|Hin']].
      * rewrite Hseg' in Hin'.
        apply elem_of_app in Hin' as [?| ->%list_elem_of_singleton];
          [by left |]. right. apply Hback. by left.
      * by rewrite Hcarry in Hin'.
      * right. apply Hback. right. by rewrite <- Hiter.
  - destruct (Py.truthy (current_segment st)); simpl in Hseg.
    + apply list_elem_of_singleton in Hseg as ->. by left.
    + by apply elem_of_nil in Hseg.
Qed.

(** With a negative tolerance, whatever [segment_fuzzy] yields consists
    of chunks of the document, none of them split. *)
Lemma segment_fuzzy_negative_tolerance_whole_chunks {token : Type} fuel
    (document : list (chunk token)) (segment_size : Z) (tolerance : Q) seg x :
  Qle_bool 0 tolerance = false →
  seg ∈ (segment_fuzzy_prefix fuel document segment_size tolerance).1 →
  x ∈ seg → x ∈ document.
Proof.
  intros Hneg Hseg Hx. unfold segment_fuzzy_prefix in Hseg.
  assert (effective_tolerance segment_size tolerance = tolerance) as Heff.
  { unfold effective_tolerance, Py.Qlt_bool.
    destruct (Qle_bool tolerance 0) eqn:Hle; [done |].
    exfalso. assert (¬ (0 <= tolerance)%Q) as Hn.
    { intros H0%Qle_bool_iff. congruence. }
    apply Qnot_le_lt, Qlt_le_weak, Qle_bool_iff in Hn. congruence. }
  rewrite Heff in Hseg.
  destruct (run_whole_chunks _ _ _ _ _ _ Hneg Hseg Hx) as [Hin|[Hin|Hin]];
    simpl in Hin; [by apply elem_of_nil in Hin | done | done].
Qed.

(** The document of the docstring. *)
Definition example_document : list (chunk string) :=
  [["This"; "test"; "is"; "very"; "clear"]; ["and"; "contains"; "chunks"]].

(** With the default tolerance the docstring's example gives its four
    segments, and they hold the tokens of the document in order. *)
Lemma segment_fuzzy_docstring :
  segment_fuzzy 6 example_document 2 default_tolerance
  = Some [[["This"; "test"]]; [["is"; "very"]]; [["clear"]; ["and"]];
          [["contains"; "chunks"]]]
  ∧ tokens_of [[["This"; "test"]]; [["is"; "very"]]; [["clear"]; ["and"]];
               [["contains"; "chunks"]]]
    = concat example_document.
Proof. split; vm_compute; reflexivity. Qed.

(** A chunk longer than the segment size, but shorter than twice the
    segment size, is a segment of its own under a negative tolerance. *)
Lemma segment_fuzzy_oversized_accepted :
  segment_fuzzy 2 [["a"; "b"; "c"]] 2 (-1) = Some [[["a"; "b"; "c"]]].
Proof. vm_compute. reflexivity. Qed.

(** C3 on the document of the docstring, segment size 2 and tolerance
    -1: the first chunk has five tokens, it is evicted from every
    segment it is put in, the generator never comes to an end, and the
    segments it yields in any number of iterations hold no token at all,
    where the claim has them hold the tokens of the document. *)
Theorem segment_fuzzy_evicted_chunk_never_yielded (fuel : nat) :
  segment_fuzzy fuel example_document 2 (-1) = None
  ∧ (segment_fuzzy_prefix fuel example_document 2 (-1)).1 = replicate fuel []
  ∧ tokens_of (segment_fuzzy_prefix fuel example_document 2 (-1)).1 = [].
Proof.
  assert (segment_fuzzy_prefix fuel example_document 2 (-1)
          = (replicate fuel [], false)) as Hrun.
  { unfold segment_fuzzy_prefix, example_document.
    apply run_oversized_first; [by vm_compute | done]. }
  unfold segment_fuzzy. rewrite Hrun. simpl. split_and!; [done | done |].
  clear Hrun. unfold tokens_of.
  induction fuel as [|fuel IH]; [done |]. simpl. exact IH.
Qed.

(** C4 on a single chunk of five tokens, segment size 2 and tolerance
    -1: the chunk is larger than the segment size, the claim has it
    accepted as a segment of its own after finitely many steps, but the
    generator yields an empty segment in every iteration and never
    finishes. *)
Theorem segment_fuzzy_negative_tolerance_diverges (fuel : nat) :
  segment_fuzzy_prefix fuel [["a"; "b"; "c"; "d"; "e"]] 2 (-1)
  = (replicate fuel [], false).
Proof.
  unfold segment_fuzzy_prefix.
  apply run_oversized_first; [by vm_compute | done].
Qed.

End SegmenterFacts.

(** ** The dictionary builder *)

Module DictionaryFacts.
Import Py Dictionary.

(** What it means for [d] to number the distinct tokens of [tokens]:
    its keys are these tokens, its values are the numbers from 1 to
    their count in some order, and no two keys share a value. *)
Definition numbers (d : gmap string Z) (tokens : list string) : Prop :=
  (∀ t, is_Some (d !! t) ↔ t ∈ tokens)
  ∧ (map_to_list d).*2 ≡ₚ seqZ 1 (Z.of_nat (length (remove_dups tokens)))
  ∧ (∀ t1 t2 i, d !! t1 = Some i → d !! t2 = Some i → t1 = t2).

Lemma enumerate_fst {A} (l : list A) start :
  (enumerate l start).*1 = seqZ start (Z.of_nat (length l)).
Proof.
  revert start. induction l as [|x l IH]; intros start; [done |].
  simpl length. rewrite Nat2Z.inj_succ, seqZ_cons by lia. simpl.
  rewrite IH. do 2 f_equal; lia.
Qed.

Lemma enumerate_snd {A} (l : list A) start : (enumerate l start).*2 = l.
Proof.
  revert start. induction l as [|x l IH]; intros start; [done |].
  simpl. by rewrite IH.
Qed.

Lemma foldl_insert_notin `{Countable K} {A} (pairs : list (A * K))
    (acc : gmap K A) t :
  t ∉ pairs.*2 →
  foldl (λ d p, <[p.2 := p.1]> d) acc pairs !! t = acc !! t.
Proof.
  revert acc. induction pairs as [|[i0 t0] ps IH]; intros acc Hnot; [done |].
  simpl in *. apply not_elem_of_cons in Hnot as [Hne Hnot].
  rewrite IH by done. by rewrite lookup_insert_ne.
Qed.

Lemma foldl_insert_in `{Countable K} {A} (pairs : list (A * K))
    (acc : gmap K A) i t :
  NoDup pairs.*2 → (i, t) ∈ pairs →
  foldl (λ d p, <[p.2 := p.1]> d) acc pairs !! t = Some i.
Proof.
  revert acc. induction pairs as [|[i0 t0] ps IH]; intros acc Hnd Hin.
  { by apply elem_of_nil in Hin. }
  simpl in *. apply NoDup_cons in Hnd as [Hnot Hnd].
  apply elem_of_cons in Hin as [Heq | Hin].
  - simplify_eq. rewrite foldl_insert_notin by done.
    apply lookup_insert_eq.
  - by apply IH.
Qed.

(** Over pairs with distinct tokens the comprehension keeps every
    pair. *)
Lemma foldl_insert_lookup `{Countable K} {A} (pairs : list (A * K)) i t :
  NoDup pairs.*2 →
  foldl (λ d p, <[p.2 := p.1]> d) (∅ : gmap K A) pairs !! t = Some i
  ↔ (i, t) ∈ pairs.
Proof.
  intros Hnd. split; [| by apply foldl_insert_in].
  intros Hl. destruct (decide (t ∈ pairs.*2)) as [Hin | Hnot].
  - apply list_elem_of_fmap in Hin as [[i' t'] [-> Hin]]. simpl in *.
    rewrite (foldl_insert_in _ _ i' t') in Hl by done. by simplify_eq.
  - rewrite foldl_insert_notin in Hl by done. by rewrite lookup_empty in Hl.
Qed.

Lemma dict_of_lookup (pairs : list (Z * string)) i t :
  NoDup pairs.*2 → dict_of pairs !! t = Some i ↔ (i, t) ∈ pairs.
Proof. apply foldl_insert_lookup. Qed.

Lemma swap_fst (pairs : list (Z * string)) :
  ((λ p, (p.2, p.1)) <$> pairs).*1 = pairs.*2.
Proof. induction pairs as [|p ps IH]; [done |]. csimpl. by rewrite IH. Qed.

Lemma swap_snd (pairs : list (Z * string)) :
  ((λ p, (p.2, p.1)) <$> pairs).*2 = pairs.*1.
Proof. induction pairs as [|p ps IH]; [done |]. csimpl. by rewrite IH. Qed.

Lemma dict_of_to_list (pairs : list (Z * string)) :
  NoDup pairs.*2 →
  map_to_list (dict_of pairs) ≡ₚ (λ p, (p.2, p.1)) <$> pairs.
Proof.
  intros Hnd. apply NoDup_Permutation.
  - apply NoDup_map_to_list.
  - apply (NoDup_fmap_1 fst). by rewrite swap_fst.
  - intros [t i]. rewrite elem_of_map_to_list, dict_of_lookup by done.
    rewrite list_elem_of_fmap. split.
    + intros Hin. by exists (i, t).
    + intros [[i' t'] [? Hin]]. by simplify_eq.
Qed.

(** Numbering a duplicate-free list of the distinct tokens. *)
Lemma dict_of_enumerate_numbers (l tokens : list string) :
  NoDup l → (∀ t, t ∈ l ↔ t ∈ tokens) →
  numbers (dict_of (enumerate l 1)) tokens.
Proof.
  intros Hnd Hl.
  assert (NoDup (enumerate l 1).*2) as Hnd2 by by rewrite enumerate_snd.
  assert (NoDup (enumerate l 1).*1) as Hnd1.
  { rewrite enumerate_fst. apply NoDup_seqZ. }
  repeat split.
  - intros [i Hi]. apply dict_of_lookup in Hi; [| done]. apply Hl.
    rewrite <- (enumerate_snd l 1).
    apply list_elem_of_fmap. by exists (i, t).
  - intros Hin. apply Hl in Hin. rewrite <- (enumerate_snd l 1) in Hin.
    apply list_elem_of_fmap in Hin as [[i t'] [-> Hin]].
    exists i. by apply dict_of_lookup.
  - rewrite dict_of_to_list by done. rewrite swap_snd, enumerate_fst.
    replace (length (remove_dups tokens)) with (length l); [done |].
    apply Permutation_length, NoDup_Permutation;
      [done | apply NoDup_remove_dups |].
    intros t. by rewrite elem_of_remove_dups.
  - intros t1 t2 i H1 H2.
    apply dict_of_lookup in H1, H2; try done.
    apply list_elem_of_lookup in H1 as [k1 H1], H2 as [k2 H2].
    assert (k1 = k2) as ->.
    { eapply NoDup_lookup; [exact Hnd1 | |];
        rewrite list_lookup_fmap; [by rewrite H1 | by rewrite H2]. }
    by simplify_eq.
Qed.

Lemma set_of_flat (tokens : list string) :
  set_of (flat tokens) = Ok (list_to_set tokens).
Proof. induction tokens as [|t l IH]; [done |]. simpl. by rewrite IH. Qed.

Lemma forallb_is_list_flat (tokens : list string) :
  forallb is_list (flat tokens) = true → tokens = [].
Proof. by destruct tokens. Qed.

Lemma forallb_is_list_nested (tokens : list (list string)) :
  forallb is_list (nested tokens) = true.
Proof. induction tokens; [done |]. simpl. done. Qed.

Lemma elem_of_union_of_nested (tokens : list (list string)) t :
  t ∈ union_of (nested tokens) ↔ t ∈ concat tokens.
Proof.
  unfold union_of, nested. induction tokens as [|l ls IH]; simpl.
  - set_solver.
  - rewrite elem_of_union, elem_of_app, IH, elem_of_list_to_set. done.
Qed.

Section SetOrder.

Variable set_order : gset string → list string.
Hypothesis set_order_perm : ∀ X, set_order X ≡ₚ elements X.

Lemma set_order_numbers (X : gset string) (tokens : list string) :
  (∀ t, t ∈ X ↔ t ∈ tokens) →
  numbers (dict_of (enumerate (set_order X) 1)) tokens.
Proof.
  intros HX. apply dict_of_enumerate_numbers.
  - rewrite set_order_perm. apply NoDup_elements.
  - intros t. rewrite set_order_perm, elem_of_elements. apply HX.
Qed.

Lemma create_dictionary_flat (tokens : list string) :
  ∃ d, create_dictionary set_order (flat tokens) = Ok d ∧ numbers d tokens.
Proof.
  unfold create_dictionary.
  destruct (forallb is_list (flat tokens)) eqn:Hall.
  - apply forallb_is_list_flat in Hall. subst tokens. simpl.
    eexists. split; [done |]. apply set_order_numbers.
    intros t. unfold union_of. simpl. by rewrite elem_of_empty, elem_of_nil.
  - rewrite set_of_flat. simpl.
    eexists. split; [done |]. apply set_order_numbers.
    intros t. apply elem_of_list_to_set.
Qed.

Lemma create_dictionary_nested (tokens : list (list string)) :
  ∃ d, create_dictionary set_order (nested tokens) = Ok d
       ∧ numbers d (concat tokens).
Proof.
  unfold create_dictionary. rewrite forallb_is_list_nested. simpl.
  eexists. split; [done |]. apply set_order_numbers.
  apply elem_of_union_of_nested.
Qed.

End SetOrder.

(** C5. For every flat token list and every list of token lists,
    whatever the order in which the set of tokens is iterated,
    [create_dictionary] returns a dictionary whose keys are exactly the
    distinct tokens (of the flattened input), whose values are a
    permutation of 1..N, N the number of distinct tokens, and that
    maps no two tokens to the same value. *)
Theorem create_dictionary_numbers (set_order : gset string → list string)
    (set_order_perm : ∀ X, set_order X ≡ₚ elements X) :
  (∀ tokens : list string,
      ∃ d, create_dictionary set_order (flat tokens) = Ok d
           ∧ numbers d tokens)
  ∧ (∀ tokens : list (list string),
      ∃ d, create_dictionary set_order (nested tokens) = Ok d
           ∧ numbers d (concat tokens)).
Proof.
  split; intros tokens.
  - by apply create_dictionary_flat.
  - by apply create_dictionary_nested.
Qed.

Lemma create_dictionary_numbers_witness :
  (∀ X, elements X ≡ₚ elements (X : gset string))
  ∧ (∃ d, create_dictionary elements (flat ["b"; "a"; "b"]) = Ok d
          ∧ numbers d ["b"; "a"; "b"])
  ∧ (∃ d, create_dictionary elements (nested [["b"; "a"]; ["b"; "c"]]) = Ok d
          ∧ numbers d (concat [["b"; "a"]; ["b"; "c"]])).
Proof.
  split; [done |].
  destruct (create_dictionary_numbers elements (λ X, reflexivity _))
    as [Hflat Hnested].
  split; [apply Hflat | apply Hnested].
Defined.

End DictionaryFacts.

(** ** Ordered dictionaries and counters *)

Module PyFacts.
Import Py.

Section OrderedDict.
Context {K V : Type} `{EqDecision K}.
Implicit Types (d : list (K * V)).

Lemma dict_get_set_eq k v d : dict_get k (dict_set k v d) = Some v.
Proof.
  induction d as [|[k' v'] d IH]; simpl.
  - by rewrite decide_True.
  - destruct (decide (k = k')) as [->|Hne]; simpl.
    + by rewrite decide_True.
    + by rewrite decide_False.
Qed.

Lemma dict_get_set_ne j k v d :
  j ≠ k → dict_get j (dict_set k v d) = dict_get j d.
Proof.
  intros Hne. induction d as [|[k' v'] d IH]; simpl.
  - by rewrite decide_False.
  - destruct (decide (k = k')) as [->|Hne']; simpl.
    + by rewrite !decide_False.
    + by rewrite IH.
Qed.

Lemma dict_get_None k d : dict_get k d = None ↔ k ∉ d.*1.
Proof.
  induction d as [|[k' v'] d IH]; csimpl.
  - split; [intros _; apply not_elem_of_nil | done].
  - rewrite not_elem_of_cons. destruct (decide (k = k')); naive_solver.
Qed.

Lemma dict_get_Some k v d : dict_get k d = Some v → (k, v) ∈ d.
Proof.
  induction d as [|[k' v'] d IH]; csimpl; [done |].
  destruct (decide (k = k')) as [->|]; intros; simplify_eq.
  - apply elem_of_cons. by left.
  - apply elem_of_cons. right. by apply IH.
Qed.

Lemma dict_get_NoDup k v d :
  NoDup d.*1 → (k, v) ∈ d → dict_get k d = Some v.
Proof.
  induction d as [|[k' v'] d IH]; csimpl; intros Hnd Hin.
  { by apply elem_of_nil in Hin. }
  apply NoDup_cons in Hnd as [Hnot Hnd].
  apply elem_of_cons in Hin as [Heq|Hin].
  - simplify_eq. by rewrite decide_True.
  - rewrite decide_False; [by apply IH |].
    intros ->. apply Hnot. apply list_elem_of_fmap. by exists (k', v).
Qed.

(** Setting a new key appends it. *)
Lemma dict_set_fresh k v d : k ∉ d.*1 → dict_set k v d = d ++ [(k, v)].
Proof.
  induction d as [|[k' v'] d IH]; csimpl; [done |].
  intros [Hne Hnot]%not_elem_of_cons.
  rewrite decide_False by done. by rewrite IH.
Qed.

(** Setting a key that is there leaves the keys as they are. *)
Lemma dict_set_keys_old k v d : k ∈ d.*1 → (dict_set k v d).*1 = d.*1.
Proof.
  induction d as [|[k' v'] d IH]; csimpl.
  { by intros ?%elem_of_nil. }
  intros Hin. destruct (decide (k = k')) as [->|Hne]; csimpl; [done |].
  rewrite IH; [done |]. apply elem_of_cons in Hin as [|]; done.
Qed.

Lemma dict_set_keys k v d :
  (dict_set k v d).*1 = if decide (k ∈ d.*1) then d.*1 else d.*1 ++ [k].
Proof.
  case_decide.
  - by apply dict_set_keys_old.
  - rewrite dict_set_fresh by done. by rewrite fmap_app.
Qed.

Lemma dict_set_NoDup k v d : NoDup d.*1 → NoDup (dict_set k v d).*1.
Proof.
  intros Hnd. rewrite dict_set_keys. case_decide; [done |].
  apply NoDup_app. split_and!; [done | | apply NoDup_singleton].
  intros x Hx ->%list_elem_of_singleton. done.
Qed.
End OrderedDict.

(** How often [k] occurs in [l]. *)
Definition occurrences `{EqDecision A} (k : A) (l : list A) : Z :=
  Z.of_nat (length (filter (λ x, x = k) l)).

Lemma occurrences_nil `{EqDecision A} (k : A) : occurrences k [] = 0.
Proof. done. Qed.

Lemma occurrences_cons `{EqDecision A} (k x : A) l :
  occurrences k (x :: l)
  = (if decide (x = k) then 1 else 0) + occurrences k l.
Proof.
  unfold occurrences. rewrite filter_cons. case_decide; simpl; lia.
Qed.

Lemma occurrences_app `{EqDecision A} (k : A) l1 l2 :
  occurrences k (l1 ++ l2) = occurrences k l1 + occurrences k l2.
Proof. unfold occurrences. rewrite filter_app, length_app. lia. Qed.

Lemma occurrences_pos `{EqDecision A} (k : A) l :
  0 < occurrences k l ↔ k ∈ l.
Proof.
  induction l as [|x l IH].
  - rewrite occurrences_nil. split; [lia | by intros ?%elem_of_nil].
  - rewrite occurrences_cons, elem_of_cons.
    assert (0 <= occurrences k l) by (unfold occurrences; lia).
    case_decide; subst; [split; [by left | lia] |].
    rewrite Z.add_0_l, IH. naive_solver.
Qed.

Lemma Counter_loop_getitem (l : list Z) (c : counter) k :
  counter_getitem
    (foldl (λ c x, dict_set x (default 0 (dict_get x c) + 1) c) c l) k
  = counter_getitem c k + occurrences k l.
Proof.
  revert c. induction l as [|x l IH]; intros c; simpl.
  - rewrite occurrences_nil. lia.
  - rewrite IH, occurrences_cons. unfold counter_getitem.
    case_decide as Hx.
    + subst x. rewrite dict_get_set_eq. simpl. lia.
    + rewrite dict_get_set_ne by done. lia.
Qed.

(** A counter reads as the number of occurrences. *)
Lemma Counter_getitem (l : list Z) k :
  counter_getitem (Counter l) k = occurrences k l.
Proof. unfold Counter. by rewrite Counter_loop_getitem. Qed.

Lemma Counter_loop_keys (l : list Z) (c : counter) k :
  k ∈ (foldl (λ c x, dict_set x (default 0 (dict_get x c) + 1) c) c l).*1
  ↔ k ∈ c.*1 ∨ k ∈ l.
Proof.
  revert c. induction l as [|x l IH]; intros c; simpl.
  - rewrite elem_of_nil. naive_solver.
  - rewrite IH, dict_set_keys, elem_of_cons.
    case_decide; [| rewrite elem_of_app, list_elem_of_singleton];
      naive_solver.
Qed.

(** Its keys are the elements counted, each once. *)
Lemma Counter_keys (l : list Z) k : k ∈ (Counter l).*1 ↔ k ∈ l.
Proof.
  unfold Counter. rewrite Counter_loop_keys. simpl. rewrite elem_of_nil.
  naive_solver.
Qed.

Lemma Counter_NoDup (l : list Z) : NoDup (Counter l).*1.
Proof.
  unfold Counter.
  assert (∀ c : counter, NoDup c.*1 →
    NoDup (foldl (λ c x, dict_set x (default 0 (dict_get x c) + 1) c) c l).*1)
    as Hloop.
  { induction l as [|x l IH]; intros c Hc; simpl; [done |].
    by apply IH, dict_set_NoDup. }
  apply Hloop. apply NoDup_nil_2.
Qed.

Lemma Counter_empty (l : list Z) : Counter l = [] ↔ l = [].
Proof.
  split; [| by intros ->].
  intros Hc. destruct l as [|x l]; [done |].
  assert (x ∈ (Counter (x :: l)).*1) as Hin.
  { apply Counter_keys, elem_of_cons. by left. }
  rewrite Hc in Hin. by apply elem_of_nil in Hin.
Qed.

Lemma filter_iff_in {A} (P1 P2 : A → Prop)
    `{!∀ x, Decision (P1 x), !∀ x, Decision (P2 x)} (l : list A) :
  (∀ x, x ∈ l → P1 x ↔ P2 x) → filter P1 l = filter P2 l.
Proof.
  induction l as [|a l IH]; intros Hiff; [done |].
  assert (filter P1 l = filter P2 l) as IH'.
  { apply IH. intros x Hx. apply Hiff, elem_of_cons. by right. }
  assert (P1 a ↔ P2 a) as Ha by (apply Hiff, elem_of_cons; by left).
  destruct (decide (P1 a)).
  - rewrite (filter_cons_True P1), (filter_cons_True P2) by naive_solver.
    by rewrite IH'.
  - rewrite (filter_cons_False P1), (filter_cons_False P2) by naive_solver.
    done.
Qed.

Lemma elem_of_concat {A} (x : A) (ls : list (list A)) :
  x ∈ concat ls ↔ ∃ l, l ∈ ls ∧ x ∈ l.
Proof.
  induction ls as [|l ls IH]; simpl.
  - rewrite elem_of_nil. split; [done |]. by intros (l & ?%elem_of_nil & _).
  - rewrite elem_of_app, IH. split.
    + intros [Hx|(l' & Hl' & Hx)].
      * exists l. split; [apply elem_of_cons; by left | done].
      * exists l'. split; [apply elem_of_cons; by right | done].
    + intros (l' & [->|Hl']%elem_of_cons & Hx); [by left |].
      right. by exists l'.
Qed.

End PyFacts.

(** ** The sparse counter *)

Module BowFacts.
Import Py PyFacts Bow.

(** The token ids of a document and the document id of a label, as the
    dictionaries give them. *)
Definition id_list (type_dictionary : gmap string Z) (tokens : list string)
  : list Z :=
  map (λ t, default 0 (type_dictionary !! t)) tokens.

Definition doc_key (doc_dictionary : gmap string Z) (label : string) : Z :=
  default 0 (doc_dictionary !! label).

(** The rows of one document: a row per counted token id, or the
    placeholder row with token id 0 when nothing was counted. *)
Definition doc_rows (k : Z) (c : counter) : table :=
  (if decide (length c = 0%nat) then [Row k 0 0] else [])
    ++ map (λ kv, Row k kv.1 kv.2) c.

(** The table of the documents numbered 1 to [n]. *)
Definition bow_of (largecounter : list (Z * counter)) (n : nat) : table :=
  flat_map (λ k, doc_rows k (default [] (dict_get k largecounter)))
           (range 1 n).

Lemma token_ids_covered type_dictionary tokens :
  (∀ t, t ∈ tokens → is_Some (type_dictionary !! t)) →
  token_ids type_dictionary tokens = Ok (id_list type_dictionary tokens).
Proof.
  induction tokens as [|t l IH]; intros Hcov; [done |].
  simpl. unfold getitem.
  destruct (Hcov t) as [i Hi]; [apply elem_of_cons; by left |].
  rewrite Hi. simpl. rewrite IH; [done |].
  intros t' Hin. apply Hcov, elem_of_cons. by right.
Qed.

Lemma token_ids_missing type_dictionary tokens t :
  t ∈ tokens → type_dictionary !! t = None →
  token_ids type_dictionary tokens = Raise KeyError.
Proof.
  induction tokens as [|t' l IH]; intros Hin Hnone.
  { by apply elem_of_nil in Hin. }
  simpl. unfold getitem. destruct (type_dictionary !! t') as [i|] eqn:Hi;
    [| done].
  simpl. apply elem_of_cons in Hin as [->|Hin]; [congruence |].
  by rewrite IH.
Qed.

(** Distinct labels are entered one after the other. *)
Lemma large_counter_loop_distinct type_dictionary pairs acc :
  NoDup (acc.*1 ++ pairs.*1) →
  (∀ p t, p ∈ pairs → t ∈ p.2 → is_Some (type_dictionary !! t)) →
  large_counter_loop type_dictionary pairs acc
  = Ok (acc ++ map (λ p, (p.1, Counter (id_list type_dictionary p.2))) pairs).
Proof.
  revert acc. induction pairs as [|[doc tokens] ps IH]; intros acc Hnd Hcov.
  { simpl. by rewrite app_nil_r. }
  simpl. rewrite token_ids_covered.
  2:{ intros t Ht. apply (Hcov (doc, tokens)); [apply elem_of_cons; by left | done]. }
  simpl. csimpl in Hnd.
  apply NoDup_app in Hnd as (Hacc & Hdisj & Hps).
  apply NoDup_cons in Hps as [Hdoc Hps].
  rewrite dict_set_fresh.
  2:{ intros Hin. apply (Hdisj _ Hin), elem_of_cons. by left. }
  rewrite IH.
  - by rewrite <- (assoc_L (++)).
  - rewrite fmap_app. csimpl. rewrite <- (assoc_L (++)).
    apply NoDup_app. split_and!; [done | | by apply NoDup_cons].
    intros x Hx Hx'. by apply (Hdisj x).
  - intros p t Hp. apply Hcov, elem_of_cons. by right.
Qed.

Lemma relabel_distinct doc_dictionary (items : list (string * counter)) acc :
  NoDup (acc.*1 ++ map (doc_key doc_dictionary) items.*1) →
  (∀ label, label ∈ items.*1 → is_Some (doc_dictionary !! label)) →
  relabel doc_dictionary items acc
  = Ok (acc ++ map (λ p, (doc_key doc_dictionary p.1, p.2)) items).
Proof.
  revert acc. induction items as [|[label c] ps IH]; intros acc Hnd Hcov.
  { simpl. by rewrite app_nil_r. }
  simpl. unfold getitem.
  destruct (Hcov label) as [d Hd]; [csimpl; apply elem_of_cons; by left |].
  rewrite Hd. simpl. csimpl in Hnd.
  unfold doc_key at 1 in Hnd. unfold doc_key at 1. rewrite Hd in *.
  simpl in Hnd. simpl.
  apply NoDup_app in Hnd as (Hacc & Hdisj & Hps).
  apply NoDup_cons in Hps as [Hdoc Hps].
  rewrite dict_set_fresh.
  2:{ intros Hin. apply (Hdisj _ Hin), elem_of_cons. by left. }
  rewrite IH.
  - by rewrite <- (assoc_L (++)).
  - rewrite fmap_app. csimpl. rewrite <- (assoc_L (++)).
    apply NoDup_app. split_and!; [done | | by apply NoDup_cons].
    intros x Hx Hx'. by apply (Hdisj x).
  - intros l Hl. apply Hcov. csimpl. apply elem_of_cons. by right.
Qed.

(** The tuples of one document in the index. *)
Definition index_rows (k : Z) (c : counter) : list (Z * Z) :=
  (if decide (length c = 0%nat) then [(k, 0)] else [])
    ++ map (λ kv, (k, kv.1)) c.

Lemma index_rows_fst k c dt : dt ∈ index_rows k c → dt.1 = k.
Proof.
  unfold index_rows. rewrite elem_of_app. intros [Hin|Hin].
  - case_decide; [| by apply elem_of_nil in Hin].
    by apply list_elem_of_singleton in Hin as ->.
  - by apply list_elem_of_fmap in Hin as [kv [-> _]].
Qed.

Lemma index_rows_nonempty k c : ∃ t, (k, t) ∈ index_rows k c.
Proof.
  unfold index_rows. destruct c as [|[t v] c]; simpl.
  - exists 0. apply elem_of_cons. by left.
  - exists t. apply elem_of_cons. by left.
Qed.

Lemma sparse_index_loop_present largecounter keys :
  (∀ k, k ∈ keys → is_Some (dict_get k largecounter)) →
  sparse_index_loop largecounter keys
  = Ok (flat_map (λ k, index_rows k (default [] (dict_get k largecounter)))
                 keys).
Proof.
  induction keys as [|k ks IH]; intros Hkeys; [done |].
  simpl. unfold dict_getitem.
  destruct (Hkeys k) as [c Hc]; [apply elem_of_cons; by left |].
  rewrite Hc. simpl. rewrite IH.
  2:{ intros k' Hk'. apply Hkeys, elem_of_cons. by right. }
  simpl. unfold index_rows. by rewrite <- (assoc_L (++)).
Qed.

Lemma sparse_index_loop_absent largecounter keys k :
  k ∈ keys → dict_get k largecounter = None →
  sparse_index_loop largecounter keys = Raise KeyError.
Proof.
  induction keys as [|k' ks IH]; intros Hin Hnone.
  { by apply elem_of_nil in Hin. }
  simpl. unfold dict_getitem.
  destruct (dict_get k' largecounter) as [c|] eqn:Hc; [| done].
  simpl. apply elem_of_cons in Hin as [->|Hin]; [congruence |].
  by rewrite IH.
Qed.

(** What the inner loop over the token ids of document [d] leaves of a
    table. *)
Lemma fill_tokens (tbl : table) d (f : Z → Z) ts :
  foldl (λ tbl t, set_value tbl d t (f t)) tbl ts
  = map (λ r, if decide (doc_id r = d ∧ token_id r ∈ ts)
              then Row d (token_id r) (f (token_id r)) else r) tbl.
Proof.
  revert tbl. induction ts as [|t ts IH]; intros tbl; cbn [foldl].
  - rewrite <- (map_id tbl) at 1. apply map_ext. intros r.
    case_decide as Hc; [| done]. destruct Hc as [_ Hc].
    by apply elem_of_nil in Hc.
  - rewrite IH. unfold set_value. rewrite map_map. apply map_ext. intros r.
    destruct (decide (doc_id r = d ∧ token_id r = t)) as [[Hd Ht]|Hne]; simpl.
    + rewrite (decide_True (P := doc_id r = d ∧ token_id r ∈ t :: ts)).
      2:{ split; [done |]. apply elem_of_cons. by left. }
      rewrite Ht. by case_decide.
    + destruct (decide (doc_id r = d ∧ token_id r ∈ ts)) as [[Hd Ht]|Hn].
      * rewrite decide_True; [done |]. split; [done |].
        apply elem_of_cons. by right.
      * rewrite decide_False; [done |]. intros [Hd Ht].
        apply elem_of_cons in Ht as [Ht|Ht]; [by apply Hne | by apply Hn].
Qed.

(** What the loop over the document ids [ds] leaves of a table. *)
Lemma fill_loop_present largecounter sparse_index ds (tbl : table) :
  (∀ d, d ∈ ds → is_Some (dict_get d largecounter)) →
  fill_loop largecounter sparse_index ds tbl
  = Ok (map (λ r,
          if decide (doc_id r ∈ ds
                     ∧ token_id r ∈ group_token_ids sparse_index (doc_id r))
          then Row (doc_id r) (token_id r)
                 (counter_getitem
                    (default [] (dict_get (doc_id r) largecounter))
                    (token_id r))
          else r) tbl).
Proof.
  revert tbl. induction ds as [|d ds IH]; intros tbl Hds; cbn [fill_loop].
  - f_equal. rewrite <- (map_id tbl) at 1. apply map_ext. intros r.
    case_decide as Hc; [| done]. destruct Hc as [Hc _].
    by apply elem_of_nil in Hc.
  - unfold dict_getitem.
    destruct (Hds d) as [c Hc]; [apply elem_of_cons; by left |].
    rewrite Hc. simpl. rewrite IH.
    2:{ intros d' Hd'. apply Hds, elem_of_cons. by right. }
    f_equal. rewrite fill_tokens, map_map. apply map_ext. intros r.
    destruct (decide (doc_id r = d ∧ token_id r ∈ group_token_ids sparse_index d))
      as [[Hd Ht]|Hne]; simpl.
    + subst d. rewrite Hc. simpl.
      rewrite (decide_True (P := doc_id r ∈ doc_id r :: ds ∧ _)).
      2:{ split; [apply elem_of_cons; by left | done]. }
      by case_decide.
    + destruct (decide (doc_id r ∈ ds
                 ∧ token_id r ∈ group_token_ids sparse_index (doc_id r)))
        as [[Hd Ht]|Hn].
      * rewrite decide_True; [done |]. split; [| done].
        apply elem_of_cons. by right.
      * rewrite decide_False; [done |]. intros [Hd Ht].
        apply elem_of_cons in Hd as [Hd|Hd].
        -- apply Hne. by rewrite <- Hd.
        -- by apply Hn.
Qed.

Lemma elem_of_group_token_ids sparse_index d t :
  t ∈ group_token_ids sparse_index d ↔ (d, t) ∈ sparse_index.
Proof.
  unfold group_token_ids. rewrite list_elem_of_fmap. split.
  - intros [[d' t'] [-> [Hd Hin]%list_elem_of_filter]]. simpl in *.
    by subst d'.
  - intros Hin. exists (d, t). split; [done |].
    by apply list_elem_of_filter.
Qed.

Lemma counter_getitem_entry (c : counter) kv :
  NoDup c.*1 → kv ∈ c → counter_getitem c kv.1 = kv.2.
Proof.
  intros Hnd Hin. unfold counter_getitem. destruct kv as [k v].
  by rewrite (dict_get_NoDup k v).
Qed.

Section FromLargeCounter.

(** A dictionary of counters for the documents numbered 1 to [n]. *)
Variable largecounter : list (Z * counter).
Variable n : nat.
Hypothesis largecounter_length : length largecounter = n.
Hypothesis largecounter_keys :
  ∀ k, k ∈ range 1 n → is_Some (dict_get k largecounter).
Hypothesis largecounter_counters :
  ∀ k c, dict_get k largecounter = Some c → NoDup c.*1.

Let counter_of (k : Z) : counter := default [] (dict_get k largecounter).
Let sparse_index : list (Z * Z) :=
  flat_map (λ k, index_rows k (counter_of k)) (range 1 n).

Lemma counter_of_NoDup k : NoDup (counter_of k).*1.
Proof.
  unfold counter_of. destruct (dict_get k largecounter) eqn:Hk; simpl.
  - by eapply largecounter_counters.
  - apply NoDup_nil_2.
Qed.

Lemma create_sparse_index_ok :
  _create_sparse_index largecounter = Ok sparse_index.
Proof.
  unfold _create_sparse_index. rewrite largecounter_length.
  by apply sparse_index_loop_present.
Qed.

Lemma elem_of_sparse_index dt :
  dt ∈ sparse_index ↔
  dt.1 ∈ range 1 n ∧ dt ∈ index_rows dt.1 (counter_of dt.1).
Proof.
  unfold sparse_index. rewrite list_elem_of_In, in_flat_map. split.
  - intros (k & Hk%list_elem_of_In & Hin%list_elem_of_In).
    by rewrite (index_rows_fst _ _ _ Hin).
  - intros [Hk Hin]. exists dt.1.
    split; by apply list_elem_of_In.
Qed.

Lemma sparse_index_doc_ids k : k ∈ sparse_index.*1 ↔ k ∈ range 1 n.
Proof.
  rewrite list_elem_of_fmap. split.
  - intros (dt & -> & Hin). by apply elem_of_sparse_index in Hin as [? _].
  - intros Hk. destruct (index_rows_nonempty k (counter_of k)) as [t Ht].
    exists (k, t). split; [done |]. by apply elem_of_sparse_index.
Qed.

(** Every document has a tuple in the index, so the first level of
    the index has [n] values. *)
Lemma num_doc_levels_sparse_index : num_doc_levels sparse_index = n.
Proof.
  unfold num_doc_levels.
  rewrite (Permutation_length (l' := range 1 n)).
  - unfold range. rewrite length_seqZ. lia.
  - apply NoDup_Permutation;
      [apply NoDup_remove_dups | apply NoDup_seqZ |].
    intros k. rewrite elem_of_remove_dups. apply sparse_index_doc_ids.
Qed.

Lemma fill_rows keys :
  map (λ dt, Row dt.1 dt.2 (counter_getitem (counter_of dt.1) dt.2))
      (flat_map (λ k, index_rows k (counter_of k)) keys)
  = flat_map (λ k, doc_rows k (counter_of k)) keys.
Proof.
  induction keys as [|k ks IH]; [done |].
  simpl. rewrite map_app, IH. f_equal.
  unfold index_rows, doc_rows. rewrite map_app. f_equal.
  - case_decide as Hc; [| done]. simpl.
    destruct (counter_of k); [done | done].
  - rewrite map_map. apply map_ext_in. intros kv Hin%list_elem_of_In.
    simpl. f_equal. apply counter_getitem_entry; [| done].
    apply counter_of_NoDup.
Qed.

(** The index and the filling loops together give the rows of the
    documents 1 to [n], document after document. *)
Lemma fill_sparse_index :
  fill_loop largecounter sparse_index (range 1 (num_doc_levels sparse_index))
            (map (λ dt, Row dt.1 dt.2 0) sparse_index)
  = Ok (bow_of largecounter n).
Proof.
  rewrite num_doc_levels_sparse_index.
  rewrite fill_loop_present by done. f_equal.
  rewrite map_map. unfold bow_of. fold counter_of.
  rewrite <- fill_rows. fold sparse_index.
  apply map_ext_in. intros dt Hin%list_elem_of_In. simpl.
  rewrite decide_True; [done |].
  split.
  - by apply elem_of_sparse_index in Hin as [? _].
  - apply elem_of_group_token_ids. by destruct dt.
Qed.

End FromLargeCounter.

End BowFacts.

(** ** The frequency filters *)

Module FilterFacts.
Import Py PyFacts Bow Filter.

(** The counts of token id [i], summed over all rows of the table. *)
Definition token_total (tbl : table) (i : Z) : Z :=
  foldr (λ r acc, (if decide (token_id r = i) then count r else 0) + acc)
        0 tbl.

Lemma token_total_app tbl1 tbl2 i :
  token_total (tbl1 ++ tbl2) i = token_total tbl1 i + token_total tbl2 i.
Proof.
  induction tbl1 as [|r tbl1 IH]; simpl; [lia |]. rewrite IH. lia.
Qed.

Lemma token_total_absent tbl i :
  i ∉ map token_id tbl → token_total tbl i = 0.
Proof.
  induction tbl as [|r tbl IH]; simpl; [done |].
  intros [Hne Hnot]%not_elem_of_cons.
  rewrite decide_False by done. rewrite IH by done. lia.
Qed.

Lemma add_sorted_keys k v acc j :
  j ∈ (add_sorted k v acc).*1 ↔ j = k ∨ j ∈ acc.*1.
Proof.
  induction acc as [|[k' v'] acc IH]; csimpl.
  - rewrite list_elem_of_singleton, elem_of_nil. naive_solver.
  - destruct (k <? k') eqn:Hlt; csimpl.
    { rewrite !elem_of_cons. naive_solver. }
    destruct (k =? k') eqn:Heq; csimpl.
    { apply Z.eqb_eq in Heq as ->. rewrite !elem_of_cons. naive_solver. }
    rewrite !elem_of_cons, IH. naive_solver.
Qed.

Lemma add_sorted_sorted k v acc :
  StronglySorted Z.lt acc.*1 → StronglySorted Z.lt (add_sorted k v acc).*1.
Proof.
  induction acc as [|[k' v'] acc IH]; csimpl; intros Hs.
  - repeat constructor.
  - apply StronglySorted_cons in Hs as [Hall Hs].
    destruct (k <? k') eqn:Hlt; csimpl.
    { apply Z.ltb_lt in Hlt. apply StronglySorted_cons. split.
      - constructor; [done |]. eapply Forall_impl; [exact Hall |].
        simpl. intros; lia.
      - by apply StronglySorted_cons. }
    destruct (k =? k') eqn:Heq; csimpl.
    { by apply StronglySorted_cons. }
    apply Z.ltb_ge in Hlt. apply Z.eqb_neq in Heq.
    apply StronglySorted_cons. split; [| by apply IH].
    apply Forall_forall. intros j Hj. apply add_sorted_keys in Hj as [->|Hj].
    + lia.
    + by eapply Forall_forall in Hall.
Qed.

Lemma dict_get_below (acc : list (Z * Z)) k :
  Forall (Z.lt k) acc.*1 → dict_get k acc = None.
Proof.
  intros Hall. apply dict_get_None. intros Hin.
  eapply Forall_forall in Hall; [| exact Hin]. lia.
Qed.

(** Adding a row to the sorted groups adds its count to its group. *)
Lemma add_sorted_get k v acc j :
  StronglySorted Z.lt acc.*1 →
  dict_get j (add_sorted k v acc)
  = if decide (j = k) then Some (default 0 (dict_get k acc) + v)
    else dict_get j acc.
Proof.
  induction acc as [|[k' v'] acc IH]; csimpl; intros Hs.
  - case_decide; [by subst | done].
  - apply StronglySorted_cons in Hs as [Hall Hs].
    destruct (k <? k') eqn:Hlt; csimpl.
    { apply Z.ltb_lt in Hlt.
      destruct (decide (j = k)) as [->|Hne]; [| done].
      rewrite (decide_False (P := k = k')) by lia.
      rewrite dict_get_below; [done |].
      eapply Forall_impl; [exact Hall |]. simpl. intros; lia. }
    destruct (k =? k') eqn:Heq; csimpl.
    { apply Z.eqb_eq in Heq as ->. rewrite (decide_True (P := k' = k')) by done.
      simpl. destruct (decide (j = k')); done. }
    apply Z.ltb_ge in Hlt. apply Z.eqb_neq in Heq.
    rewrite (decide_False (P := k = k')) by done.
    rewrite IH by done.
    destruct (decide (j = k')) as [->|Hne]; [| done].
    by rewrite decide_False by done.
Qed.

Lemma collapse_loop tbl acc i :
  StronglySorted Z.lt acc.*1 →
  let res := foldl (λ acc r, add_sorted (token_id r) (count r) acc) acc tbl in
  StronglySorted Z.lt res.*1
  ∧ dict_get i res
    = if decide (i ∈ acc.*1 ∨ i ∈ map token_id tbl)
      then Some (default 0 (dict_get i acc) + token_total tbl i)
      else None.
Proof.
  revert acc. induction tbl as [|r tbl IH]; intros acc Hs; simpl.
  - split; [done |]. case_decide as Hc.
    + destruct Hc as [Hc|Hc]; [| by apply elem_of_nil in Hc].
      destruct (dict_get i acc) eqn:Hi; simpl; [f_equal; lia |].
      by apply dict_get_None in Hi.
    + apply dict_get_None. naive_solver.
  - destruct (IH (add_sorted (token_id r) (count r) acc)) as [Hs' Hget];
      [by apply add_sorted_sorted |].
    split; [done |]. rewrite Hget. clear Hget IH.
    rewrite add_sorted_get by done.
    assert ((i ∈ (add_sorted (token_id r) (count r) acc).*1
             ∨ i ∈ map token_id tbl)
            ↔ (i ∈ acc.*1 ∨ i ∈ token_id r :: map token_id tbl)) as Hiff.
    { rewrite add_sorted_keys, elem_of_cons. naive_solver. }
    destruct (decide (i ∈ acc.*1 ∨ i ∈ token_id r :: map token_id tbl));
      [rewrite decide_True by (by apply Hiff)
      | rewrite decide_False by (by rewrite Hiff)]; [| done].
    f_equal. destruct (decide (i = token_id r)) as [->|Hne].
    + rewrite decide_True by done. simpl. lia.
    + rewrite (decide_False (P := token_id r = i)) by done. lia.
Qed.

(** [collapse] has one group per token id of the table, in increasing
    order, with the total of that id. *)
Lemma collapse_sorted tbl : StronglySorted Z.lt (collapse tbl).*1.
Proof. apply (collapse_loop tbl [] 0). constructor. Qed.

Lemma collapse_get tbl i :
  dict_get i (collapse tbl)
  = if decide (i ∈ map token_id tbl) then Some (token_total tbl i) else None.
Proof.
  destruct (collapse_loop tbl [] i) as [_ Hget]; [constructor |].
  unfold collapse. rewrite Hget. simpl.
  destruct (decide (i ∈ map token_id tbl)).
  - rewrite decide_True by (by right). f_equal; lia.
  - rewrite decide_False; [done |]. intros [?%elem_of_nil|?]; done.
Qed.

Lemma StronglySorted_lt_NoDup (l : list Z) : StronglySorted Z.lt l → NoDup l.
Proof.
  induction l as [|x l IH]; intros Hs; [apply NoDup_nil_2 |].
  apply StronglySorted_cons in Hs as [Hall Hs].
  apply NoDup_cons. split; [| by apply IH].
  intros Hin. eapply Forall_forall in Hall; [| exact Hin]. lia.
Qed.

Lemma token_total_nonzero tbl i :
  token_total tbl i ≠ 0 → ∃ r, r ∈ tbl ∧ token_id r = i ∧ count r ≠ 0.
Proof.
  induction tbl as [|r tbl IH]; simpl; [done |].
  intros Hne. destruct (decide (token_id r = i)) as [Hi|Hi].
  - destruct (decide (count r = 0)) as [Hc|Hc].
    + destruct IH as (r' & ? & ? & ?); [lia |].
      exists r'. split_and!; [apply elem_of_cons; by right | done | done].
    + exists r. split_and!; [apply elem_of_cons; by left | done | done].
  - destruct IH as (r' & ? & ? & ?); [lia |].
    exists r'. split_and!; [apply elem_of_cons; by right | done | done].
Qed.

(** The groups of [collapse] whose total is 1. *)
Lemma elem_of_hapax_ids tbl i :
  i ∈ map fst (filter (λ kv, kv.2 = 1) (collapse tbl))
  ↔ i ∈ map token_id tbl ∧ token_total tbl i = 1.
Proof.
  pose proof (StronglySorted_lt_NoDup _ (collapse_sorted tbl)) as Hnd.
  pose proof (collapse_get tbl i) as Hget.
  rewrite list_elem_of_fmap. split.
  - intros ([k v] & -> & [Hv Hin]%list_elem_of_filter). simpl in *. subst v.
    rewrite (dict_get_NoDup k 1) in Hget by done.
    case_decide; by simplify_eq.
  - intros [Hin Htot]. rewrite decide_True, Htot in Hget by done.
    exists (i, 1). split; [done |]. apply list_elem_of_filter.
    split; [done |]. by apply dict_get_Some.
Qed.

Definition injective (id_types : gmap string Z) : Prop :=
  ∀ t1 t2 i, id_types !! t1 = Some i → id_types !! t2 = Some i → t1 = t2.

(** For a one-to-one dictionary, [invert] is its inverse. *)
Lemma invert_lookup id_types i t :
  injective id_types →
  invert id_types !! i = Some t ↔ id_types !! t = Some i.
Proof.
  intros Hinj. unfold invert.
  rewrite DictionaryFacts.foldl_insert_lookup, elem_of_map_to_list; [done |].
  apply NoDup_fmap_2_strong; [| apply NoDup_map_to_list].
  intros [t1 i1] [t2 i2] H1%elem_of_map_to_list H2%elem_of_map_to_list.
  simpl. intros <-. f_equal. by eapply Hinj.
Qed.

Lemma lookup_all_present (type2id : gmap Z string) keys :
  (∀ k, k ∈ keys → is_Some (type2id !! k)) →
  lookup_all type2id keys
  = Ok (map (λ k, default "" (type2id !! k)) keys).
Proof.
  induction keys as [|k ks IH]; intros Hkeys; [done |].
  simpl. unfold getitem.
  destruct (Hkeys k) as [w Hw]; [apply elem_of_cons; by left |].
  rewrite Hw. simpl. rewrite IH; [done |].
  intros k' Hk'. apply Hkeys, elem_of_cons. by right.
Qed.

(** [find_hapax] on a one-to-one dictionary that has a token for every
    token id with a count in the table: it returns the tokens whose
    total is 1, each once. *)
Lemma find_hapax_spec tbl id_types :
  injective id_types →
  (∀ r, r ∈ tbl → count r ≠ 0 → ∃ t, id_types !! t = Some (token_id r)) →
  ∃ hapax,
    find_hapax tbl id_types = Ok hapax
    ∧ NoDup hapax
    ∧ ∀ t, t ∈ hapax ↔ ∃ i, id_types !! t = Some i ∧ token_total tbl i = 1.
Proof.
  intros Hinj Hcov. unfold find_hapax.
  set (keys := map fst (filter (λ kv, kv.2 = 1) (collapse tbl))).
  assert (∀ k, k ∈ keys → ∃ t, id_types !! t = Some k) as Hkeys.
  { intros k [Hin Htot]%elem_of_hapax_ids.
    destruct (token_total_nonzero tbl k) as (r & Hr & <- & Hc); [lia |].
    by apply Hcov. }
  rewrite lookup_all_present.
  2:{ intros k [t Ht]%Hkeys. exists t. by apply invert_lookup. }
  eexists. split; [done |]. split.
  - apply NoDup_fmap_2_strong.
    + intros k1 k2 [t1 H1]%Hkeys [t2 H2]%Hkeys.
      apply invert_lookup in H1, H2; try done. rewrite H1, H2. simpl.
      intros ->. apply invert_lookup in H1, H2; try done. congruence.
    + apply (NoDup_fmap_1 (λ k, (k, 1))).
      assert (∀ l : list (Z * Z), (∀ kv, kv ∈ l → kv.2 = 1) →
                (λ k, (k, 1)) <$> map fst l = l) as Hl.
      { induction l as [|[k v] l IH]; intros Hall; [done |]. csimpl.
        rewrite IH.
        - f_equal. f_equal. symmetry. apply (Hall (k, v)), elem_of_cons.
          by left.
        - intros kv Hkv. apply Hall, elem_of_cons. by right. }
      unfold keys. rewrite Hl.
      * apply NoDup_filter. apply (NoDup_fmap_1 fst).
        apply StronglySorted_lt_NoDup, collapse_sorted.
      * by intros kv [? _]%list_elem_of_filter.
  - intros t. rewrite list_elem_of_fmap. split.
    + intros (k & -> & Hk). destruct (Hkeys k Hk) as [t Ht].
      exists k. apply elem_of_hapax_ids in Hk as [_ Htot].
      split; [| done]. apply invert_lookup in Ht as Hi; [| done].
      by rewrite Hi.
    + intros (i & Ht & Htot). exists i.
      split.
      * apply invert_lookup in Ht; [| done]. by rewrite Ht.
      * apply elem_of_hapax_ids. split; [| done].
        destruct (decide (i ∈ map token_id tbl)) as [|Hnot]; [done |].
        apply token_total_absent in Hnot. lia.
Qed.

Lemma ids_of_present id_types words :
  (∀ w, w ∈ words → is_Some (id_types !! w)) →
  ids_of id_types words = Ok (map (λ w, default 0 (id_types !! w)) words).
Proof.
  induction words as [|w ws IH]; intros Hws; [done |].
  simpl. unfold getitem.
  destruct (Hws w) as [i Hi]; [apply elem_of_cons; by left |].
  rewrite Hi. simpl. rewrite IH; [done |].
  intros w' Hw'. apply Hws, elem_of_cons. by right.
Qed.

(** The words of the dictionary that are features. *)
Definition stoplist_applied (id_types : gmap string Z) (features : list string)
    : list string :=
  filter (λ word, word ∈ (list_to_set features : gset string))
         (elements (dom id_types)).

Lemma elem_of_stoplist_applied id_types features w :
  w ∈ stoplist_applied id_types features
  ↔ w ∈ features ∧ is_Some (id_types !! w).
Proof.
  unfold stoplist_applied.
  rewrite list_elem_of_filter, elem_of_list_to_set, elem_of_elements, elem_of_dom.
  done.
Qed.

(** The labels handed to [drop] are the token ids of the features that
    the dictionary knows. *)
Lemma elem_of_labels id_types features i :
  i ∈ map (λ w, default 0 (id_types !! w)) (stoplist_applied id_types features)
  ↔ Exists (λ w, id_types !! w = Some i) features.
Proof.
  rewrite list_elem_of_fmap, Exists_exists. split.
  - intros (w & -> & [Hw [j Hj]]%elem_of_stoplist_applied).
    exists w. rewrite Hj. done.
  - intros (w & Hw & Hi). exists w. rewrite Hi. split; [done |].
    apply elem_of_stoplist_applied. by rewrite Hi.
Qed.

(** [remove_features] raises nothing and leaves out the rows, and only
    the rows, whose token id the dictionary gives to a feature. *)
Lemma remove_features_spec tbl id_types features :
  remove_features tbl id_types features
  = Ok (filter (λ r, ¬ Exists (λ w, id_types !! w = Some (token_id r)) features)
               tbl).
Proof.
  unfold remove_features. fold (stoplist_applied id_types features).
  rewrite ids_of_present.
  2:{ by intros w [_ ?]%elem_of_stoplist_applied. }
  simpl. f_equal. unfold drop_token_ids. apply list_filter_iff. intros r.
  by rewrite elem_of_labels.
Qed.

(** A feature that is not in the dictionary is passed over. *)
Lemma remove_features_unknown tbl id_types w features :
  id_types !! w = None →
  remove_features tbl id_types (w :: features)
  = remove_features tbl id_types features.
Proof.
  intros Hw. rewrite !remove_features_spec. f_equal.
  apply list_filter_iff. intros r. rewrite Exists_cons.
  split; [naive_solver |]. intros Hn [Hc|Hc]; [congruence | done].
Qed.

(** So is a feature whose token id is in no row of the table. *)
Lemma remove_features_no_row tbl id_types w i features :
  id_types !! w = Some i → i ∉ map token_id tbl →
  remove_features tbl id_types (w :: features)
  = remove_features tbl id_types features.
Proof.
  intros Hw Hi. rewrite !remove_features_spec. apply (f_equal Ok).
  apply filter_iff_in. intros r Hr. rewrite Exists_cons.
  split; [naive_solver |]. intros Hn [Hc|Hc]; [| done].
  apply Hi, list_elem_of_fmap. exists r. split; [congruence | done].
Qed.

Lemma remove_features_nil tbl id_types :
  remove_features tbl id_types [] = Ok tbl.
Proof.
  rewrite remove_features_spec. apply (f_equal Ok).
  rewrite (filter_iff_in _ (λ _, True)).
  - induction tbl as [|r tbl IH]; [done |].
    rewrite (filter_cons_True (λ _, True)) by done. by rewrite IH.
  - intros r _. split; [done |]. by intros _ ?%Exists_nil.
Qed.

(** Removing the same features once more changes nothing. *)
Lemma remove_features_twice tbl tbl' id_types features :
  remove_features tbl id_types features = Ok tbl' →
  remove_features tbl' id_types features = Ok tbl'.
Proof.
  rewrite !remove_features_spec. intros Heq. simplify_eq.
  apply (f_equal Ok). rewrite list_filter_filter. apply list_filter_iff.
  naive_solver.
Qed.

(** The table, the dictionary and the features of the docstrings. *)
Definition example_types : gmap string Z :=
  <["short" := 1]> (<["example" := 2]> (<["text" := 3]> ∅)).

Definition example_docs : gmap string Z := <["exampletext" := 1]> ∅.

Definition example_bow : table :=
  [Row 1 1 1; Row 1 2 2; Row 1 3 2].

Lemma example_bow_created :
  create_sparse_bow ["exampletext"]
    [["short"; "example"; "example"; "text"; "text"]]
    example_types example_docs
  = Ok example_bow.
Proof. vm_compute. reflexivity. Qed.

(** C6. [remove_features] drops exactly the rows whose token id the type
    dictionary gives to one of the features, and keeps the other rows in
    their order; a feature that is not in the type dictionary is passed
    over without an error, so that removing it alone returns the table,
    with its row count, unchanged.  Removing the feature "short" from the
    three-row table of the docstring leaves exactly two rows, removing an
    unknown feature leaves three. *)
Theorem remove_features_drops_known_skips_unknown :
  (∀ (tbl : table) id_types features,
      remove_features tbl id_types features
      = Ok (filter (λ r, ¬ Exists (λ w, id_types !! w = Some (token_id r))
                            features) tbl))
  ∧ (∀ (tbl : table) id_types w features,
      id_types !! w = None →
      remove_features tbl id_types (w :: features)
      = remove_features tbl id_types features)
  ∧ (∀ (tbl : table) id_types w,
      id_types !! w = None → remove_features tbl id_types [w] = Ok tbl)
  ∧ remove_features example_bow example_types ["short"]
    = Ok [Row 1 2 2; Row 1 3 2]
  ∧ remove_features example_bow example_types ["unknown"] = Ok example_bow.
Proof.
  split_and!.
  - apply remove_features_spec.
  - apply remove_features_unknown.
  - intros tbl id_types w Hw.
    by rewrite remove_features_unknown, remove_features_nil.
  - vm_compute. reflexivity.
  - vm_compute. reflexivity.
Qed.

Lemma remove_features_drops_known_skips_unknown_witness :
  example_types !! "unknown" = None
  ∧ remove_features example_bow example_types ["unknown"; "short"]
    = remove_features example_bow example_types ["short"]
  ∧ remove_features example_bow example_types ["unknown"] = Ok example_bow.
Proof.
  destruct remove_features_drops_known_skips_unknown
    as (_ & Hskip & Halone & _).
  split_and!.
  - reflexivity.
  - apply Hskip. reflexivity.
  - apply Halone. reflexivity.
Defined.

(** C10, as the code has it.  [remove_features] raises no error on any
    table, dictionary and features; a feature of the dictionary whose
    token id is in no row of the table is passed over like a feature
    that is not in the dictionary, and removing the same features a
    second time returns the table of the first removal. *)
Theorem remove_features_total (tbl : table) id_types features :
  (∃ tbl', remove_features tbl id_types features = Ok tbl')
  ∧ (∀ w i, id_types !! w = Some i → i ∉ map token_id tbl →
       remove_features tbl id_types (w :: features)
       = remove_features tbl id_types features)
  ∧ (∀ tbl', remove_features tbl id_types features = Ok tbl' →
       remove_features tbl' id_types features = Ok tbl').
Proof.
  split_and!.
  - rewrite remove_features_spec. by eexists.
  - intros w i. apply remove_features_no_row.
  - intros tbl'. apply remove_features_twice.
Qed.

Lemma remove_features_total_witness :
  example_types !! "short" = Some 1
  ∧ (1 ∉ map token_id [Row 1 2 2; Row 1 3 2])
  ∧ remove_features [Row 1 2 2; Row 1 3 2] example_types ["short"]
    = Ok [Row 1 2 2; Row 1 3 2].
Proof.
  destruct (remove_features_total [Row 1 2 2; Row 1 3 2] example_types [])
    as (_ & Hskip & _).
  assert (1 ∉ map token_id [Row 1 2 2; Row 1 3 2]) as Hnot.
  { intros Hin. cbn in Hin. set_solver. }
  split_and!; [reflexivity | exact Hnot |].
  rewrite (Hskip "short" 1); [apply remove_features_nil | reflexivity | exact Hnot].
Defined.

(** C10, as stated, does not hold: no call of [remove_features] ends in
    an error, and removing "short" from the table of the docstring a
    second time, when no row has its token id any more, returns the
    table. *)
Lemma remove_features_raises_nothing :
  (¬ ∃ (tbl : table) id_types features e,
       remove_features tbl id_types features = Raise e)
  ∧ (∃ tbl',
       remove_features example_bow example_types ["short"] = Ok tbl'
       ∧ (1 ∉ map token_id tbl')
       ∧ remove_features tbl' example_types ["short"] = Ok tbl').
Proof.
  split.
  - intros (tbl & id_types & features & e & Hr).
    by rewrite remove_features_spec in Hr.
  - exists [Row 1 2 2; Row 1 3 2]. split_and!.
    + vm_compute. reflexivity.
    + intros Hin. cbn in Hin. set_solver.
    + vm_compute. reflexivity.
Qed.

End FilterFacts.

(** ** From the corpus to the table and its totals *)

Module CorpusFacts.
Import Py PyFacts Bow BowFacts Filter FilterFacts.

Definition sumZ (l : list Z) : Z := foldr Z.add 0 l.

Lemma sumZ_app l1 l2 : sumZ (l1 ++ l2) = sumZ l1 + sumZ l2.
Proof. induction l1 as [|x l1 IH]; simpl; [done |]. rewrite IH. lia. Qed.

Lemma sumZ_perm l1 l2 : l1 ≡ₚ l2 → sumZ l1 = sumZ l2.
Proof. induction 1; simpl; lia. Qed.

Lemma token_total_flat_map {A} (f : A → table) keys i :
  token_total (flat_map f keys) i
  = sumZ (map (λ k, token_total (f k) i) keys).
Proof.
  induction keys as [|k ks IH]; [done |].
  simpl. by rewrite token_total_app, IH.
Qed.

Lemma token_total_counter_rows_absent k (c : counter) i :
  i ∉ c.*1 → token_total (map (λ kv, Row k kv.1 kv.2) c) i = 0.
Proof.
  induction c as [|[j v] c IH]; csimpl; [done |].
  intros [Hne Hnot]%not_elem_of_cons.
  rewrite decide_False by done. rewrite IH by done. lia.
Qed.

Lemma token_total_counter_rows k (c : counter) i :
  NoDup c.*1 →
  token_total (map (λ kv, Row k kv.1 kv.2) c) i = counter_getitem c i.
Proof.
  unfold counter_getitem. induction c as [|[j v] c IH]; csimpl; intros Hnd.
  { done. }
  apply NoDup_cons in Hnd as [Hnot Hnd].
  destruct (decide (j = i)) as [->|Hne].
  - rewrite decide_True by done. simpl.
    rewrite token_total_counter_rows_absent by done. lia.
  - rewrite decide_False by done. rewrite IH by done. lia.
Qed.

(** The rows of a document carry the counts of its counter; the
    placeholder row adds nothing. *)
Lemma token_total_doc_rows k (c : counter) i :
  NoDup c.*1 → token_total (doc_rows k c) i = counter_getitem c i.
Proof.
  intros Hnd. unfold doc_rows. rewrite token_total_app.
  rewrite token_total_counter_rows by done.
  case_decide; simpl; [| lia]. case_decide; lia.
Qed.

Lemma id_list_concat type_dictionary (doc_tokens : list (list string)) :
  id_list type_dictionary (concat doc_tokens)
  = concat (map (id_list type_dictionary) doc_tokens).
Proof.
  unfold id_list. induction doc_tokens as [|l ls IH]; [done |].
  simpl. by rewrite map_app, IH.
Qed.

Lemma occurrences_concat `{EqDecision A} (k : A) (ls : list (list A)) :
  occurrences k (concat ls) = sumZ (map (occurrences k) ls).
Proof.
  induction ls as [|l ls IH]; [done |].
  simpl. by rewrite occurrences_app, IH.
Qed.

(** Under a one-to-one dictionary a token occurs as often as its id. *)
Lemma occurrences_id_list type_dictionary tokens t i :
  injective type_dictionary →
  (∀ t', t' ∈ tokens → is_Some (type_dictionary !! t')) →
  type_dictionary !! t = Some i →
  occurrences i (id_list type_dictionary tokens) = occurrences t tokens.
Proof.
  intros Hinj Hcov Ht. unfold id_list.
  induction tokens as [|t' l IH]; [done |].
  csimpl. rewrite !occurrences_cons, IH.
  2:{ intros t'' Hin. apply Hcov, elem_of_cons. by right. }
  f_equal. destruct (Hcov t') as [i' Hi']; [apply elem_of_cons; by left |].
  rewrite Hi'. simpl. destruct (decide (t' = t)) as [->|Hne].
  - rewrite decide_True; [done | congruence].
  - rewrite decide_False; [done |]. intros ->. apply Hne. by eapply Hinj.
Qed.

(** What [create_sparse_bow] expects of its arguments: the labels are
    distinct, every label has its token list, the type dictionary knows
    every token, and the document dictionary numbers the labels from 1
    to their count, no two alike. *)
Record well_formed (doc_labels : list string)
    (doc_tokens : list (list string))
    (type_dictionary doc_dictionary : gmap string Z) : Prop := {
    labels_distinct : NoDup doc_labels;
    labels_tokens : length doc_labels = length doc_tokens;
    tokens_known :
      ∀ tokens t, tokens ∈ doc_tokens → t ∈ tokens →
                  is_Some (type_dictionary !! t);
    labels_numbered :
      ∀ label, label ∈ doc_labels →
               ∃ k, doc_dictionary !! label = Some k
                    ∧ 1 ≤ k ≤ Z.of_nat (length doc_labels);
    labels_apart :
      ∀ l1 l2 k, l1 ∈ doc_labels → l2 ∈ doc_labels →
                 doc_dictionary !! l1 = Some k →
                 doc_dictionary !! l2 = Some k → l1 = l2
  }.

(** The dictionary of counters that [create_sparse_bow] builds. *)
Definition large_counter_of (doc_labels : list string)
    (doc_tokens : list (list string))
    (type_dictionary doc_dictionary : gmap string Z) : list (Z * counter) :=
  map (λ p, (doc_key doc_dictionary p.1, Counter (id_list type_dictionary p.2)))
      (zip doc_labels doc_tokens).

Lemma map_snd_keys {A B C} (g : B → C) (l : list (A * B)) :
  (map (λ p, (p.1, g p.2)) l).*1 = l.*1.
Proof. induction l as [|p l IH]; [done |]. csimpl. by rewrite IH. Qed.

Section WellFormed.

Variables (doc_labels : list string) (doc_tokens : list (list string)).
Variables (type_dictionary doc_dictionary : gmap string Z).
Hypothesis wf :
  well_formed doc_labels doc_tokens type_dictionary doc_dictionary.

Let largecounter :=
  large_counter_of doc_labels doc_tokens type_dictionary doc_dictionary.
Let n := length doc_labels.

Lemma zip_labels : (zip doc_labels doc_tokens).*1 = doc_labels.
Proof. apply fst_zip. rewrite (labels_tokens _ _ _ _ wf). lia. Qed.

Lemma zip_tokens : (zip doc_labels doc_tokens).*2 = doc_tokens.
Proof. apply snd_zip. rewrite (labels_tokens _ _ _ _ wf). lia. Qed.

Lemma largecounter_keys_eq :
  largecounter.*1 = map (doc_key doc_dictionary) doc_labels.
Proof.
  unfold largecounter, large_counter_of. rewrite <- zip_labels at 2.
  generalize (zip doc_labels doc_tokens). intros l.
  induction l as [|p l IH]; [done |]. csimpl. by rewrite IH.
Qed.

Lemma doc_keys_NoDup : NoDup (map (doc_key doc_dictionary) doc_labels).
Proof.
  apply (NoDup_fmap_2_strong (doc_key doc_dictionary));
    [| apply (labels_distinct _ _ _ _ wf)].
  intros l1 l2 H1 H2.
  destruct (labels_numbered _ _ _ _ wf l1 H1) as (k1 & Hk1 & _).
  destruct (labels_numbered _ _ _ _ wf l2 H2) as (k2 & Hk2 & _).
  unfold doc_key. rewrite Hk1, Hk2. simpl. intros <-.
  by eapply (labels_apart _ _ _ _ wf).
Qed.

(** The document ids of the labels are exactly 1 to [n]. *)
Lemma doc_keys_range : map (doc_key doc_dictionary) doc_labels ≡ₚ range 1 n.
Proof.
  apply submseteq_length_Permutation.
  - apply NoDup_submseteq; [apply doc_keys_NoDup |].
    intros k (label & -> & Hl)%list_elem_of_fmap.
    destruct (labels_numbered _ _ _ _ wf label Hl) as (k & Hk & Hr).
    unfold doc_key. rewrite Hk. simpl. unfold range.
    apply elem_of_seqZ. fold n. lia.
  - unfold range. rewrite length_seqZ, length_map. fold n. lia.
Qed.

Lemma largecounter_length : length largecounter = n.
Proof.
  unfold largecounter, large_counter_of. rewrite length_map, length_zip.
  rewrite <- (labels_tokens _ _ _ _ wf). fold n. lia.
Qed.

Lemma largecounter_NoDup : NoDup largecounter.*1.
Proof. rewrite largecounter_keys_eq. apply doc_keys_NoDup. Qed.

Lemma largecounter_keys k :
  k ∈ range 1 n → is_Some (dict_get k largecounter).
Proof.
  intros Hk. destruct (dict_get k largecounter) eqn:Hget; [done |].
  apply dict_get_None in Hget. exfalso. apply Hget.
  by rewrite largecounter_keys_eq, doc_keys_range.
Qed.

Lemma largecounter_entry k c :
  (k, c) ∈ largecounter →
  ∃ label tokens, (label, tokens) ∈ zip doc_labels doc_tokens
                  ∧ k = doc_key doc_dictionary label
                  ∧ c = Counter (id_list type_dictionary tokens).
Proof.
  unfold largecounter, large_counter_of.
  intros ([label tokens] & Heq & Hin)%list_elem_of_fmap.
  simplify_eq. by exists label, tokens.
Qed.

Lemma largecounter_counters k c :
  dict_get k largecounter = Some c → NoDup c.*1.
Proof.
  intros Hget%dict_get_Some.
  apply largecounter_entry in Hget as (label & tokens & _ & _ & ->).
  apply Counter_NoDup.
Qed.

(** On well-formed arguments [create_sparse_bow] returns the rows of
    the documents 1 to [n], document after document. *)
Lemma create_sparse_bow_well_formed :
  create_sparse_bow doc_labels doc_tokens type_dictionary doc_dictionary
  = Ok (bow_of largecounter n).
Proof.
  unfold create_sparse_bow, _create_large_counter.
  rewrite large_counter_loop_distinct.
  2:{ simpl. rewrite zip_labels. apply (labels_distinct _ _ _ _ wf). }
  2:{ intros [label tokens] t Hp Ht. simpl in Ht.
      apply (tokens_known _ _ _ _ wf tokens); [| done].
      rewrite <- zip_tokens. apply list_elem_of_fmap. by exists (label, tokens). }
  simpl. rewrite relabel_distinct.
  2:{ rewrite (map_snd_keys (λ t, Counter (id_list type_dictionary t))).
      rewrite zip_labels. simpl. apply doc_keys_NoDup. }
  2:{ intros label.
      rewrite (map_snd_keys (λ t, Counter (id_list type_dictionary t))).
      rewrite zip_labels. intros Hl.
      destruct (labels_numbered _ _ _ _ wf label Hl) as (k & Hk & _).
      by rewrite Hk. }
  simpl. rewrite map_map. simpl.
  fold (large_counter_of doc_labels doc_tokens type_dictionary doc_dictionary).
  fold largecounter.
  rewrite (create_sparse_index_ok largecounter n
             largecounter_length largecounter_keys).
  simpl.
  apply fill_sparse_index;
    [apply largecounter_length | apply largecounter_keys
    | apply largecounter_counters].
Qed.

End WellFormed.

Lemma map_dict_get_keys {V B} (f : V → B) (dflt : V) (l : list (Z * V)) :
  NoDup l.*1 →
  map (λ k, f (default dflt (dict_get k l))) l.*1 = map (λ p, f p.2) l.
Proof.
  intros Hnd.
  assert (∀ l', (∀ p, p ∈ l' → p ∈ l) →
            map (λ k, f (default dflt (dict_get k l))) l'.*1
            = map (λ p, f p.2) l') as Hgen.
  { induction l' as [|[k v] l' IH]; intros Hsub; [done |]. csimpl.
    rewrite (dict_get_NoDup k v); [| done | apply Hsub, elem_of_cons; by left].
    simpl. f_equal. apply IH. intros p Hp. apply Hsub, elem_of_cons. by right. }
  by apply Hgen.
Qed.

Lemma map_on_snd {A B C} (g : B → C) (l : list (A * B)) :
  map (λ p, g p.2) l = map g l.*2.
Proof. induction l as [|p l IH]; [done |]. csimpl. by rewrite IH. Qed.

Section Totals.

Variables (doc_labels : list string) (doc_tokens : list (list string)).
Variables (type_dictionary doc_dictionary : gmap string Z).
Hypothesis wf :
  well_formed doc_labels doc_tokens type_dictionary doc_dictionary.

Let largecounter :=
  large_counter_of doc_labels doc_tokens type_dictionary doc_dictionary.
Let n := length doc_labels.

(** The total of a token id in the table is the number of its
    occurrences among the token ids of all documents. *)
Lemma token_total_bow i :
  token_total (bow_of largecounter n) i
  = occurrences i (id_list type_dictionary (concat doc_tokens)).
Proof.
  unfold bow_of. rewrite token_total_flat_map.
  rewrite (map_ext_in _
    (λ k, counter_getitem (default [] (dict_get k largecounter)) i)).
  2:{ intros k _. apply token_total_doc_rows.
      destruct (dict_get k largecounter) eqn:Hk; simpl.
      - by eapply (largecounter_counters doc_labels doc_tokens).
      - apply NoDup_nil_2. }
  rewrite (sumZ_perm _
    (map (λ k, counter_getitem (default [] (dict_get k largecounter)) i)
         largecounter.*1)).
  2:{ apply Permutation_map. symmetry.
      unfold largecounter.
      rewrite (largecounter_keys_eq _ _ _ _ wf).
      apply (doc_keys_range _ _ _ _ wf). }
  rewrite (map_dict_get_keys (λ c, counter_getitem c i)).
  2:{ apply (largecounter_NoDup _ _ _ _ wf). }
  unfold largecounter, large_counter_of. rewrite map_map. simpl.
  rewrite (map_ext _ (λ p, occurrences i (id_list type_dictionary p.2))).
  2:{ intros p. apply Counter_getitem. }
  rewrite id_list_concat, occurrences_concat, map_map.
  rewrite (map_on_snd (λ x, occurrences i (id_list type_dictionary x))).
  by rewrite (zip_tokens _ _ _ _ wf).
Qed.

(** A row of the table has the id of a token of the corpus, or it is a
    placeholder row. *)
Lemma bow_row_token r :
  r ∈ bow_of largecounter n →
  token_id r ∈ id_list type_dictionary (concat doc_tokens)
  ∨ (token_id r = 0 ∧ count r = 0).
Proof.
  unfold bow_of. rewrite list_elem_of_In, in_flat_map.
  intros (k & _ & Hr%list_elem_of_In). unfold doc_rows in Hr.
  apply elem_of_app in Hr as [Hr|Hr].
  - right. case_decide; [| by apply elem_of_nil in Hr].
    by apply list_elem_of_singleton in Hr as ->.
  - left. apply list_elem_of_fmap in Hr as ([j v] & -> & Hin). simpl.
    destruct (dict_get k largecounter) as [c|] eqn:Hk; simpl in Hin;
      [| by apply elem_of_nil in Hin].
    apply dict_get_Some in Hk.
    apply (largecounter_entry doc_labels doc_tokens) in Hk
      as (label & tokens & Hz & _ & ->).
    assert (j ∈ (Counter (id_list type_dictionary tokens)).*1) as Hj.
    { apply list_elem_of_fmap. by exists (j, v). }
    apply (proj1 (Counter_keys _ _)) in Hj. rewrite id_list_concat.
    apply elem_of_concat. exists (id_list type_dictionary tokens).
    split; [| done]. apply list_elem_of_fmap. exists tokens. split; [done |].
    rewrite <- (zip_tokens doc_labels doc_tokens _ _ wf).
    apply list_elem_of_fmap. by exists (label, tokens).
Qed.

End Totals.

Lemma doc_rows_doc_id k (c : counter) r : r ∈ doc_rows k c → doc_id r = k.
Proof.
  unfold doc_rows. intros [Hr|Hr]%elem_of_app.
  - case_decide; [| by apply elem_of_nil in Hr].
    by apply list_elem_of_singleton in Hr as ->.
  - by apply list_elem_of_fmap in Hr as (kv & -> & _).
Qed.

Lemma elem_of_bow_of largecounter n r :
  r ∈ bow_of largecounter n
  ↔ doc_id r ∈ range 1 n
    ∧ r ∈ doc_rows (doc_id r) (default [] (dict_get (doc_id r) largecounter)).
Proof.
  unfold bow_of. rewrite list_elem_of_In, in_flat_map. split.
  - intros (k & Hk%list_elem_of_In & Hr%list_elem_of_In).
    by rewrite (doc_rows_doc_id _ _ _ Hr).
  - intros [Hk Hr]. exists (doc_id r). split; by apply list_elem_of_In.
Qed.

Lemma doc_rows_nonempty k (c : counter) : ∃ r, r ∈ doc_rows k c.
Proof.
  unfold doc_rows. destruct c as [|[t v] c]; simpl.
  - exists (Row k 0 0). apply elem_of_cons. by left.
  - exists (Row k t v). apply elem_of_cons. by left.
Qed.

Definition abb_types : gmap string Z := <["a" := 1]> (<["b" := 2]> ∅).
Definition d1_docs : gmap string Z := <["d1" := 1]> ∅.
Definition d1_d2_docs : gmap string Z := <["d1" := 1]> (<["d2" := 2]> ∅).

Lemma abb_types_injective : injective abb_types.
Proof.
  intros t1 t2 i H1 H2. unfold abb_types in *.
  repeat (rewrite lookup_insert in H1; case_decide; simplify_eq);
    repeat (rewrite lookup_insert in H2; case_decide; simplify_eq);
    try done; by rewrite lookup_empty in *.
Qed.

Lemma d1_abb_well_formed :
  well_formed ["d1"] [["a"; "b"; "b"]] abb_types d1_docs.
Proof.
  split.
  - apply NoDup_singleton.
  - done.
  - intros tokens t ->%list_elem_of_singleton Ht.
    repeat (apply elem_of_cons in Ht as [->|Ht]; [by eexists |]).
    by apply elem_of_nil in Ht.
  - intros label ->%list_elem_of_singleton. exists 1. split; [done |].
    simpl. lia.
  - intros l1 l2 k ->%list_elem_of_singleton ->%list_elem_of_singleton. done.
Qed.

(** C1, as the code has it.  For distinct document labels with one token
    list each, a one-to-one type dictionary that knows every token and a
    document dictionary that numbers the labels from 1 to their count,
    no two alike, [create_sparse_bow] returns a table, and collapsing it
    per token id gives, for every token of the corpus, the number of its
    occurrences in the token lists; the only other group there can be is
    the one of the placeholder token id 0, with sum 0.  For the labels
    ["d1"] and the tokens [["a","b","b"]] the sums are 1 for "a" and 2
    for "b". *)
Theorem create_sparse_bow_collapse_counts :
  (∀ doc_labels doc_tokens type_dictionary doc_dictionary,
      well_formed doc_labels doc_tokens type_dictionary doc_dictionary →
      injective type_dictionary →
      ∃ tbl,
        create_sparse_bow doc_labels doc_tokens type_dictionary doc_dictionary
        = Ok tbl
        ∧ (∀ t i, type_dictionary !! t = Some i → t ∈ concat doc_tokens →
             dict_get i (collapse tbl)
             = Some (occurrences t (concat doc_tokens)))
        ∧ (∀ i v, dict_get i (collapse tbl) = Some v →
             (∃ t, t ∈ concat doc_tokens ∧ type_dictionary !! t = Some i)
             ∨ (i = 0 ∧ v = 0)))
  ∧ (∃ tbl,
       create_sparse_bow ["d1"] [["a"; "b"; "b"]] abb_types d1_docs = Ok tbl
       ∧ collapse tbl = [(1, 1); (2, 2)]).
Proof.
  split.
  - intros doc_labels doc_tokens type_dictionary doc_dictionary wf Hinj.
    rewrite (create_sparse_bow_well_formed _ _ _ _ wf).
    eexists. split; [done |].
    assert (∀ t, t ∈ concat doc_tokens → is_Some (type_dictionary !! t)) as Hcov.
    { intros t (tokens & Htokens & Ht)%elem_of_concat.
      by eapply (tokens_known _ _ _ _ wf). }
    split.
    + intros t i Ht Hin. rewrite collapse_get.
      rewrite (token_total_bow _ _ _ _ wf).
      rewrite (occurrences_id_list _ _ t) by done.
      rewrite decide_True; [done |].
      destruct (decide (i ∈ map token_id
        (bow_of (large_counter_of doc_labels doc_tokens type_dictionary
                   doc_dictionary) (length doc_labels)))) as [|Hnot]; [done |].
      apply token_total_absent in Hnot.
      rewrite (token_total_bow _ _ _ _ wf) in Hnot.
      rewrite (occurrences_id_list _ _ t) in Hnot by done.
      apply occurrences_pos in Hin. lia.
    + intros i v. rewrite collapse_get, (token_total_bow _ _ _ _ wf).
      case_decide as Hi; [| done]. intros Hv. simplify_eq.
      destruct (decide (i ∈ id_list type_dictionary (concat doc_tokens)))
        as [Hin|Hnot].
      * left. apply list_elem_of_fmap in Hin as (t & -> & Ht).
        exists t. split; [done |]. destruct (Hcov t Ht) as [j Hj].
        by rewrite Hj.
      * right. apply list_elem_of_fmap in Hi as (r & -> & Hr).
        apply (bow_row_token _ _ _ _ wf) in Hr as [Hin|[H0 _]]; [done |].
        split; [done |].
        assert (0 <= occurrences (token_id r)
                       (id_list type_dictionary (concat doc_tokens)))
          by (unfold occurrences; lia).
        pose proof (occurrences_pos (token_id r)
                      (id_list type_dictionary (concat doc_tokens))) as Hpos.
        destruct (decide (0 < occurrences (token_id r)
                     (id_list type_dictionary (concat doc_tokens))))
          as [Hlt|Hge]; [by apply Hpos in Hlt | lia].
  - eexists. split; vm_compute; reflexivity.
Qed.

Lemma create_sparse_bow_collapse_counts_witness :
  well_formed ["d1"] [["a"; "b"; "b"]] abb_types d1_docs
  ∧ injective abb_types
  ∧ ∃ tbl,
      create_sparse_bow ["d1"] [["a"; "b"; "b"]] abb_types d1_docs = Ok tbl
      ∧ dict_get 1 (collapse tbl)
        = Some (occurrences "a" (concat [["a"; "b"; "b"]]))
      ∧ dict_get 2 (collapse tbl)
        = Some (occurrences "b" (concat [["a"; "b"; "b"]])).
Proof.
  split; [apply d1_abb_well_formed |].
  split; [apply abb_types_injective |].
  destruct create_sparse_bow_collapse_counts as [Hall _].
  destruct (Hall _ _ _ _ d1_abb_well_formed abb_types_injective)
    as (tbl & Htbl & Hcount & _).
  exists tbl. split; [exact Htbl |]. split.
  - apply Hcount; [reflexivity |]. simpl. apply elem_of_cons. by left.
  - apply Hcount; [reflexivity |]. simpl. apply elem_of_cons. right.
    apply elem_of_cons. by left.
Defined.

(** C1, as stated, does not hold: with the label "d1" given twice the
    second document overwrites the counter of the first, and "a", which
    occurs once in the token lists, has no count in the table. *)
Lemma create_sparse_bow_repeated_label_loses_counts :
  create_sparse_bow ["d1"; "d1"] [["a"]; ["b"]] abb_types d1_docs
  = Ok [Row 1 2 1]
  ∧ abb_types !! "a" = Some 1
  ∧ dict_get 1 (collapse [Row 1 2 1]) = None
  ∧ occurrences "a" (concat [["a"]; ["b"]]) = 1.
Proof. split_and!; vm_compute; reflexivity. Qed.

Lemma d1_d2_well_formed :
  well_formed ["d1"; "d2"] [["a"]; ["b"]] abb_types d1_d2_docs.
Proof.
  split.
  - apply NoDup_cons. split; [| apply NoDup_singleton].
    by intros ?%list_elem_of_singleton.
  - done.
  - intros tokens t Htokens Ht.
    repeat (apply elem_of_cons in Htokens as [->|Htokens];
            [apply list_elem_of_singleton in Ht as ->; by eexists |]).
    by apply elem_of_nil in Htokens.
  - intros label Hl.
    apply elem_of_cons in Hl as [->|Hl]; [exists 1; split; [done | simpl; lia] |].
    apply list_elem_of_singleton in Hl as ->.
    exists 2. split; [done | simpl; lia].
  - intros l1 l2 k H1 H2 Ha Hb.
    apply elem_of_cons in H1 as [->|H1];
      [| apply list_elem_of_singleton in H1 as ->];
      (apply elem_of_cons in H2 as [->|H2];
       [| apply list_elem_of_singleton in H2 as ->]);
      try done; vm_compute in Ha, Hb; congruence.
Qed.

(** C2, as the code has it.  On well-formed arguments the table that
    [create_sparse_bow] returns has at least one row for each of the
    document ids 1 to n, and a document without tokens has the
    placeholder row with token id 0 and count 0 and no other row.
    [remove_features] only leaves rows out, keeping the others in their
    order: it adds no placeholder row. *)
Theorem create_sparse_bow_row_per_document
    doc_labels doc_tokens type_dictionary doc_dictionary :
  well_formed doc_labels doc_tokens type_dictionary doc_dictionary →
  ∃ tbl,
    create_sparse_bow doc_labels doc_tokens type_dictionary doc_dictionary
    = Ok tbl
    ∧ (∀ k, 1 ≤ k ≤ Z.of_nat (length doc_labels) →
         ∃ r, r ∈ tbl ∧ doc_id r = k)
    ∧ (∀ label k, (label, []) ∈ zip doc_labels doc_tokens →
         doc_dictionary !! label = Some k →
         ∀ r, r ∈ tbl ∧ doc_id r = k ↔ r = Row k 0 0)
    ∧ (∀ id_types features tbl',
         remove_features tbl id_types features = Ok tbl' →
         tbl' `sublist_of` tbl).
Proof.
  intros wf. rewrite (create_sparse_bow_well_formed _ _ _ _ wf).
  eexists. split; [done |]. split_and!.
  - intros k Hk.
    destruct (doc_rows_nonempty k
      (default [] (dict_get k (large_counter_of doc_labels doc_tokens
                                 type_dictionary doc_dictionary))))
      as [r Hr].
    exists r. pose proof (doc_rows_doc_id _ _ _ Hr) as Hd.
    split; [| done]. apply elem_of_bow_of. rewrite Hd. split; [| done].
    unfold range. apply elem_of_seqZ. lia.
  - intros label k Hz Hk r.
    assert (dict_get k (large_counter_of doc_labels doc_tokens
                          type_dictionary doc_dictionary) = Some []) as Hget.
    { apply dict_get_NoDup; [apply (largecounter_NoDup _ _ _ _ wf) |].
      unfold large_counter_of. apply list_elem_of_fmap.
      exists (label, []). split; [| done]. simpl.
      unfold doc_key. by rewrite Hk. }
    assert (k ∈ range 1 (length doc_labels)) as Hrange.
    { assert (label ∈ doc_labels) as Hl.
      { rewrite <- (zip_labels _ _ _ _ wf).
        apply list_elem_of_fmap. by exists (label, []). }
      destruct (labels_numbered _ _ _ _ wf label Hl) as (k' & Hk' & Hr).
      simplify_eq. unfold range. apply elem_of_seqZ. lia. }
    rewrite elem_of_bow_of. split.
    + intros [[_ Hr] <-]. rewrite Hget in Hr. simpl in Hr.
      unfold doc_rows in Hr. simpl in Hr.
      by apply list_elem_of_singleton in Hr.
    + intros ->. simpl. rewrite Hget. simpl. split; [| done].
      split; [done |]. unfold doc_rows. simpl. apply elem_of_cons. by left.
  - intros id_types features tbl'. rewrite remove_features_spec.
    intros Heq. simplify_eq. apply sublist_filter.
Qed.

Lemma create_sparse_bow_row_per_document_witness :
  well_formed ["d1"; "d2"] [["a"]; ["b"]] abb_types d1_d2_docs
  ∧ ∃ tbl,
      create_sparse_bow ["d1"; "d2"] [["a"]; ["b"]] abb_types d1_d2_docs = Ok tbl
      ∧ (∃ r, r ∈ tbl ∧ doc_id r = 1)
      ∧ (∃ r, r ∈ tbl ∧ doc_id r = 2).
Proof.
  split; [apply d1_d2_well_formed |].
  destruct (create_sparse_bow_row_per_document _ _ _ _ d1_d2_well_formed)
    as (tbl & Htbl & Hrows & _).
  exists tbl. split; [exact Htbl |].
  split; apply Hrows; simpl; lia.
Defined.

(** C2, as stated, does not hold: after [remove_features] has removed
    "a", the only token of the first document, the table has no row for
    document 1, and no placeholder row. *)
Lemma remove_features_drops_document :
  ∃ tbl tbl',
    create_sparse_bow ["d1"; "d2"] [["a"]; ["b"]] abb_types d1_d2_docs = Ok tbl
    ∧ (∃ r, r ∈ tbl ∧ doc_id r = 1)
    ∧ remove_features tbl abb_types ["a"] = Ok tbl'
    ∧ tbl' = [Row 2 2 1]
    ∧ ¬ ∃ r, r ∈ tbl' ∧ doc_id r = 1.
Proof.
  exists [Row 1 1 1; Row 2 2 1], [Row 2 2 1]. split_and!.
  - vm_compute. reflexivity.
  - exists (Row 1 1 1). split; [apply elem_of_cons; by left | done].
  - vm_compute. reflexivity.
  - reflexivity.
  - intros (r & Hr%list_elem_of_singleton & Hd). by subst r.
Qed.

(** C7. For a one-to-one type dictionary that has a token for the token
    id of every row with a count, [find_hapax] returns exactly the
    tokens whose counts, summed over all rows of the table, are 1, each
    of them once; on the table built from the tokens
    [["short","example","example","text","text"]] it returns
    ["short"]. *)
Theorem find_hapax_total_one :
  (∀ (tbl : table) id_types,
      injective id_types →
      (∀ r, r ∈ tbl → count r ≠ 0 → ∃ t, id_types !! t = Some (token_id r)) →
      ∃ hapax,
        find_hapax tbl id_types = Ok hapax
        ∧ NoDup hapax
        ∧ ∀ t, t ∈ hapax
               ↔ ∃ i, id_types !! t = Some i ∧ token_total tbl i = 1)
  ∧ (∃ tbl,
       create_sparse_bow ["exampletext"]
         [["short"; "example"; "example"; "text"; "text"]]
         example_types example_docs = Ok tbl
       ∧ find_hapax tbl example_types = Ok ["short"]).
Proof.
  split.
  - apply find_hapax_spec.
  - exists example_bow. split; vm_compute; reflexivity.
Qed.

Lemma example_types_injective : injective example_types.
Proof.
  intros t1 t2 i H1 H2. unfold example_types in *.
  repeat (rewrite lookup_insert in H1; case_decide; simplify_eq);
    repeat (rewrite lookup_insert in H2; case_decide; simplify_eq);
    try done; by rewrite lookup_empty in *.
Qed.

Lemma find_hapax_total_one_witness :
  injective example_types
  ∧ (∀ r, r ∈ example_bow → count r ≠ 0 →
          ∃ t, example_types !! t = Some (token_id r))
  ∧ ∃ hapax,
      find_hapax example_bow example_types = Ok hapax
      ∧ NoDup hapax
      ∧ ∀ t, t ∈ hapax
             ↔ ∃ i, example_types !! t = Some i
                    ∧ token_total example_bow i = 1.
Proof.
  assert (∀ r, r ∈ example_bow → count r ≠ 0 →
               ∃ t, example_types !! t = Some (token_id r)) as Hcov.
  { intros r Hr _. unfold example_bow in Hr.
    apply elem_of_cons in Hr as [->|Hr]; [by exists "short" |].
    apply elem_of_cons in Hr as [->|Hr]; [by exists "example" |].
    apply elem_of_cons in Hr as [->|Hr]; [by exists "text" |].
    by apply elem_of_nil in Hr. }
  split; [apply example_types_injective |]. split; [exact Hcov |].
  destruct find_hapax_total_one as [Hall _].
  exact (Hall example_bow example_types example_types_injective Hcov).
Defined.

End CorpusFacts.

(** ** The exporter *)

Module ExporterFacts.
Import Py Bow Exporter.

Local Open Scope string_scope.
Local Open Scope Z_scope.

Lemma string_app_assoc (s1 s2 s3 : string) :
  (s1 +:+ s2) +:+ s3 = s1 +:+ (s2 +:+ s3).
Proof.
  induction s1 as [|c s1 IH]; [done |].
  change (String c ((s1 +:+ s2) +:+ s3) = String c (s1 +:+ (s2 +:+ s3))).
  by rewrite IH.
Qed.

Lemma foldl_max_ge (l : list Z) x : x ≤ foldl Z.max x l.
Proof.
  revert x. induction l as [|y l IH]; intros x; simpl; [lia |].
  specialize (IH (x `max` y)). lia.
Qed.

Lemma foldl_max_upper (l : list Z) x y : y ∈ l → y ≤ foldl Z.max x l.
Proof.
  revert x. induction l as [|z l IH]; intros x Hy; simpl.
  { by apply elem_of_nil in Hy. }
  apply elem_of_cons in Hy as [->|Hy]; [| by apply IH].
  pose proof (foldl_max_ge l (x `max` z)). lia.
Qed.

Lemma foldl_max_elem (l : list Z) x :
  foldl Z.max x l = x ∨ foldl Z.max x l ∈ l.
Proof.
  revert x. induction l as [|z l IH]; intros x; simpl; [by left |].
  destruct (IH (x `max` z)) as [Heq|Hin].
  - rewrite Heq. destruct (Z.max_spec x z) as [[_ ->]|[_ ->]].
    + right. apply elem_of_cons. by left.
    + by left.
  - right. apply elem_of_cons. by right.
Qed.

(** [index_max] is the greatest element of a list that has one. *)
Lemma index_max_spec (l : list Z) :
  l ≠ [] →
  ∃ m, index_max l = Some m ∧ m ∈ l ∧ ∀ x, x ∈ l → x ≤ m.
Proof.
  destruct l as [|x l]; [done |]. intros _. simpl.
  exists (foldl Z.max x l). split; [done |]. split.
  - destruct (foldl_max_elem l x) as [->|Hin];
      apply elem_of_cons; [by left | by right].
  - intros y [->|Hy]%elem_of_cons;
      [apply foldl_max_ge | by apply foldl_max_upper].
Qed.

Lemma sum_counts_foldr (tbl : table) :
  sum_counts tbl = foldr (λ r acc, count r + acc) 0 tbl.
Proof.
  unfold sum_counts.
  assert (∀ a, foldl (λ acc r, acc + count r) a tbl
               = a + foldr (λ r acc, count r + acc) 0 tbl) as Hgen.
  { induction tbl as [|r tbl IH]; intros a; simpl; [lia |].
    rewrite IH. lia. }
  rewrite Hgen. lia.
Qed.

(** C9. The file written by [save_sparse_bow] is the banner line, the
    header line and the lines of the rows, one per row in the order of
    the table, each "doc_id token_id count".  In the header of a table
    with rows, numDocs and numTokenTypes are the greatest doc id and the
    greatest token id of the table and totalCount is the sum of the
    counts: for the single row (2, 5, 1) the header is "2 5 1", not the
    numbers of distinct ids.  For one document with one token counted 3
    the header is "1 1 3" and the only row line is "1 1 3". *)
Theorem save_sparse_bow_format :
  (∀ tbl : table,
      save_sparse_bow tbl
      = banner +:+ newline +:+ header_string tbl
        +:+ String.concat "" (map csv_line tbl))
  ∧ (∀ tbl : table, tbl ≠ [] →
      ∃ num_docs num_types,
        header_string tbl
        = pretty num_docs +:+ " " +:+ pretty num_types +:+ " "
          +:+ pretty (foldr (λ r acc, count r + acc) 0 tbl) +:+ newline
        ∧ num_docs ∈ map doc_id tbl ∧ (∀ d, d ∈ map doc_id tbl → d ≤ num_docs)
        ∧ num_types ∈ map token_id tbl
        ∧ (∀ t, t ∈ map token_id tbl → t ≤ num_types))
  ∧ (∀ r : row,
      csv_line r
      = pretty (doc_id r) +:+ " " +:+ pretty (token_id r) +:+ " "
        +:+ pretty (count r) +:+ newline)
  ∧ header_string [Row 2 5 1] = "2 5 1" +:+ newline
  ∧ header_string [Row 1 1 3] = "1 1 3" +:+ newline
  ∧ map csv_line [Row 1 1 3] = ["1 1 3" +:+ newline]
  ∧ save_sparse_bow [Row 1 1 3]
    = banner +:+ newline +:+ "1 1 3" +:+ newline +:+ "1 1 3" +:+ newline.
Proof.
  split_and!.
  - intros tbl. unfold save_sparse_bow, writes. cbn [String.concat].
    change ("" +:+ ?s) with s. by rewrite string_app_assoc.
  - intros tbl Hne.
    destruct (index_max_spec (map doc_id tbl)) as (md & Hmd & Hd1 & Hd2).
    { by destruct tbl. }
    destruct (index_max_spec (map token_id tbl)) as (mt & Hmt & Ht1 & Ht2).
    { by destruct tbl. }
    exists md, mt. unfold header_string.
    rewrite Hmd, Hmt, sum_counts_foldr. done.
  - done.
  - vm_compute. reflexivity.
  - vm_compute. reflexivity.
  - vm_compute. reflexivity.
  - vm_compute. reflexivity.
Qed.

Lemma save_sparse_bow_format_witness :
  [Row 1 1 3; Row 3 2 4] ≠ []
  ∧ ∃ num_docs num_types,
      header_string [Row 1 1 3; Row 3 2 4]
      = pretty num_docs +:+ " " +:+ pretty num_types +:+ " "
        +:+ pretty (foldr (λ r acc, count r + acc) 0 [Row 1 1 3; Row 3 2 4])
        +:+ newline
      ∧ num_docs ∈ map doc_id [Row 1 1 3; Row 3 2 4]
      ∧ num_types ∈ map token_id [Row 1 1 3; Row 3 2 4].
Proof.
  split; [done |].
  destruct save_sparse_bow_format as (_ & Hheader & _).
  destruct (Hheader [Row 1 1 3; Row 3 2 4]) as (md & mt & Hh & Hd & _ & Ht & _);
    [done |].
  by exists md, mt.
Defined.

End ExporterFacts.

(** ** The tokenizer *)

Module TokenizerFacts.
Import Tokenizer.

(** What a pattern matches, without the order of the attempts. *)
Inductive Matches : regex → text → Prop :=
  | MClass p c : p c = true → Matches (Class p) [c]
  | MSeq r1 r2 s1 s2 :
      Matches r1 s1 → Matches r2 s2 → Matches (Seq r1 r2) (s1 ++ s2)
  | MPlusOne r s : Matches r s → Matches (Plus r) s
  | MPlusMore r s1 s2 :
      Matches r s1 → Matches (Plus r) s2 → Matches (Plus r) (s1 ++ s2)
  | MOptNone r : Matches (Opt r) []
  | MOptSome r s : Matches r s → Matches (Opt r) s.

(** [m] only ever returns what is left of the text after a match of
    [r]. *)
Definition sound (r : regex) (m : text → list text) : Prop :=
  ∀ s rest, rest ∈ m s → ∃ pre, s = pre ++ rest ∧ Matches r pre.

Lemma plus_loop_sound r m n : sound r m → sound (Plus r) (plus_loop m n).
Proof.
  intros Hm. induction n as [|n IH]; intros s rest Hin; simpl in Hin;
    apply list_elem_of_In, in_flat_map in Hin as (s' & Hs' & Hrest);
    apply list_elem_of_In in Hs', Hrest;
    destruct (Hm s s' Hs') as (pre1 & -> & Hpre1).
  - apply list_elem_of_singleton in Hrest as ->.
    exists pre1. split; [done |]. by apply MPlusOne.
  - apply elem_of_app in Hrest as [Hrest|Hrest].
    + case_decide; [| by apply elem_of_nil in Hrest].
      destruct (IH s' rest Hrest) as (pre2 & -> & Hpre2).
      exists (pre1 ++ pre2). split; [by rewrite (assoc_L (++)) |].
      by apply MPlusMore.
    + apply list_elem_of_singleton in Hrest as ->.
      exists pre1. split; [done |]. by apply MPlusOne.
Qed.

(** The matcher is sound. *)
Lemma match_re_sound r : sound r (match_re r).
Proof.
  induction r as [p|r1 IH1 r2 IH2|r IH|r IH]; intros s rest Hin; simpl in Hin.
  - destruct s as [|c s]; [by apply elem_of_nil in Hin |].
    destruct (p c) eqn:Hp; [| by apply elem_of_nil in Hin].
    apply list_elem_of_singleton in Hin as ->.
    exists [c]. split; [done |]. by apply MClass.
  - apply list_elem_of_In, in_flat_map in Hin as (s' & Hs' & Hrest).
    apply list_elem_of_In in Hs', Hrest.
    destruct (IH1 s s' Hs') as (pre1 & -> & Hpre1).
    destruct (IH2 s' rest Hrest) as (pre2 & -> & Hpre2).
    exists (pre1 ++ pre2). split; [by rewrite (assoc_L (++)) |].
    by apply MSeq.
  - by apply (plus_loop_sound r (match_re r) (length s)).
  - apply elem_of_app in Hin as [Hin|Hin].
    + destruct (IH s rest Hin) as (pre & -> & Hpre).
      exists pre. split; [done |]. by apply MOptSome.
    + apply list_elem_of_singleton in Hin as ->.
      exists []. split; [done |]. apply MOptNone.
Qed.

Lemma take_prefix {A} (pre rest : list A) :
  take (length (pre ++ rest) - length rest) (pre ++ rest) = pre.
Proof.
  rewrite length_app. replace (length pre + length rest - length rest)%nat
    with (length pre) by lia.
  by rewrite take_app_length.
Qed.

(** Every token is matched by the pattern and is cut out of the text. *)
Lemma finditer_sound fuel r s tok :
  tok ∈ finditer fuel r s →
  Matches r tok ∧ ∃ before after, s = before ++ tok ++ after.
Proof.
  revert s. induction fuel as [|fuel IH]; intros s Hin; simpl in Hin.
  { by apply elem_of_nil in Hin. }
  destruct (match_re r s) as [|rest others] eqn:Hm.
  - destruct s as [|c s]; [by apply elem_of_nil in Hin |].
    destruct (IH s Hin) as (Htok & before & after & ->).
    split; [done |]. by exists (c :: before), after.
  - destruct (match_re_sound r s rest) as (pre & -> & Hpre).
    { rewrite Hm. apply elem_of_cons. by left. }
    rewrite take_prefix in Hin. destruct pre as [|c pre].
    + simpl in Hin. destruct rest as [|c rest].
      * apply list_elem_of_singleton in Hin as ->.
        split; [done |]. by exists [], [].
      * apply elem_of_cons in Hin as [->|Hin].
        -- split; [done |]. by exists [], (c :: rest).
        -- destruct (IH rest Hin) as (Htok & before & after & ->).
           split; [done |]. by exists (c :: before), after.
    + apply elem_of_cons in Hin as [->|Hin].
      * split; [done |]. by exists [], rest.
      * destruct (IH rest Hin) as (Htok & before & after & ->).
        split; [done |]. exists ((c :: pre) ++ before), after.
        by rewrite <- !(assoc_L (++)).
Qed.

Lemma Matches_plus_class p s :
  Matches (Plus (Class p)) s → s ≠ [] ∧ Forall (λ c, p c = true) s.
Proof.
  intros Hm. remember (Plus (Class p)) as r eqn:Hr.
  induction Hm as [| |r s Hm _|r s1 s2 Hm1 _ Hm2 IH| |]; simplify_eq.
  - inversion Hm; subst. split; [done |]. by constructor.
  - inversion Hm1; subst. destruct IH as [_ Hall]; [done |].
    split; [done |]. by constructor.
Qed.

Section Tokenize.

Context `{Unicode}.

(** What the default pattern matches: letters, then at most one
    punctuation character, then letters. *)
Lemma Matches_regular_expression tok :
  Matches regular_expression tok →
  ∃ l1 mid l2,
    tok = l1 ++ mid ++ l2
    ∧ l1 ≠ [] ∧ Forall (λ c, is_letter c = true) l1
    ∧ (mid = [] ∨ ∃ c, mid = [c] ∧ is_punctuation c = true)
    ∧ l2 ≠ [] ∧ Forall (λ c, is_letter c = true) l2.
Proof.
  unfold regular_expression. intros Hm.
  inversion Hm as [|r1 r2 l1 s2 Hl1 Hrest| | | |]; subst.
  inversion Hrest as [|r1 r2 mid l2 Hmid Hl2| | | |]; subst.
  apply Matches_plus_class in Hl1 as [? ?], Hl2 as [? ?].
  exists l1, mid, l2. split_and!; try done.
  inversion Hmid as [| | | | |r s Hc]; subst; [by left |].
  inversion Hc; subst. right. by eexists.
Qed.

Lemma regular_expression_two_letters tok :
  Matches regular_expression tok → (2 ≤ length tok)%nat.
Proof.
  intros (l1 & mid & l2 & -> & Hl1 & _ & _ & Hl2 & _)%Matches_regular_expression.
  rewrite !length_app. destruct l1, l2; simpl; try done; lia.
Qed.

Lemma elem_of_sub_delete c x doc_txt :
  x ∈ sub_delete c doc_txt → x ∈ doc_txt.
Proof. unfold sub_delete. by intros [_ ?]%list_elem_of_filter. Qed.

Lemma elem_of_sub_space c x doc_txt :
  x ∈ sub_space c doc_txt → x = space ∨ x ∈ doc_txt.
Proof.
  unfold sub_space. intros (y & -> & Hy)%list_elem_of_fmap.
  case_decide; [by left | by right].
Qed.

Lemma elem_of_sub_dashes ds x doc_txt :
  x ∈ foldl (λ txt dash, sub_space dash txt) doc_txt ds →
  x = space ∨ x ∈ doc_txt.
Proof.
  revert doc_txt. induction ds as [|d ds IH]; intros doc_txt; simpl;
    [by right |].
  intros [->|Hx]%IH; [by left |]. by apply elem_of_sub_space in Hx.
Qed.

(** The characters of a token come from the text, or are the spaces put
    in for the dashes. *)
Lemma tokenize_chars doc_txt expression lower simple tok x :
  tok ∈ tokenize doc_txt expression lower simple → x ∈ tok →
  x = space ∨ x ∈ (if lower then lower_text doc_txt else doc_txt).
Proof.
  unfold tokenize. intros (_ & before & after & Heq)%finditer_sound Hx.
  assert (x ∈ foldl (λ txt dash, sub_space dash txt)
                (sub_delete full_stop
                   (if lower then lower_text doc_txt else doc_txt)) dashes)
    as Hin.
  { rewrite Heq, !elem_of_app. right. by left. }
  apply elem_of_sub_dashes in Hin as [->|Hin]; [by left |].
  right. by apply elem_of_sub_delete in Hin.
Qed.

Lemma tokenize_matches doc_txt expression lower simple tok :
  tok ∈ tokenize doc_txt expression lower simple →
  Matches (if simple then simple_expression else expression) tok.
Proof. unfold tokenize. by intros [? _]%finditer_sound. Qed.

Lemma lower_text_fixed tok :
  (∀ c, c ∈ tok → lower_char c = [c]) → lower_text tok = tok.
Proof.
  unfold lower_text. induction tok as [|c tok IH]; intros Hfix; [done |].
  simpl. rewrite (Hfix c) by (apply elem_of_cons; by left). simpl.
  f_equal. apply IH. intros c' Hc'. apply Hfix, elem_of_cons. by right.
Qed.

End Tokenize.

Lemma ascii_lower_fixed c c' : c' ∈ ascii_lower c → ascii_lower c' = [c'].
Proof.
  unfold ascii_lower. intros Hc%list_elem_of_singleton. subst c'.
  destruct (ascii_upper c) eqn:Hu; [| by rewrite Hu].
  unfold ascii_upper in *.
  apply andb_true_iff in Hu as [H1%N.leb_le H2%N.leb_le].
  replace ((65 <=? c + 32)%N && (c + 32 <=? 90)%N) with false; [done |].
  symmetry. apply andb_false_iff. right. apply N.leb_gt. lia.
Qed.

(** C8. With the default settings "This is one example text." is
    tokenized into "this", "is", "one", "example", "text".  Whatever the
    text and the [lower] flag, a token of the default pattern has at
    least two characters, so none is a single letter.  With [lower] set
    every token is in lower case, whatever the pattern: lowering it
    again changes nothing (given that lowering leaves lower-case
    characters, and the space, as they are). *)
Theorem tokenize_default_lowercase_no_single_letter :
  tokenize (H := ascii_unicode) (codepoints "This is one example text.")
    (regular_expression (H := ascii_unicode)) true false
  = map codepoints ["this"; "is"; "one"; "example"; "text"]
  ∧ (∀ (U : Unicode) doc_txt lower tok,
       tok ∈ tokenize doc_txt regular_expression lower false →
       (2 ≤ length tok)%nat ∧ ∀ c, tok ≠ [c])
  ∧ (∀ (U : Unicode),
       (∀ c c', c' ∈ lower_char c → lower_char c' = [c']) →
       lower_char space = [space] →
       ∀ doc_txt expression simple tok,
         tok ∈ tokenize doc_txt expression true simple →
         lower_text tok = tok).
Proof.
  split_and!.
  - vm_compute. reflexivity.
  - intros U doc_txt lower tok Htok.
    apply tokenize_matches, regular_expression_two_letters in Htok.
    split; [done |]. intros c ->. simpl in Htok. lia.
  - intros U Hfixed Hspace doc_txt expression simple tok Htok.
    apply lower_text_fixed. intros c Hc.
    destruct (tokenize_chars _ _ _ _ _ c Htok Hc) as [->|Hin]; [done |].
    unfold lower_text in Hin.
    apply list_elem_of_In, in_flat_map in Hin as (c0 & _ & Hin).
    apply list_elem_of_In in Hin. by eapply Hfixed.
Qed.

Lemma tokenize_default_lowercase_no_single_letter_witness :
  (∀ c c', c' ∈ ascii_lower c → ascii_lower c' = [c'])
  ∧ ascii_lower space = [space]
  ∧ codepoints "text"
    ∈ tokenize (H := ascii_unicode) (codepoints "This is one example text.")
        (regular_expression (H := ascii_unicode)) true false
  ∧ lower_text (H := ascii_unicode) (codepoints "text") = codepoints "text"
  ∧ (2 ≤ length (codepoints "text"))%nat.
Proof.
  assert (codepoints "text"
    ∈ tokenize (H := ascii_unicode) (codepoints "This is one example text.")
        (regular_expression (H := ascii_unicode)) true false) as Hin.
  { destruct tokenize_default_lowercase_no_single_letter as [-> _].
    simpl. do 4 (apply elem_of_cons; right). apply elem_of_cons. by left. }
  destruct tokenize_default_lowercase_no_single_letter
    as (_ & Htwo & Hlower).
  split_and!.
  - exact ascii_lower_fixed.
  - reflexivity.
  - exact Hin.
  - exact (Hlower ascii_unicode ascii_lower_fixed eq_refl _ _ _ _ Hin).
  - exact (proj1 (Htwo ascii_unicode _ _ _ Hin)).
Defined.

End TokenizerFacts.

(** ** More on the segmenter *)

Module SegmenterExtra.
Import Segmenter SegmenterFacts.

Lemma weight_initial {token : Type} (document : list (chunk token)) :
  weight (initial document) = (length document + length (concat document))%nat.
Proof.
  unfold weight, initial. simpl.
  induction document as [|c d IH]; [done |].
  simpl. rewrite IH, length_app. lia.
Qed.

Lemma negative_tolerance_effective (segment_size : Z) (tolerance : Q) :
  Qle_bool 0 tolerance = false →
  effective_tolerance segment_size tolerance = tolerance.
Proof.
  intros Hneg. unfold effective_tolerance, Py.Qlt_bool.
  destruct (Qle_bool tolerance 0) eqn:Hle; [done |].
  exfalso. assert (¬ (0 <= tolerance)%Q) as Hn.
  { intros H0%Qle_bool_iff. congruence. }
  apply Qnot_le_lt, Qlt_le_weak, Qle_bool_iff in Hn. congruence.
Qed.



(** X3. Whatever the segment size and the tolerance, and whether or not
    the generator ever finishes, the tokens of the segments yielded so
    far are a prefix of the tokens of the document: no token is yielded
    twice, out of order, or made up. *)
Theorem segment_fuzzy_yields_prefix {token : Type} (fuel : nat)
    (document : list (chunk token)) (segment_size : Z) (tolerance : Q) :
  tokens_of (segment_fuzzy_prefix fuel document segment_size tolerance).1
  `prefix_of` concat document.
Proof.
  unfold segment_fuzzy_prefix.
  set (tol := effective_tolerance segment_size tolerance).
  assert (∀ st : state token,
            tokens_of (run fuel segment_size tol st).1 `prefix_of` pending st)
    as Hrun.
  { induction fuel as [|fuel IH]; intros st; [by eexists |].
    simpl. destruct (step segment_size tol st) as [seg st'|st'|[seg|]] eqn:Hs.
    - specialize (IH st'). destruct (run fuel segment_size tol st') as [segs fin].
      simpl in *. rewrite (step_yielded _ _ _ _ _ Hs).
      unfold tokens_of in *. simpl. rewrite concat_app.
      by apply prefix_app.
    - rewrite (step_silent _ _ _ _ Hs). apply IH.
    - rewrite (step_exhausted _ _ _ _ Hs). simpl. unfold tokens_of. simpl.
      by rewrite !app_nil_r.
    - by eexists. }
  specialize (Hrun (initial document)).
  unfold pending in Hrun. simpl in Hrun. done.
Qed.

(** X4. With a negative tolerance every chunk of every segment that
    [segment_fuzzy] yields is a chunk of the document as it was given:
    chunks are never split. *)
Theorem segment_fuzzy_negative_tolerance_keeps_chunks {token : Type}
    (fuel : nat) (document : list (chunk token)) (segment_size : Z)
    (tolerance : Q) seg c :
  Qle_bool 0 tolerance = false →
  seg ∈ (segment_fuzzy_prefix fuel document segment_size tolerance).1 →
  c ∈ seg → c ∈ document.
Proof. apply segment_fuzzy_negative_tolerance_whole_chunks. Qed.

Lemma segment_fuzzy_negative_tolerance_keeps_chunks_witness :
  Qle_bool 0 (-1) = false
  ∧ [["a"; "b"; "c"]]
    ∈ (segment_fuzzy_prefix 2 [["a"; "b"; "c"]; ["d"]] 2 (-1)).1
  ∧ ["a"; "b"; "c"] ∈ [["a"; "b"; "c"]]
  ∧ ["a"; "b"; "c"] ∈ [["a"; "b"; "c"]; ["d"]].
Proof.
  assert ([["a"; "b"; "c"]]
          ∈ (segment_fuzzy_prefix 2 [["a"; "b"; "c"]; ["d"]] 2 (-1)).1) as Hseg.
  { vm_compute. apply elem_of_cons. by left. }
  assert (["a"; "b"; "c"] ∈ [["a"; "b"; "c"]]) as Hc.
  { apply elem_of_cons. by left. }
  split; [reflexivity |]. split; [exact Hseg |]. split; [exact Hc |].
  exact (segment_fuzzy_negative_tolerance_keeps_chunks 2
           [["a"; "b"; "c"]; ["d"]] 2 (-1)%Q _ _ eq_refl Hseg Hc).
Defined.

(** X5. When the tolerance is negative and the first chunk of the
    document has at least twice as many tokens as the segment size,
    [segment_fuzzy] never finishes: it yields an empty segment in every
    iteration and nothing else. *)
Theorem segment_fuzzy_large_chunk_never_finishes {token : Type} (fuel : nat)
    (t : token) (c : chunk token) (rest : list (chunk token))
    (segment_size : Z) (tolerance : Q) :
  Qle_bool 0 tolerance = false →
  2 * segment_size ≤ Py.len (t :: c) →
  segment_fuzzy_prefix fuel ((t :: c) :: rest) segment_size tolerance
  = (replicate fuel [], false)
  ∧ segment_fuzzy fuel ((t :: c) :: rest) segment_size tolerance = None.
Proof.
  intros Hneg Hlen.
  assert (segment_fuzzy_prefix fuel ((t :: c) :: rest) segment_size tolerance
          = (replicate fuel [], false)) as Hrun.
  { unfold segment_fuzzy_prefix.
    rewrite negative_tolerance_effective by done.
    apply run_oversized_first; [done |]. by rewrite Hneg. }
  split; [done |]. unfold segment_fuzzy. by rewrite Hrun.
Qed.

Lemma segment_fuzzy_large_chunk_never_finishes_witness :
  Qle_bool 0 (-1) = false
  ∧ 2 * 3 ≤ Py.len ["a"; "b"; "c"; "d"; "e"; "f"]
  ∧ segment_fuzzy 50 [["a"; "b"; "c"; "d"; "e"; "f"]; ["g"]] 3 (-1) = None.
Proof.
  split; [reflexivity |]. split; [by vm_compute |].
  exact (proj2 (segment_fuzzy_large_chunk_never_finishes 50 "a"
                  ["b"; "c"; "d"; "e"; "f"] [["g"]] 3 (-1)%Q eq_refl
                  ltac:(by vm_compute))).
Defined.

(** *** Segment sizes *)

(** The number of tokens of [seg] differs from the segment size by no
    more than the tolerance. *)
Definition within {token : Type} (segment_size : Z) (tol : Q)
    (seg : segment token) : Prop :=
  (inject_Z (Z.abs (Py.len (concat seg) - segment_size)) <= tol)%Q.

(** Between two iterations [current_size] is the number of tokens of
    [current_segment], and below the segment size. *)
Definition sized {token : Type} (segment_size : Z) (st : state token) : Prop :=
  current_size st = Py.len (concat (current_segment st))
  ∧ current_size st < segment_size.

Section Sizes.

Context {token : Type}.
Variables (ss : Z) (tol : Q).
Hypothesis ss_pos : 1 ≤ ss.
Hypothesis tol_nonneg : Qle_bool 0 tol = true.

Lemma len_concat_snoc (seg : segment token) (c : chunk token) :
  Py.len (concat (seg ++ [c])) = Py.len (concat seg) + Py.len c.
Proof.
  unfold Py.len. rewrite concat_app, length_app. simpl.
  rewrite app_nil_r. lia.
Qed.

Lemma len_slice_to_end (c : chunk token) k :
  0 < k → k < Py.len c → Py.len (Py.slice_to c (- k)) = Py.len c - k.
Proof.
  intros Hk Hlen. unfold Py.slice_to, Py.bound, Py.len in *.
  rewrite length_take. rewrite (proj2 (Z.ltb_lt (- k) 0)) by lia. lia.
Qed.

Lemma not_split_bound m :
  Qle_bool 0 tol && Py.Qlt_bool tol (inject_Z m) = false →
  (inject_Z m <= tol)%Q.
Proof.
  rewrite tol_nonneg. simpl. unfold Py.Qlt_bool.
  intros Hle%negb_false_iff. by apply Qle_bool_iff.
Qed.

Lemma loop_body_within (seg : segment token) size rest (c : chunk token) :
  size = Py.len (concat seg) → size < ss →
  match loop_body ss tol seg size rest c with
  | Yielded out st' => within ss tol out ∧ sized ss st'
  | Silent st' => sized ss st'
  | Exhausted _ => False
  end.
Proof.
  intros Hsize Hlt. unfold loop_body.
  assert (0 ≤ Py.len c) by (unfold Py.len; lia).
  replace (ss - (size + Py.len c - Py.len c)) with (ss - size) by lia.
  destruct (ss <=? size + Py.len c) eqn:Hfull.
  2:{ apply Z.leb_gt in Hfull. split; simpl; [| done].
      by rewrite len_concat_snoc, Hsize. }
  apply Z.leb_le in Hfull.
  destruct (Qle_bool 0 tol
            && Py.Qlt_bool tol
                 (inject_Z ((size + Py.len c - ss) `min` (ss - size))))
    eqn:Hsplit.
  - apply andb_true_iff in Hsplit as [_ Hpos].
    apply (split_positive tol tol_nonneg) in Hpos.
    split; [| split; simpl; [done | lia]].
    unfold within. rewrite set_last_snoc, len_concat_snoc.
    rewrite len_slice_to_end by lia.
    replace (Py.len (concat seg) + (Py.len c - (size + Py.len c - ss)) - ss)
      with 0 by lia.
    by apply Qle_bool_iff.
  - apply not_split_bound in Hsplit.
    destruct (ss - size <=? size + Py.len c - ss) eqn:Hevict.
    + apply Z.leb_le in Hevict. rewrite pop_snoc.
      split; [| split; simpl; [done | lia]].
      unfold within. rewrite Z.min_r in Hsplit by done.
      replace (Z.abs (Py.len (concat seg) - ss)) with (ss - size) by lia.
      done.
    + apply Z.leb_gt in Hevict.
      split; [| split; simpl; [done | lia]].
      unfold within. rewrite Z.min_l in Hsplit by lia.
      rewrite len_concat_snoc.
      replace (Z.abs (Py.len (concat seg) + Py.len c - ss))
        with (size + Py.len c - ss) by lia.
      done.
Qed.

Lemma step_within (st : state token) :
  sized ss st →
  match step ss tol st with
  | Yielded out st' => within ss tol out ∧ sized ss st'
  | Silent st' => sized ss st'
  | Exhausted _ => True
  end.
Proof.
  intros [Hsize Hlt]. unfold step.
  destruct (next_chunk st) as [[c rest]|]; [| done].
  pose proof (loop_body_within (current_segment st) (current_size st)
                rest c Hsize Hlt) as Hb.
  by destruct (loop_body ss tol (current_segment st) (current_size st) rest c).
Qed.

(** The segments that count: all of them while the generator runs, all
    but the last once it has finished. *)
Definition full_segments (out : list (segment token) * bool)
    : list (segment token) :=
  if out.2 then removelast out.1 else out.1.

Lemma run_within fuel (st : state token) :
  sized ss st →
  Forall (within ss tol) (full_segments (run fuel ss tol st)).
Proof.
  revert st. induction fuel as [|fuel IH]; intros st Hsized; [by constructor |].
  simpl. pose proof (step_within st Hsized) as Hstep.
  destruct (step ss tol st) as [seg st'|st'|[seg|]].
  - destruct Hstep as [Hseg Hsized']. specialize (IH st' Hsized').
    destruct (run fuel ss tol st') as [segs fin].
    unfold full_segments in *. simpl in *. destruct fin.
    + destruct segs as [|s segs]; [by constructor |].
      by constructor.
    + by constructor.
  - by apply IH.
  - by constructor.
  - by constructor.
Qed.

End Sizes.



Lemma within_zero {token : Type} (segment_size : Z) (seg : segment token) :
  within segment_size 0 seg → Py.len (concat seg) = segment_size.
Proof.
  unfold within. change 0%Q with (inject_Z 0). rewrite <- Zle_Qle. lia.
Qed.

Lemma concat_map_concat {A} (l : list (list (list A))) :
  concat (map (@concat A) l) = concat (concat l).
Proof.
  induction l as [|x l IH]; [done |]. simpl. by rewrite concat_app, IH.
Qed.

(** X6. [segment] with [flatten_chunks=True], its default tolerance 0
    and a segment size of at least 1 comes to an end for every chunker
    and tokenizer; the segments it returns hold the tokens of the
    tokenized chunks, each once and in order, and every segment but the
    last has exactly [segment_size] tokens. *)
Theorem segment_flattened_exact {D C T : Type} (document : D)
    (segment_size : Z) (chunker : D → list C) (tokenizer : C → list T) :
  1 ≤ segment_size →
  let chunks := map tokenizer (chunker document) in
  ∃ segs,
    Segment.segment (R := unit) (S (length chunks + length (concat chunks)))
      document segment_size Segment.default_tolerance chunker tokenizer
      Segment.Chained = Some (Segment.Flattened segs)
    ∧ concat segs = concat chunks
    ∧ Forall (λ seg, Py.len seg = segment_size) (removelast segs).
Proof.
  intros Hss. unfold Segment.segment. cbv zeta.
  set (chunks := map tokenizer (chunker document)).
  destruct (segment_fuzzy_finishes_lossless chunks segment_size
              Segment.default_tolerance Hss eq_refl)
    as (segs & Hsegs & Htokens).
  { unfold effective_tolerance, Segment.default_tolerance, Py.Qlt_bool.
    simpl. apply negb_true_iff.
    destruct (Qle_bool (inject_Z segment_size) 0) eqn:Hle; [| done].
    apply Qle_bool_iff in Hle. change 0%Q with (inject_Z 0) in Hle.
    rewrite <- Zle_Qle in Hle. lia. }
  rewrite weight_initial in Hsegs. unfold chunk in *. rewrite Hsegs. simpl.
  exists (map (@concat T) segs). split; [done |].
  split; [by rewrite concat_map_concat |].
  pose proof (run_within segment_size 0%Q Hss eq_refl
                (S (length chunks + length (concat chunks)))
                (initial chunks)) as Hwithin.
  unfold segment_fuzzy, segment_fuzzy_prefix in Hsegs.
  change (effective_tolerance segment_size Segment.default_tolerance)
    with 0%Q in Hsegs.
  destruct (run _ _ _ _) as [segs' [|]]; [| done]. simplify_eq.
  unfold full_segments in Hwithin. simpl in Hwithin.
  specialize (Hwithin ltac:(split; simpl; [done | lia])).
  clear Htokens. induction segs as [|s segs IH]; [by constructor |].
  destruct segs as [|s' segs]; [by constructor |].
  simpl in *. apply Forall_cons in Hwithin as [Hs Hrest].
  constructor; [by apply within_zero | by apply IH].
Qed.

Lemma segment_flattened_exact_witness :
  1 ≤ 2
  ∧ ∃ segs,
      Segment.segment (R := unit) 11 example_document 2 Segment.default_tolerance
        (λ d, d) (λ c, c) Segment.Chained = Some (Segment.Flattened segs)
      ∧ concat segs = concat example_document
      ∧ Forall (λ seg, Py.len seg = 2) (removelast segs).
Proof.
  split; [lia |].
  exact (segment_flattened_exact example_document 2 (λ d, d) (λ c, c)
           ltac:(lia)).
Defined.

End SegmenterExtra.

(** ** More on the tokenizer *)

Module TokenizerExtra.
Import Tokenizer TokenizerFacts.

(** The tokens [toks] lie in the text [s] one behind the other, without
    overlap. *)
Inductive cut_out : list text → text → Prop :=
| cut_nil s : cut_out [] s
| cut_cons before tok after toks :
    cut_out toks after → cut_out (tok :: toks) (before ++ tok ++ after).

Lemma cut_out_behind pre toks s : cut_out toks s → cut_out toks (pre ++ s).
Proof.
  intros Hcut. destruct Hcut as [s|before tok after toks Hcut];
    [constructor |].
  rewrite (assoc_L (++)). by constructor.
Qed.

Lemma finditer_cut_out fuel r s : cut_out (finditer fuel r s) s.
Proof.
  revert s. induction fuel as [|fuel IH]; intros s; simpl; [constructor |].
  destruct (match_re r s) as [|rest others] eqn:Hm.
  - destruct s as [|c s]; [constructor |].
    apply (cut_out_behind [c]), IH.
  - destruct (match_re_sound r s rest) as (pre & -> & Hpre).
    { rewrite Hm. apply elem_of_cons. by left. }
    rewrite take_prefix. destruct pre as [|c pre].
    + simpl. destruct rest as [|c rest].
      * apply (cut_cons [] [] []). constructor.
      * apply (cut_cons [] [] (c :: rest)).
        apply (cut_out_behind [c]), IH.
    + apply (cut_cons [] (c :: pre) rest), IH.
Qed.

Section Tokenize.

Context `{Unicode}.

(** The text the pattern is matched against. *)
Definition prepared (doc_txt : text) (lower : bool) : text :=
  foldl (λ txt dash, sub_space dash txt)
        (sub_delete full_stop (if lower then lower_text doc_txt else doc_txt))
        dashes.

Lemma elem_of_sub_dashes_strong ds x doc_txt :
  space ∉ ds →
  x ∈ foldl (λ txt dash, sub_space dash txt) doc_txt ds →
  (x ∉ ds) ∧ (x = space ∨ x ∈ doc_txt).
Proof.
  intros Hspace. revert doc_txt.
  induction ds as [|d ds IH]; intros doc_txt Hx; simpl in Hx.
  { split; [apply not_elem_of_nil | by right]. }
  apply not_elem_of_cons in Hspace as [Hd Hspace].
  destruct (IH Hspace _ Hx) as [Hnot Hin]. split.
  - apply not_elem_of_cons. split; [| done].
    destruct Hin as [->|Hin]; [done |].
    unfold sub_space in Hin.
    apply list_elem_of_fmap in Hin as (y & -> & Hy).
    case_decide; [done | congruence].
  - destruct Hin as [->|Hin]; [by left |].
    by apply elem_of_sub_space in Hin.
Qed.

Lemma prepared_chars doc_txt lower x :
  x ∈ prepared doc_txt lower → x ≠ full_stop ∧ x ∉ dashes.
Proof.
  unfold prepared. intros Hx.
  apply elem_of_sub_dashes_strong in Hx as [Hnot Hin].
  2:{ unfold space, dashes. intros Hin.
      repeat (apply elem_of_cons in Hin as [Hin|Hin]; [done |]).
      by apply elem_of_nil in Hin. }
  split; [| done]. destruct Hin as [->|Hin]; [done |].
  unfold sub_delete in Hin. by apply list_elem_of_filter in Hin as [? _].
Qed.

End Tokenize.

(** X7. Whatever the pattern and the flags, no token that [tokenize]
    yields contains a full stop or one of the four dashes U+2012 to
    U+2015: they are taken out of the text before the pattern is
    matched. *)
Theorem tokenize_no_full_stop_no_dash (U : Unicode) doc_txt expression
    lower simple tok x :
  tok ∈ tokenize doc_txt expression lower simple → x ∈ tok →
  x ≠ full_stop ∧ x ∉ dashes.
Proof.
  unfold tokenize. intros (_ & before & after & Heq)%finditer_sound Hx.
  apply (prepared_chars doc_txt lower). unfold prepared.
  rewrite Heq, !elem_of_app. right. by left.
Qed.

Lemma tokenize_no_full_stop_no_dash_witness :
  codepoints "usa"
  ∈ tokenize (H := ascii_unicode) (codepoints "The U.S.A. today")
      (regular_expression (H := ascii_unicode)) true false
  ∧ 117%N ∈ codepoints "usa"
  ∧ 117%N ≠ full_stop ∧ 117%N ∉ dashes.
Proof.
  assert (codepoints "usa"
          ∈ tokenize (H := ascii_unicode) (codepoints "The U.S.A. today")
              (regular_expression (H := ascii_unicode)) true false) as Htok.
  { vm_compute. apply elem_of_cons. right. apply elem_of_cons. by left. }
  assert (117%N ∈ codepoints "usa") as Hx.
  { vm_compute. apply elem_of_cons. by left. }
  split; [exact Htok |]. split; [exact Hx |].
  exact (tokenize_no_full_stop_no_dash ascii_unicode _ _ _ _ _ _ Htok Hx).
Defined.

(** X8. The tokens that [tokenize] yields are pieces of the prepared
    text (lowered if asked for, full stops deleted, dashes turned into
    spaces) that lie one behind the other in the order in which they are
    yielded, without overlap, and each of them is matched by the pattern
    in use. *)
Theorem tokenize_cuts_in_order (U : Unicode) doc_txt expression lower simple :
  cut_out (tokenize doc_txt expression lower simple) (prepared doc_txt lower)
  ∧ Forall (Matches (if simple then simple_expression else expression))
      (tokenize doc_txt expression lower simple).
Proof.
  split.
  - unfold tokenize, prepared. apply finditer_cut_out.
  - apply Forall_forall. intros tok Htok.
    by apply (tokenize_matches doc_txt expression lower simple).
Qed.

(** X9. Every token of the default pattern begins and ends with a
    letter and consists of letters, but for at most one punctuation
    character between two of them. *)
Theorem tokenize_default_shape (U : Unicode) doc_txt lower tok :
  tok ∈ tokenize doc_txt regular_expression lower false →
  ∃ l1 mid l2,
    tok = l1 ++ mid ++ l2
    ∧ l1 ≠ [] ∧ Forall (λ c, is_letter c = true) l1
    ∧ (mid = [] ∨ ∃ c, mid = [c] ∧ is_punctuation c = true)
    ∧ l2 ≠ [] ∧ Forall (λ c, is_letter c = true) l2.
Proof.
  intros Htok. apply Matches_regular_expression.
  exact (tokenize_matches doc_txt regular_expression lower false tok Htok).
Qed.

Lemma tokenize_default_shape_witness :
  codepoints "don't"
  ∈ tokenize (H := ascii_unicode) (codepoints "I don't know")
      (regular_expression (H := ascii_unicode)) true false
  ∧ ∃ l1 mid l2,
      codepoints "don't" = l1 ++ mid ++ l2
      ∧ l1 ≠ [] ∧ Forall (λ c, ascii_letter c = true) l1
      ∧ (mid = [] ∨ ∃ c, mid = [c] ∧ ascii_punctuation c = true)
      ∧ l2 ≠ [] ∧ Forall (λ c, ascii_letter c = true) l2.
Proof.
  assert (codepoints "don't"
          ∈ tokenize (H := ascii_unicode) (codepoints "I don't know")
              (regular_expression (H := ascii_unicode)) true false) as Htok.
  { vm_compute. apply elem_of_cons. by left. }
  split; [exact Htok |].
  exact (tokenize_default_shape ascii_unicode _ _ _ Htok).
Defined.

(** X10. With [simple=True] the expression plays no part, and every
    token is a run of one or more word characters. *)
Theorem tokenize_simple_word_runs (U : Unicode) doc_txt expression expression'
    lower tok :
  tokenize doc_txt expression lower true
  = tokenize doc_txt expression' lower true
  ∧ (tok ∈ tokenize doc_txt expression lower true →
     tok ≠ [] ∧ Forall (λ c, is_word c = true) tok).
Proof.
  split; [done |]. intros Htok.
  apply Matches_plus_class.
  exact (tokenize_matches doc_txt expression lower true tok Htok).
Qed.

End TokenizerExtra.

(** ** Splitting into paragraphs *)

Module ParagraphsExtra.
Import Tokenizer Paragraphs.

(** [c.join(pieces)] for a single character [c]. *)
Fixpoint join (c : char) (pieces : list text) : text :=
  match pieces with
  | [] => []
  | [p] => p
  | p :: ps => p ++ c :: join c ps
  end.

(** How often [c] occurs in [s]. *)
Definition count_char (c : char) (s : text) : nat :=
  length (filter (λ x, x = c) s).

Lemma re_split_char fuel c s current :
  (length s < fuel)%nat → c ∉ current →
  let pieces :=
    re_split fuel (Class (λ x, bool_decide (x = c))) s current in
  join c pieces = current ++ s
  ∧ Forall (λ p, c ∉ p) pieces
  ∧ length pieces = S (count_char c s).
Proof.
  cbv zeta. unfold count_char.
  revert s current. induction fuel as [|fuel IH]; intros s current Hfuel Hcur;
    [lia |].
  destruct s as [|x s].
  { simpl. split; [by rewrite app_nil_r |].
    split; [by repeat constructor | done]. }
  rewrite (filter_cons (λ x0 : char, x0 = c) x s). cbn [re_split match_re].
  destruct (decide (x = c)) as [->|Hne].
  - rewrite bool_decide_eq_true_2 by done.
    rewrite decide_True by (simpl; lia).
    destruct (IH s [] ltac:(simpl in *; lia) ltac:(apply not_elem_of_nil))
      as (Hjoin & Hall & Hlen).
    split; [| split].
    + simpl in Hjoin.
      destruct (re_split fuel (Class (λ x, bool_decide (x = c))) s [])
        as [|p ps] eqn:Hps; [done |].
      change (join c (current :: p :: ps))
        with (current ++ c :: join c (p :: ps)).
      by rewrite Hjoin.
    + by constructor.
    + cbn [length]. by rewrite Hlen.
  - rewrite bool_decide_eq_false_2 by done.
    destruct (IH s (current ++ [x]) ltac:(simpl in *; lia)) as (Hjoin & Hrest).
    { rewrite elem_of_app, list_elem_of_singleton. naive_solver. }
    split; [| done]. by rewrite Hjoin, <- (assoc_L (++)).
Qed.

(** X11. With a single character as separator, as with the default line
    feed, the paragraphs that [split_paragraphs] returns give back the
    text when they are joined with the separator; none of them contains
    the separator, and there is one more of them than there are
    separators in the text. *)
Theorem split_paragraphs_join (c : char) (doc_txt : text) :
  let paragraphs :=
    split_paragraphs doc_txt (Class (λ x, bool_decide (x = c))) in
  join c paragraphs = doc_txt
  ∧ Forall (λ p, c ∉ p) paragraphs
  ∧ length paragraphs = S (count_char c doc_txt).
Proof.
  unfold split_paragraphs.
  apply (re_split_char (S (length doc_txt)) c doc_txt []); [lia |].
  apply not_elem_of_nil.
Qed.

(** The example of the docstring. *)
Lemma split_paragraphs_docstring :
  split_paragraphs
    (codepoints "This test contains " ++ [line_feed]
     ++ codepoints " paragraphs.") default_sep
  = [codepoints "This test contains "; codepoints " paragraphs."].
Proof. vm_compute. reflexivity. Qed.

End ParagraphsExtra.

(** ** Errors of the dictionary builder and the sparse counter *)

Module CorpusErrors.
Import Py PyFacts Dictionary DictionaryFacts Bow BowFacts Filter FilterFacts.
Import CorpusFacts.

Lemma set_of_list tokens l : Lst l ∈ tokens → set_of tokens = Raise TypeError.
Proof.
  induction tokens as [|[t|l'] rest IH]; intros Hin.
  - by apply elem_of_nil in Hin.
  - apply elem_of_cons in Hin as [?|Hin]; [done |]. simpl. by rewrite IH.
  - done.
Qed.

(** X12. When the argument of [create_dictionary] has a token and a
    list of tokens among its elements, the call ends in a [TypeError]:
    the elements are put in a set as they are, and a list cannot be. *)
Theorem create_dictionary_mixed_raises
    (set_order : gset string → list string) tokens t l :
  Tok t ∈ tokens → Lst l ∈ tokens →
  create_dictionary set_order tokens = Raise TypeError.
Proof.
  intros Ht Hl. unfold create_dictionary.
  assert (forallb is_list tokens = false) as ->.
  { apply not_true_is_false. intros Hall.
    apply list_elem_of_In in Ht.
    by apply (proj1 (forallb_forall _ _) Hall) in Ht. }
  by rewrite (set_of_list _ l).
Qed.

Lemma create_dictionary_mixed_raises_witness :
  Tok "a" ∈ [Lst ["b"; "c"]; Tok "a"]
  ∧ Lst ["b"; "c"] ∈ [Lst ["b"; "c"]; Tok "a"]
  ∧ create_dictionary elements [Lst ["b"; "c"]; Tok "a"] = Raise TypeError.
Proof.
  assert (Tok "a" ∈ [Lst ["b"; "c"]; Tok "a"]) as Ht.
  { apply elem_of_cons. right. apply elem_of_cons. by left. }
  assert (Lst ["b"; "c"] ∈ [Lst ["b"; "c"]; Tok "a"]) as Hl.
  { apply elem_of_cons. by left. }
  split; [exact Ht |]. split; [exact Hl |].
  exact (create_dictionary_mixed_raises elements _ _ _ Ht Hl).
Defined.

Lemma token_ids_raises type_dictionary tokens e :
  token_ids type_dictionary tokens = Raise e → e = KeyError.
Proof.
  induction tokens as [|t l IH]; [done |]. simpl. unfold getitem.
  destruct (type_dictionary !! t); simpl; [| congruence].
  destruct (token_ids type_dictionary l); simpl; [done |].
  intros [= <-]. by apply IH.
Qed.

Lemma large_counter_loop_raises type_dictionary pairs acc e :
  large_counter_loop type_dictionary pairs acc = Raise e → e = KeyError.
Proof.
  revert acc. induction pairs as [|[doc tokens] ps IH]; intros acc; [done |].
  simpl. destruct (token_ids type_dictionary tokens) eqn:Hids; simpl.
  - apply IH.
  - intros [= <-]. by apply token_ids_raises in Hids.
Qed.

Lemma large_counter_loop_unknown_token type_dictionary pairs acc label tokens t :
  (label, tokens) ∈ pairs → t ∈ tokens → type_dictionary !! t = None →
  large_counter_loop type_dictionary pairs acc = Raise KeyError.
Proof.
  intros Hin Ht Hnone. revert acc Hin.
  induction pairs as [|[doc ts] ps IH]; intros acc Hin.
  { by apply elem_of_nil in Hin. }
  simpl. apply elem_of_cons in Hin as [Heq|Hin].
  - simplify_eq. by rewrite (token_ids_missing _ _ t).
  - destruct (token_ids type_dictionary ts) eqn:Hids; simpl.
    + by apply IH.
    + by apply token_ids_raises in Hids as ->.
Qed.

Lemma large_counter_loop_keys type_dictionary pairs acc largecounter label :
  large_counter_loop type_dictionary pairs acc = Ok largecounter →
  label ∈ largecounter.*1 ↔ label ∈ acc.*1 ∨ label ∈ pairs.*1.
Proof.
  revert acc. induction pairs as [|[doc tokens] ps IH]; intros acc; simpl.
  { intros [= <-]. rewrite elem_of_nil. naive_solver. }
  destruct (token_ids type_dictionary tokens); simpl; [| done].
  intros Hloop. rewrite (IH _ Hloop), dict_set_keys. csimpl.
  rewrite elem_of_cons. case_decide; [| rewrite elem_of_app,
    list_elem_of_singleton]; naive_solver.
Qed.

Lemma relabel_raises doc_dictionary items acc e :
  relabel doc_dictionary items acc = Raise e → e = KeyError.
Proof.
  revert acc. induction items as [|[key value] rest IH]; intros acc; [done |].
  simpl. unfold getitem. destruct (doc_dictionary !! key); simpl.
  - apply IH.
  - congruence.
Qed.

Lemma relabel_unknown_label doc_dictionary items acc label :
  label ∈ items.*1 → doc_dictionary !! label = None →
  relabel doc_dictionary items acc = Raise KeyError.
Proof.
  intros Hin Hnone. revert acc Hin.
  induction items as [|[key value] rest IH]; intros acc Hin.
  { by apply elem_of_nil in Hin. }
  simpl. unfold getitem. csimpl in Hin.
  apply elem_of_cons in Hin as [<-|Hin].
  - by rewrite Hnone.
  - destruct (doc_dictionary !! key); simpl; [by apply IH | done].
Qed.

(** X13. [create_sparse_bow] ends in a [KeyError] when a document that
    has a label holds a token that is not a key of the type
    dictionary. *)
Theorem create_sparse_bow_unknown_token_raises
    doc_labels doc_tokens type_dictionary doc_dictionary label tokens t :
  (label, tokens) ∈ zip doc_labels doc_tokens → t ∈ tokens →
  type_dictionary !! t = None →
  create_sparse_bow doc_labels doc_tokens type_dictionary doc_dictionary
  = Raise KeyError.
Proof.
  intros Hin Ht Hnone. unfold create_sparse_bow, _create_large_counter.
  by rewrite (large_counter_loop_unknown_token _ _ _ label tokens t).
Qed.

Lemma create_sparse_bow_unknown_token_raises_witness :
  ("d1", ["a"; "c"]) ∈ zip ["d1"] [["a"; "c"]]
  ∧ "c" ∈ ["a"; "c"]
  ∧ abb_types !! "c" = None
  ∧ create_sparse_bow ["d1"] [["a"; "c"]] abb_types d1_docs = Raise KeyError.
Proof.
  assert (("d1", ["a"; "c"]) ∈ zip ["d1"] [["a"; "c"]]) as Hin.
  { apply elem_of_cons. by left. }
  assert ("c" ∈ ["a"; "c"]) as Ht.
  { apply elem_of_cons. right. apply elem_of_cons. by left. }
  split; [exact Hin |]. split; [exact Ht |]. split; [reflexivity |].
  exact (create_sparse_bow_unknown_token_raises _ _ abb_types d1_docs _ _ _
           Hin Ht eq_refl).
Defined.

(** X14. [create_sparse_bow] ends in a [KeyError] when the label of a
    document is not a key of the document dictionary. *)
Theorem create_sparse_bow_unknown_label_raises
    doc_labels doc_tokens type_dictionary doc_dictionary label tokens :
  (label, tokens) ∈ zip doc_labels doc_tokens →
  doc_dictionary !! label = None →
  create_sparse_bow doc_labels doc_tokens type_dictionary doc_dictionary
  = Raise KeyError.
Proof.
  intros Hin Hnone. unfold create_sparse_bow, _create_large_counter.
  destruct (large_counter_loop type_dictionary (zip doc_labels doc_tokens) [])
    as [temp_counter|e] eqn:Hloop; simpl.
  - rewrite (relabel_unknown_label _ _ _ label); [done | | done].
    apply (large_counter_loop_keys _ _ _ _ label Hloop). right.
    apply list_elem_of_fmap. by exists (label, tokens).
  - by apply large_counter_loop_raises in Hloop as ->.
Qed.

Lemma create_sparse_bow_unknown_label_raises_witness :
  ("d2", ["a"]) ∈ zip ["d2"] [["a"]]
  ∧ d1_docs !! "d2" = None
  ∧ create_sparse_bow ["d2"] [["a"]] abb_types d1_docs = Raise KeyError.
Proof.
  assert (("d2", ["a"]) ∈ zip ["d2"] [["a"]]) as Hin.
  { apply elem_of_cons. by left. }
  split; [exact Hin |]. split; [reflexivity |].
  exact (create_sparse_bow_unknown_label_raises _ _ abb_types d1_docs _ _
           Hin eq_refl).
Defined.

(** Among [n] distinct numbers of which one is not in 1..n, one of
    1..n is missing. *)
Lemma missing_key (keys : list Z) k :
  NoDup keys → k ∈ keys → k ∉ range 1 (length keys) →
  ∃ j, j ∈ range 1 (length keys) ∧ j ∉ keys.
Proof.
  intros Hnd Hk Hout.
  destruct (decide (Forall (λ j, j ∈ keys) (range 1 (length keys))))
    as [Hall|Hnot].
  - exfalso. apply Hout.
    assert (range 1 (length keys) ≡ₚ keys) as Hperm.
    { apply submseteq_length_Permutation.
      - apply NoDup_submseteq; [apply NoDup_seqZ |].
        intros j Hj. by eapply Forall_forall in Hall.
      - unfold range. rewrite length_seqZ. lia. }
    by rewrite Hperm.
  - apply not_Forall_Exists in Hnot; [| apply _].
    apply Exists_exists in Hnot as (j & Hj & Hnotin). by exists j.
Qed.

(** X15. The document dictionary has to number the documents from 1 to
    their count: when the labels are distinct, have one token list each
    and distinct numbers, and all tokens are known, but the number of
    one label is not among 1..n, [create_sparse_bow] ends in a
    [KeyError]. *)
Theorem create_sparse_bow_doc_ids_not_1_to_n_raises
    doc_labels doc_tokens type_dictionary doc_dictionary label k :
  NoDup doc_labels →
  length doc_labels = length doc_tokens →
  (∀ tokens t, tokens ∈ doc_tokens → t ∈ tokens →
               is_Some (type_dictionary !! t)) →
  (∀ l, l ∈ doc_labels → is_Some (doc_dictionary !! l)) →
  (∀ l1 l2 i, l1 ∈ doc_labels → l2 ∈ doc_labels →
              doc_dictionary !! l1 = Some i → doc_dictionary !! l2 = Some i →
              l1 = l2) →
  label ∈ doc_labels → doc_dictionary !! label = Some k →
  ¬ (1 ≤ k ≤ Z.of_nat (length doc_labels)) →
  create_sparse_bow doc_labels doc_tokens type_dictionary doc_dictionary
  = Raise KeyError.
Proof.
  intros Hnd Hlen Hcov Hlabels Hapart Hlabel Hk Hout.
  assert ((zip doc_labels doc_tokens).*1 = doc_labels) as Hz1.
  { apply fst_zip. lia. }
  assert ((zip doc_labels doc_tokens).*2 = doc_tokens) as Hz2.
  { apply snd_zip. lia. }
  assert (NoDup (map (doc_key doc_dictionary) doc_labels)) as Hkeys.
  { apply (NoDup_fmap_2_strong (doc_key doc_dictionary)); [| done].
    intros l1 l2 H1 H2. destruct (Hlabels l1 H1) as [i1 Hi1].
    destruct (Hlabels l2 H2) as [i2 Hi2]. unfold doc_key.
    rewrite Hi1, Hi2. simpl. intros <-. by eapply Hapart. }
  unfold create_sparse_bow, _create_large_counter.
  rewrite large_counter_loop_distinct.
  2:{ simpl. by rewrite Hz1. }
  2:{ intros [l tokens] t Hp Ht. simpl in Ht. apply (Hcov tokens); [| done].
      rewrite <- Hz2. apply list_elem_of_fmap. by exists (l, tokens). }
  simpl. rewrite relabel_distinct.
  2:{ rewrite (map_snd_keys (λ t, Counter (id_list type_dictionary t))).
      by rewrite Hz1. }
  2:{ intros l.
      rewrite (map_snd_keys (λ t, Counter (id_list type_dictionary t))), Hz1.
      apply Hlabels. }
  simpl. rewrite map_map. simpl.
  set (largecounter := map _ (zip doc_labels doc_tokens)).
  assert (largecounter.*1 = map (doc_key doc_dictionary) doc_labels) as Hlc.
  { unfold largecounter. rewrite <- Hz1 at 2.
    generalize (zip doc_labels doc_tokens). intros l.
    induction l as [|p l IH]; [done |]. csimpl. by rewrite IH. }
  assert (length largecounter = length doc_labels) as Hlclen.
  { by rewrite <- (length_fmap fst largecounter), Hlc, length_map. }
  destruct (missing_key (map (doc_key doc_dictionary) doc_labels) k)
    as (j & Hj & Hmiss); [done | | |].
  { apply list_elem_of_fmap. exists label. split; [| done].
    unfold doc_key. by rewrite Hk. }
  { rewrite length_map. unfold range. rewrite elem_of_seqZ. lia. }
  rewrite length_map in Hj. unfold _create_sparse_index.
  rewrite (sparse_index_loop_absent _ _ j); [done | by rewrite Hlclen |].
  apply dict_get_None. by rewrite Hlc.
Qed.

Lemma create_sparse_bow_doc_ids_not_1_to_n_raises_witness :
  create_sparse_bow ["d1"] [["a"]] abb_types (<["d1" := 0]> ∅)
  = Raise KeyError.
Proof.
  apply (create_sparse_bow_doc_ids_not_1_to_n_raises ["d1"] [["a"]] abb_types
           (<["d1" := 0]> ∅) "d1" 0).
  - apply NoDup_singleton.
  - reflexivity.
  - intros tokens t ->%list_elem_of_singleton ->%list_elem_of_singleton.
    by eexists.
  - intros l ->%list_elem_of_singleton. by eexists.
  - by intros l1 l2 i ->%list_elem_of_singleton ->%list_elem_of_singleton.
  - apply elem_of_cons. by left.
  - reflexivity.
  - simpl. lia.
Defined.

End CorpusErrors.

(** ** The rows of the table, document by document *)

Module CorpusExtra.
Import Py PyFacts Dictionary DictionaryFacts Bow BowFacts Filter FilterFacts.
Import CorpusFacts.

Lemma elem_of_Counter (ids : list Z) i v :
  (i, v) ∈ Counter ids ↔ i ∈ ids ∧ v = occurrences i ids.
Proof.
  pose proof (Counter_NoDup ids) as Hnd. split.
  - intros Hin. split.
    + apply Counter_keys, list_elem_of_fmap. by exists (i, v).
    + rewrite <- Counter_getitem.
      symmetry. by apply (counter_getitem_entry _ (i, v)).
  - intros [Hin ->].
    apply (proj2 (Counter_keys _ _)), list_elem_of_fmap in Hin
      as ([j w] & Hj & Hin).
    simpl in Hj. subst j.
    pose proof (counter_getitem_entry _ (i, w) Hnd Hin) as Hw.
    rewrite Counter_getitem in Hw. simpl in Hw. by rewrite Hw.
Qed.

Lemma elem_of_doc_rows k (c : counter) r :
  r ∈ doc_rows k c
  ↔ (c = [] ∧ r = Row k 0 0) ∨ ∃ kv, kv ∈ c ∧ r = Row k kv.1 kv.2.
Proof.
  unfold doc_rows. rewrite elem_of_app, list_elem_of_fmap.
  destruct c as [|kv c]; simpl.
  - rewrite list_elem_of_singleton. split.
    + intros [->|(kv & _ & Hin)]; [by left | by apply elem_of_nil in Hin].
    + intros [[_ ->]|(kv & Hin & _)]; [by left | by apply elem_of_nil in Hin].
  - rewrite elem_of_nil. split.
    + intros [[]|(kv' & -> & Hin)]. right. by exists kv'.
    + intros [[? _]|(kv' & Hin & ->)]; [done |]. right. by exists kv'.
Qed.

Lemma StronglySorted_seqZ start len : StronglySorted Z.lt (seqZ start len).
Proof.
  destruct (decide (0 ≤ len)) as [Hlen|Hlen].
  2:{ rewrite seqZ_nil by lia. constructor. }
  revert start. pattern len. apply natlike_ind; [| | done].
  - intros start. constructor.
  - intros len' Hlen' IH start. rewrite seqZ_cons by lia.
    apply StronglySorted_cons. split.
    + apply Forall_forall. intros x Hx%elem_of_seqZ. lia.
    + replace (Z.pred (Z.succ len')) with len' by lia. apply IH.
Qed.

Section Documents.

Variables (doc_labels : list string) (doc_tokens : list (list string)).
Variables (type_dictionary doc_dictionary : gmap string Z).
Hypothesis wf :
  well_formed doc_labels doc_tokens type_dictionary doc_dictionary.

Let largecounter :=
  large_counter_of doc_labels doc_tokens type_dictionary doc_dictionary.
Let n := length doc_labels.

(** The counter of the document numbered [k]. *)
Lemma largecounter_of_label label tokens k :
  (label, tokens) ∈ zip doc_labels doc_tokens →
  doc_dictionary !! label = Some k →
  dict_get k largecounter = Some (Counter (id_list type_dictionary tokens))
  ∧ k ∈ range 1 n.
Proof.
  intros Hz Hk. split.
  - apply dict_get_NoDup; [apply (largecounter_NoDup _ _ _ _ wf) |].
    unfold largecounter, large_counter_of. apply list_elem_of_fmap.
    exists (label, tokens). split; [| done]. simpl.
    unfold doc_key. by rewrite Hk.
  - assert (label ∈ doc_labels) as Hl.
    { rewrite <- (zip_labels _ _ _ _ wf).
      apply list_elem_of_fmap. by exists (label, tokens). }
    destruct (labels_numbered _ _ _ _ wf label Hl) as (k' & Hk' & Hr).
    simplify_eq. unfold range. apply elem_of_seqZ. fold n. lia.
Qed.

Lemma zip_tokens_known label tokens t :
  (label, tokens) ∈ zip doc_labels doc_tokens → t ∈ tokens →
  is_Some (type_dictionary !! t).
Proof.
  intros Hz Ht. apply (tokens_known _ _ _ _ wf tokens); [| done].
  rewrite <- (zip_tokens _ _ _ _ wf).
  apply list_elem_of_fmap. by exists (label, tokens).
Qed.

(** Every document id 1..n belongs to a label and its token list. *)
Lemma label_of_key k :
  k ∈ range 1 n →
  ∃ label tokens, (label, tokens) ∈ zip doc_labels doc_tokens
                  ∧ doc_dictionary !! label = Some k.
Proof.
  intros Hk. destruct (largecounter_keys _ _ _ _ wf k Hk) as [c Hc].
  apply dict_get_Some in Hc.
  apply (largecounter_entry doc_labels doc_tokens) in Hc
    as (label & tokens & Hz & -> & _).
  exists label, tokens. split; [done |].
  assert (label ∈ doc_labels) as Hl.
  { rewrite <- (zip_labels _ _ _ _ wf).
    apply list_elem_of_fmap. by exists (label, tokens). }
  destruct (labels_numbered _ _ _ _ wf label Hl) as (k' & Hk' & _).
  unfold doc_key. by rewrite Hk'.
Qed.

Lemma document_rows label tokens k r :
  injective type_dictionary →
  (label, tokens) ∈ zip doc_labels doc_tokens →
  doc_dictionary !! label = Some k →
  r ∈ bow_of largecounter n ∧ doc_id r = k
  ↔ (tokens = [] ∧ r = Row k 0 0)
    ∨ (∃ t i, t ∈ tokens ∧ type_dictionary !! t = Some i
              ∧ r = Row k i (occurrences t tokens)).
Proof.
  intros Hinj Hz Hk.
  destruct (largecounter_of_label label tokens k Hz Hk) as [Hget Hrange].
  pose proof (zip_tokens_known label tokens) as Hcov.
  rewrite elem_of_bow_of. split.
  - intros [[_ Hr] <-]. rewrite Hget in Hr. simpl in Hr.
    apply elem_of_doc_rows in Hr as [[Hc ->]|([i v] & Hkv & ->)].
    + left. split; [| done]. apply Counter_empty in Hc.
      by apply fmap_nil_inv in Hc.
    + right. apply elem_of_Counter in Hkv as [Hi ->]. simpl.
      apply list_elem_of_fmap in Hi as (t & -> & Ht).
      destruct (Hcov t Hz Ht) as [i Hi]. exists t, i.
      rewrite Hi. simpl. split; [done |]. split; [done |].
      f_equal. apply occurrences_id_list; [done | | done].
      intros t' Ht'. by apply Hcov.
  - intros [[-> ->]|(t & i & Ht & Hi & ->)]; simpl.
    + split; [| done]. split; [done |]. rewrite Hget. simpl.
      apply elem_of_doc_rows. by left.
    + split; [| done]. split; [done |]. rewrite Hget. simpl.
      apply elem_of_doc_rows. right. exists (i, occurrences t tokens).
      split; [| done]. apply elem_of_Counter. split.
      * apply list_elem_of_fmap. exists t. by rewrite Hi.
      * symmetry. apply occurrences_id_list; [done | | done].
        intros t' Ht'. by apply Hcov.
Qed.

(** *** The shape of the table *)

Lemma counter_of_key k :
  NoDup (default [] (dict_get k largecounter)).*1
  ∧ ∀ kv, kv ∈ default [] (dict_get k largecounter) → 1 ≤ kv.2.
Proof.
  destruct (dict_get k largecounter) as [c|] eqn:Hget; simpl.
  2:{ split; [apply NoDup_nil_2 | by intros kv ?%elem_of_nil]. }
  apply dict_get_Some in Hget.
  apply (largecounter_entry doc_labels doc_tokens) in Hget
    as (label & tokens & _ & _ & ->).
  split; [apply Counter_NoDup |]. intros [i v] [Hi ->]%elem_of_Counter.
  simpl. apply occurrences_pos in Hi. lia.
Qed.

Lemma doc_rows_pairs_NoDup k (c : counter) :
  NoDup c.*1 → NoDup (map (λ r, (doc_id r, token_id r)) (doc_rows k c)).
Proof.
  intros Hnd. unfold doc_rows. destruct c as [|kv c]; simpl.
  { apply NoDup_singleton. }
  rewrite map_map. simpl.
  change ((k, kv.1) :: map (λ x : Z * Z, (k, x.1)) c)
    with (map (λ x : Z * Z, (k, x.1)) (kv :: c)).
  rewrite <- (map_map fst (λ i, (k, i))).
  by apply (NoDup_fmap_2 (λ i, (k, i))).
Qed.

Lemma bow_of_doc_ids_sorted keys :
  StronglySorted Z.lt keys →
  StronglySorted Z.le
    (map doc_id
       (flat_map (λ k, doc_rows k (default [] (dict_get k largecounter)))
                 keys)).
Proof.
  induction keys as [|k keys IH]; intros Hs; simpl; [constructor |].
  apply StronglySorted_cons in Hs as [Hall Hs].
  rewrite map_app. apply StronglySorted_app_2; [| | by apply IH].
  - intros d1 d2 (r1 & -> & Hr1)%list_elem_of_fmap
                 (r2 & -> & Hr2)%list_elem_of_fmap.
    rewrite (doc_rows_doc_id _ _ _ Hr1).
    apply list_elem_of_In, in_flat_map in Hr2
      as (k' & Hk'%list_elem_of_In & Hr2%list_elem_of_In).
    rewrite (doc_rows_doc_id _ _ _ Hr2).
    eapply Forall_forall in Hall; [| exact Hk']. lia.
  - pose proof (doc_rows_doc_id k (default [] (dict_get k largecounter)))
      as Hk.
    revert Hk. generalize (doc_rows k (default [] (dict_get k largecounter))).
    intros rows Hk. clear IH Hall.
    induction rows as [|r rows IH]; simpl; [constructor |].
    apply StronglySorted_cons. split.
    + apply Forall_forall. intros d (r' & -> & Hr')%list_elem_of_fmap.
      rewrite (Hk r), (Hk r'); [lia | apply elem_of_cons; by right
                                | apply elem_of_cons; by left].
    + apply IH. intros r' Hr'. apply Hk, elem_of_cons. by right.
Qed.

Lemma bow_of_pairs_NoDup keys :
  NoDup keys →
  NoDup (map (λ r, (doc_id r, token_id r))
           (flat_map (λ k, doc_rows k (default [] (dict_get k largecounter)))
                     keys)).
Proof.
  induction keys as [|k keys IH]; intros Hnd; simpl; [apply NoDup_nil_2 |].
  apply NoDup_cons in Hnd as [Hk Hnd].
  rewrite map_app. apply NoDup_app. split_and!.
  - apply doc_rows_pairs_NoDup, counter_of_key.
  - intros p (r1 & -> & Hr1)%list_elem_of_fmap
             (r2 & Heq & Hr2)%list_elem_of_fmap.
    apply list_elem_of_In, in_flat_map in Hr2
      as (k' & Hk'%list_elem_of_In & Hr2%list_elem_of_In).
    apply doc_rows_doc_id in Hr1, Hr2. simplify_eq. congruence.
  - by apply IH.
Qed.

End Documents.

(** X16. On well-formed arguments with a one-to-one type dictionary the
    rows of document [k] are: for every token of the document one row
    with the id of the token and the number of its occurrences in that
    document, and nothing else; a document without tokens has the row
    [(k, 0, 0)]. *)
Theorem create_sparse_bow_document_rows
    doc_labels doc_tokens type_dictionary doc_dictionary :
  well_formed doc_labels doc_tokens type_dictionary doc_dictionary →
  injective type_dictionary →
  ∃ tbl,
    create_sparse_bow doc_labels doc_tokens type_dictionary doc_dictionary
    = Ok tbl
    ∧ ∀ label tokens k,
        (label, tokens) ∈ zip doc_labels doc_tokens →
        doc_dictionary !! label = Some k →
        ∀ r, r ∈ tbl ∧ doc_id r = k
             ↔ (tokens = [] ∧ r = Row k 0 0)
               ∨ (∃ t i, t ∈ tokens ∧ type_dictionary !! t = Some i
                         ∧ r = Row k i (occurrences t tokens)).
Proof.
  intros wf Hinj. rewrite (create_sparse_bow_well_formed _ _ _ _ wf).
  eexists. split; [done |]. intros label tokens k Hz Hk r.
  by apply (document_rows _ _ _ _ wf label).
Qed.

Lemma create_sparse_bow_document_rows_witness :
  well_formed ["d1"] [["a"; "b"; "b"]] abb_types d1_docs
  ∧ injective abb_types
  ∧ ∃ tbl,
      create_sparse_bow ["d1"] [["a"; "b"; "b"]] abb_types d1_docs = Ok tbl
      ∧ Row 1 2 (occurrences "b" ["a"; "b"; "b"]) ∈ tbl.
Proof.
  split; [apply d1_abb_well_formed |].
  split; [apply abb_types_injective |].
  destruct (create_sparse_bow_document_rows _ _ _ _ d1_abb_well_formed
              abb_types_injective) as (tbl & Htbl & Hrows).
  exists tbl. split; [exact Htbl |].
  apply (Hrows "d1" ["a"; "b"; "b"] 1);
    [apply elem_of_cons; by left | reflexivity |].
  right. exists "b", 2. split; [| done].
  apply elem_of_cons. right. apply elem_of_cons. by left.
Defined.

(** X17. On well-formed arguments the table is ordered by document id,
    no two rows have the same document id and token id, every document
    id is among 1..n, and every count is at least 1, but for the rows
    [(k, 0, 0)] of the documents without tokens. *)
Theorem create_sparse_bow_table_shape
    doc_labels doc_tokens type_dictionary doc_dictionary :
  well_formed doc_labels doc_tokens type_dictionary doc_dictionary →
  ∃ tbl,
    create_sparse_bow doc_labels doc_tokens type_dictionary doc_dictionary
    = Ok tbl
    ∧ StronglySorted Z.le (map doc_id tbl)
    ∧ NoDup (map (λ r, (doc_id r, token_id r)) tbl)
    ∧ ∀ r, r ∈ tbl →
           1 ≤ doc_id r ≤ Z.of_nat (length doc_labels)
           ∧ (1 ≤ count r ∨ (token_id r = 0 ∧ count r = 0)).
Proof.
  intros wf. rewrite (create_sparse_bow_well_formed _ _ _ _ wf).
  eexists. split; [done |]. unfold bow_of. split_and!.
  - apply (bow_of_doc_ids_sorted doc_labels doc_tokens type_dictionary
             doc_dictionary), StronglySorted_seqZ.
  - apply (bow_of_pairs_NoDup doc_labels doc_tokens type_dictionary
             doc_dictionary), NoDup_seqZ.
  - intros r Hr. apply elem_of_bow_of in Hr as [Hrange Hr].
    split; [unfold range in Hrange; apply elem_of_seqZ in Hrange; lia |].
    apply elem_of_doc_rows in Hr as [[_ ->]|(kv & Hkv & ->)];
      [by right |].
    left. simpl.
    by apply (counter_of_key doc_labels doc_tokens type_dictionary
                doc_dictionary (doc_id r)).
Qed.

Lemma create_sparse_bow_table_shape_witness :
  well_formed ["d1"; "d2"] [["a"]; ["b"]] abb_types d1_d2_docs
  ∧ ∃ tbl,
      create_sparse_bow ["d1"; "d2"] [["a"]; ["b"]] abb_types d1_d2_docs
      = Ok tbl
      ∧ StronglySorted Z.le (map doc_id tbl)
      ∧ NoDup (map (λ r, (doc_id r, token_id r)) tbl).
Proof.
  split; [apply d1_d2_well_formed |].
  destruct (create_sparse_bow_table_shape _ _ _ _ d1_d2_well_formed)
    as (tbl & Htbl & Hsorted & Hnd & _).
  by exists tbl.
Defined.

End CorpusExtra.

(** ** The total of the counts, and what the exporter writes of it *)

Module TotalsExtra.
Import Py PyFacts Bow BowFacts Filter FilterFacts CorpusFacts CorpusExtra.
Import Exporter ExporterFacts.

Local Open Scope string_scope.
Local Open Scope Z_scope.

Lemma dict_set_total x v (c : counter) :
  sumZ (dict_set x v c).*2 = sumZ c.*2 - default 0 (dict_get x c) + v.
Proof.
  induction c as [|[k w] c IH]; csimpl; [lia |].
  case_decide; csimpl; [lia |]. rewrite IH. lia.
Qed.

(** A counter counts every element of its list once. *)
Lemma Counter_total (l : list Z) : sumZ (Counter l).*2 = len l.
Proof.
  unfold Counter.
  assert (∀ c : counter,
            sumZ (foldl (λ c x, dict_set x (default 0 (dict_get x c) + 1) c)
                        c l).*2
            = sumZ c.*2 + len l) as Hgen.
  { induction l as [|x l IH]; intros c; simpl.
    - unfold len. simpl. lia.
    - rewrite IH, dict_set_total. unfold len. simpl length. lia. }
  rewrite Hgen. simpl. lia.
Qed.

Definition row_sum (tbl : table) : Z := foldr (λ r acc, count r + acc) 0 tbl.

Lemma row_sum_app tbl1 tbl2 : row_sum (tbl1 ++ tbl2) = row_sum tbl1 + row_sum tbl2.
Proof.
  unfold row_sum. induction tbl1 as [|r tbl1 IH]; simpl; [done |].
  rewrite IH. lia.
Qed.

Lemma row_sum_flat_map {A} (f : A → table) keys :
  row_sum (flat_map f keys) = sumZ (map (λ k, row_sum (f k)) keys).
Proof.
  induction keys as [|k keys IH]; [done |].
  simpl. by rewrite row_sum_app, IH.
Qed.

Lemma row_sum_doc_rows k (c : counter) : row_sum (doc_rows k c) = sumZ c.*2.
Proof.
  unfold doc_rows. rewrite row_sum_app.
  assert (row_sum (map (λ kv, Row k kv.1 kv.2) c) = sumZ c.*2) as ->.
  { induction c as [|kv c IH]; [done |]. csimpl. unfold row_sum in *.
    simpl. by rewrite IH. }
  case_decide; [| done]. destruct c; done.
Qed.

Lemma len_concat {A} (ls : list (list A)) :
  sumZ (map len ls) = len (concat ls).
Proof.
  unfold len. induction ls as [|l ls IH]; [done |].
  simpl. rewrite IH, length_app. lia.
Qed.

Section Totals.

Variables (doc_labels : list string) (doc_tokens : list (list string)).
Variables (type_dictionary doc_dictionary : gmap string Z).
Hypothesis wf :
  well_formed doc_labels doc_tokens type_dictionary doc_dictionary.

Let largecounter :=
  large_counter_of doc_labels doc_tokens type_dictionary doc_dictionary.
Let n := length doc_labels.

Lemma sum_counts_bow :
  sum_counts (bow_of largecounter n) = len (concat doc_tokens).
Proof.
  rewrite sum_counts_foldr. fold (row_sum (bow_of largecounter n)).
  unfold bow_of. rewrite row_sum_flat_map.
  rewrite (map_ext _ (λ k, sumZ (default [] (dict_get k largecounter)).*2)).
  2:{ intros k. apply row_sum_doc_rows. }
  rewrite (sumZ_perm _
    (map (λ k, sumZ (default [] (dict_get k largecounter)).*2)
         largecounter.*1)).
  2:{ apply Permutation_map. symmetry. unfold largecounter.
      rewrite (largecounter_keys_eq _ _ _ _ wf).
      apply (doc_keys_range _ _ _ _ wf). }
  rewrite (map_dict_get_keys (λ c : counter, sumZ c.*2)).
  2:{ apply (largecounter_NoDup _ _ _ _ wf). }
  unfold largecounter, large_counter_of. rewrite map_map. simpl.
  rewrite (map_ext _ (λ p, len p.2)).
  2:{ intros p. rewrite Counter_total. unfold id_list, len.
      by rewrite length_map. }
  rewrite (map_on_snd len), (zip_tokens _ _ _ _ wf).
  apply len_concat.
Qed.

Lemma index_max_bow :
  doc_labels ≠ [] →
  index_max (map doc_id (bow_of largecounter n)) = Some (len doc_labels).
Proof.
  intros Hne.
  assert (len doc_labels ∈ range 1 n) as Hn.
  { unfold range, len. apply elem_of_seqZ. fold n.
    destruct doc_labels; [done |]. simpl in n. lia. }
  destruct (doc_rows_nonempty (len doc_labels)
              (default [] (dict_get (len doc_labels) largecounter)))
    as [r Hr].
  pose proof (doc_rows_doc_id _ _ _ Hr) as Hd.
  assert (r ∈ bow_of largecounter n) as Hin.
  { apply elem_of_bow_of. by rewrite Hd. }
  destruct (index_max_spec (map doc_id (bow_of largecounter n)))
    as (m & Hm & Hm1 & Hm2).
  { intros Hnil. apply fmap_nil_inv in Hnil. rewrite Hnil in Hin.
    by apply elem_of_nil in Hin. }
  rewrite Hm. f_equal.
  apply list_elem_of_fmap in Hm1 as (r' & -> & Hr').
  apply elem_of_bow_of in Hr' as [Hrange _].
  unfold range in Hrange. apply elem_of_seqZ in Hrange.
  assert (len doc_labels ≤ doc_id r') as Hle.
  { apply Hm2, list_elem_of_fmap. by exists r. }
  unfold len in *. fold n in Hle |- *. lia.
Qed.

End Totals.

(** X18. On well-formed arguments the counts of the table that
    [create_sparse_bow] returns add up to the number of tokens of all
    documents; if there is a document at all, the header that
    [save_sparse_bow] writes for this table has the number of documents
    as its first and the number of tokens of all documents as its third
    entry. *)
Theorem create_sparse_bow_total_and_header
    doc_labels doc_tokens type_dictionary doc_dictionary :
  well_formed doc_labels doc_tokens type_dictionary doc_dictionary →
  ∃ tbl,
    create_sparse_bow doc_labels doc_tokens type_dictionary doc_dictionary
    = Ok tbl
    ∧ sum_counts tbl = len (concat doc_tokens)
    ∧ (doc_labels ≠ [] →
       header_string tbl
       = pretty (len doc_labels) +:+ " "
         +:+ str_max (index_max (map token_id tbl)) +:+ " "
         +:+ pretty (len (concat doc_tokens)) +:+ newline).
Proof.
  intros wf. rewrite (create_sparse_bow_well_formed _ _ _ _ wf).
  eexists. split; [done |].
  pose proof (sum_counts_bow _ _ _ _ wf) as Hsum.
  split; [done |]. intros Hne. unfold header_string.
  by rewrite Hsum, (index_max_bow _ _ _ _ wf Hne).
Qed.

Lemma create_sparse_bow_total_and_header_witness :
  well_formed ["d1"; "d2"] [["a"]; ["b"]] abb_types d1_d2_docs
  ∧ ∃ tbl,
      create_sparse_bow ["d1"; "d2"] [["a"]; ["b"]] abb_types d1_d2_docs
      = Ok tbl
      ∧ sum_counts tbl = len (concat [["a"]; ["b"]]).
Proof.
  split; [apply d1_d2_well_formed |].
  destruct (create_sparse_bow_total_and_header _ _ _ _ d1_d2_well_formed)
    as (tbl & Htbl & Hsum & _).
  by exists tbl.
Defined.

End TotalsExtra.

(** ** From the dictionaries to the table *)

Module PipelineExtra.
Import Py PyFacts Dictionary DictionaryFacts Bow BowFacts Filter FilterFacts.
Import CorpusFacts.

Lemma length_remove_dups_le `{EqDecision A} (l : list A) :
  (length (remove_dups l) ≤ length l)%nat.
Proof.
  induction l as [|x l IH]; simpl; [lia |]. case_decide; simpl; lia.
Qed.

(** Dictionaries that number the tokens and the distinct labels are
    what [create_sparse_bow] expects. *)
Lemma numbers_well_formed doc_labels doc_tokens type_dictionary doc_dictionary :
  NoDup doc_labels → length doc_labels = length doc_tokens →
  numbers type_dictionary (concat doc_tokens) →
  numbers doc_dictionary doc_labels →
  well_formed doc_labels doc_tokens type_dictionary doc_dictionary
  ∧ injective type_dictionary.
Proof.
  intros Hnd Hlen (Htk & _ & Htinj) (Hdk & Hdv & Hdinj). split; [| done].
  split; [done | done | | |].
  - intros tokens t Htokens Ht. apply Htk, elem_of_concat. by exists tokens.
  - intros label Hl. apply Hdk in Hl as [k Hk]. exists k. split; [done |].
    assert (k ∈ (map_to_list doc_dictionary).*2) as Hin.
    { apply list_elem_of_fmap. exists (label, k).
      split; [done |]. by apply elem_of_map_to_list. }
    rewrite Hdv in Hin. apply elem_of_seqZ in Hin.
    pose proof (length_remove_dups_le doc_labels). lia.
  - intros l1 l2 k _ _. apply Hdinj.
Qed.

Lemma zip_take_both {A B} (l : list A) (k : list B) :
  zip (take (length k) l) (take (length l) k) = zip l k.
Proof. apply zip_with_take_both. Qed.

(** X19. The three steps together: for distinct labels with one token
    list each, the dictionaries that [create_dictionary] makes of the
    token lists and of the labels are accepted by [create_sparse_bow],
    whatever the order in which the sets are iterated; in the table the
    counts of a token add up to the number of its occurrences in all
    documents, and [find_hapax] returns exactly the tokens that occur
    once in all documents. *)
Theorem dictionaries_bow_hapax (set_order : gset string → list string)
    doc_labels doc_tokens :
  (∀ X, set_order X ≡ₚ elements X) →
  NoDup doc_labels → length doc_labels = length doc_tokens →
  ∃ type_dictionary doc_dictionary tbl hapax,
    create_dictionary set_order (nested doc_tokens) = Ok type_dictionary
    ∧ create_dictionary set_order (flat doc_labels) = Ok doc_dictionary
    ∧ create_sparse_bow doc_labels doc_tokens type_dictionary doc_dictionary
      = Ok tbl
    ∧ (∀ t i, type_dictionary !! t = Some i →
              token_total tbl i = occurrences t (concat doc_tokens))
    ∧ find_hapax tbl type_dictionary = Ok hapax
    ∧ (∀ t, t ∈ hapax ↔ occurrences t (concat doc_tokens) = 1).
Proof.
  intros Hperm Hnd Hlen.
  destruct (create_dictionary_nested set_order Hperm doc_tokens)
    as (td & Htd & Htnum).
  destruct (create_dictionary_flat set_order Hperm doc_labels)
    as (dd & Hdd & Hdnum).
  destruct (numbers_well_formed _ _ _ _ Hnd Hlen Htnum Hdnum) as [wf Hinj].
  assert (∀ t, t ∈ concat doc_tokens → is_Some (td !! t)) as Hcov.
  { intros t Ht. by apply Htnum. }
  assert (∀ t i, td !! t = Some i →
            token_total
              (bow_of (large_counter_of doc_labels doc_tokens td dd)
                 (length doc_labels)) i
            = occurrences t (concat doc_tokens)) as Htotal.
  { intros t i Hi. rewrite (token_total_bow _ _ _ _ wf).
    by apply occurrences_id_list. }
  destruct (find_hapax_spec
              (bow_of (large_counter_of doc_labels doc_tokens td dd)
                 (length doc_labels)) td Hinj) as (hapax & Hhapax & _ & Hiff).
  { intros r Hr Hcount.
    apply (bow_row_token _ _ _ _ wf) in Hr as [Hin|[_ H0]]; [| done].
    apply list_elem_of_fmap in Hin as (t & -> & Ht).
    destruct (Hcov t Ht) as [i Hi]. exists t. by rewrite Hi. }
  exists td, dd. eexists. exists hapax.
  split; [done |]. split; [done |].
  split; [apply (create_sparse_bow_well_formed _ _ _ _ wf) |].
  split; [done |]. split; [done |].
  intros t. rewrite Hiff. split.
  - intros (i & Hi & Htot). by rewrite <- (Htotal t i).
  - intros Hocc. assert (t ∈ concat doc_tokens) as Ht.
    { apply occurrences_pos. lia. }
    destruct (Hcov t Ht) as [i Hi]. exists i. split; [done |].
    by rewrite (Htotal t i).
Qed.

Lemma dictionaries_bow_hapax_witness :
  ∃ type_dictionary doc_dictionary tbl hapax,
    create_dictionary elements (nested [["a"; "b"]; ["b"]])
    = Ok type_dictionary
    ∧ create_dictionary elements (flat ["d1"; "d2"]) = Ok doc_dictionary
    ∧ create_sparse_bow ["d1"; "d2"] [["a"; "b"]; ["b"]]
        type_dictionary doc_dictionary = Ok tbl
    ∧ find_hapax tbl type_dictionary = Ok hapax
    ∧ ("a" ∈ hapax ↔ occurrences "a" (concat [["a"; "b"]; ["b"]]) = 1).
Proof.
  destruct (dictionaries_bow_hapax elements ["d1"; "d2"] [["a"; "b"]; ["b"]])
    as (td & dd & tbl & hapax & Htd & Hdd & Htbl & _ & Hhapax & Hiff).
  - done.
  - apply NoDup_cons. split; [| apply NoDup_singleton].
    by intros ?%list_elem_of_singleton.
  - reflexivity.
  - exists td, dd, tbl, hapax. split_and!; try done.
Defined.

(** X20. [create_sparse_bow] pairs the labels with the token lists as
    far as both go: labels without a token list and token lists
    without a label are passed over without an error. *)
Theorem create_sparse_bow_surplus_ignored
    doc_labels doc_tokens type_dictionary doc_dictionary :
  create_sparse_bow doc_labels doc_tokens type_dictionary doc_dictionary
  = create_sparse_bow (take (length doc_tokens) doc_labels)
      (take (length doc_labels) doc_tokens) type_dictionary doc_dictionary.
Proof.
  unfold create_sparse_bow, _create_large_counter.
  by rewrite zip_take_both.
Qed.

End PipelineExtra.

(** ** More on the frequency filters *)

Module FilterExtra.
Import Py PyFacts Dictionary DictionaryFacts Bow BowFacts Filter FilterFacts.
Import CorpusFacts.

(** The token id [i] belongs to one of the features. *)
Definition feature_id (id_types : gmap string Z) (features : list string)
    (i : Z) : Prop :=
  Exists (λ w, id_types !! w = Some i) features.

#[local] Instance feature_id_dec id_types features i :
  Decision (feature_id id_types features i).
Proof. unfold feature_id. apply _. Defined.

Lemma token_total_removed (tbl : table) id_types features i :
  token_total (filter (λ r, ¬ feature_id id_types features (token_id r)) tbl) i
  = if decide (feature_id id_types features i) then 0 else token_total tbl i.
Proof.
  induction tbl as [|r tbl IH].
  { simpl. by case_decide. }
  rewrite filter_cons. simpl.
  destruct (decide (¬ feature_id id_types features (token_id r)))
    as [Hkeep|Hdrop]; simpl; rewrite IH.
  - destruct (decide (token_id r = i)) as [<-|Hne]; [| done].
    case_decide; [done | lia].
  - destruct (decide (token_id r = i)) as [<-|Hne]; [| done].
    apply dec_stable in Hdrop. case_decide; [lia | done].
Qed.

Lemma remove_features_filter (tbl : table) id_types features :
  remove_features tbl id_types features
  = Ok (filter (λ r, ¬ feature_id id_types features (token_id r)) tbl).
Proof. apply remove_features_spec. Qed.

(** X21. After [remove_features] the counts of a token id that belongs
    to one of the features add up to 0, and the counts of every other
    token id add up to what they did before. *)
Theorem remove_features_keeps_other_totals (tbl : table) id_types features :
  ∃ tbl',
    remove_features tbl id_types features = Ok tbl'
    ∧ ∀ i, token_total tbl' i
           = if decide (Exists (λ w, id_types !! w = Some i) features)
             then 0 else token_total tbl i.
Proof.
  rewrite remove_features_filter. eexists. split; [done |].
  intros i. rewrite token_total_removed. by repeat case_decide.
Qed.

(** X22. Removing features in two steps is removing them all at once,
    and the order of the features plays no part. *)
Theorem remove_features_in_steps (tbl : table) id_types features1 features2 :
  ∃ tbl1,
    remove_features tbl id_types features1 = Ok tbl1
    ∧ remove_features tbl1 id_types features2
      = remove_features tbl id_types (features1 ++ features2)
    ∧ remove_features tbl id_types (features2 ++ features1)
      = remove_features tbl id_types (features1 ++ features2).
Proof.
  rewrite !remove_features_filter. eexists. split; [done |]. split.
  - rewrite remove_features_filter. apply (f_equal Ok).
    rewrite list_filter_filter. apply list_filter_iff. intros r.
    unfold feature_id. rewrite Exists_app. tauto.
  - apply (f_equal Ok). apply list_filter_iff. intros r.
    unfold feature_id. rewrite !Exists_app. tauto.
Qed.

(** X23. Once the tokens that [find_hapax] returns have been removed
    with [remove_features], [find_hapax] finds nothing more. *)
Theorem find_hapax_removed_none (tbl : table) id_types :
  injective id_types →
  (∀ r, r ∈ tbl → count r ≠ 0 → ∃ t, id_types !! t = Some (token_id r)) →
  ∃ hapax tbl',
    find_hapax tbl id_types = Ok hapax
    ∧ remove_features tbl id_types hapax = Ok tbl'
    ∧ find_hapax tbl' id_types = Ok [].
Proof.
  intros Hinj Hcov.
  destruct (find_hapax_spec tbl id_types Hinj Hcov) as (hapax & Hh & _ & Hiff).
  exists hapax. eexists. split; [done |].
  split; [apply remove_features_filter |].
  set (tbl' := filter _ tbl).
  destruct (find_hapax_spec tbl' id_types Hinj) as (hapax' & Hh' & _ & Hiff').
  { intros r [_ Hr]%list_elem_of_filter. by apply Hcov. }
  rewrite Hh'. f_equal. destruct hapax' as [|t rest]; [done |]. exfalso.
  destruct (proj1 (Hiff' t)) as (i & Hi & Htot); [apply elem_of_cons; by left |].
  unfold tbl' in Htot. rewrite token_total_removed in Htot.
  case_decide as Hfeat; [done |]. apply Hfeat.
  apply Exists_exists. exists t. split; [| done].
  apply Hiff. by exists i.
Qed.

Lemma find_hapax_removed_none_witness :
  ∃ hapax tbl',
    find_hapax example_bow example_types = Ok hapax
    ∧ remove_features example_bow example_types hapax = Ok tbl'
    ∧ find_hapax tbl' example_types = Ok [].
Proof.
  apply (find_hapax_removed_none example_bow example_types).
  - apply example_types_injective.
  - intros r Hr _. unfold example_bow in Hr.
    apply elem_of_cons in Hr as [->|Hr]; [by exists "short" |].
    apply elem_of_cons in Hr as [->|Hr]; [by exists "example" |].
    apply elem_of_cons in Hr as [->|Hr]; [by exists "text" |].
    by apply elem_of_nil in Hr.
Defined.

Lemma lookup_all_raises (type2id : gmap Z string) keys e :
  lookup_all type2id keys = Raise e → e = KeyError.
Proof.
  induction keys as [|k ks IH]; [done |]. simpl. unfold getitem.
  destruct (type2id !! k); simpl; [| congruence].
  destruct (lookup_all type2id ks); simpl; [done |].
  intros [= <-]. by apply IH.
Qed.

Lemma lookup_all_missing (type2id : gmap Z string) keys k :
  k ∈ keys → type2id !! k = None → lookup_all type2id keys = Raise KeyError.
Proof.
  induction keys as [|k' ks IH]; intros Hin Hnone.
  { by apply elem_of_nil in Hin. }
  simpl. unfold getitem. destruct (type2id !! k') as [w|] eqn:Hw; [| done].
  simpl. apply elem_of_cons in Hin as [->|Hin]; [congruence |].
  by rewrite IH.
Qed.

(** A token id that the dictionary gives to no token has no entry in
    the inverted dictionary. *)
Lemma invert_lookup_None id_types i :
  (∀ t, id_types !! t ≠ Some i) → invert id_types !! i = None.
Proof.
  intros Hno. unfold invert. rewrite foldl_insert_notin; [done |].
  intros ([t j] & Hj & Hin)%list_elem_of_fmap. simpl in Hj. subst j.
  apply elem_of_map_to_list in Hin. by apply (Hno t).
Qed.

(** X24. [find_hapax] ends in a [KeyError] when the counts of a token
    id add up to 1 and the dictionary has no token for that id. *)
Theorem find_hapax_unknown_id_raises (tbl : table) id_types i :
  token_total tbl i = 1 → (∀ t, id_types !! t ≠ Some i) →
  find_hapax tbl id_types = Raise KeyError.
Proof.
  intros Htot Hno. unfold find_hapax.
  apply (lookup_all_missing _ _ i); [| by apply invert_lookup_None].
  apply elem_of_hapax_ids. split; [| done].
  destruct (decide (i ∈ map token_id tbl)) as [|Hnot]; [done |].
  apply token_total_absent in Hnot. lia.
Qed.

Lemma find_hapax_unknown_id_raises_witness :
  token_total [Row 1 1 1; Row 1 7 1] 7 = 1
  ∧ (∀ t, example_types !! t ≠ Some 7)
  ∧ find_hapax [Row 1 1 1; Row 1 7 1] example_types = Raise KeyError.
Proof.
  assert (∀ t, example_types !! t ≠ Some 7) as Hno.
  { intros t. unfold example_types.
    repeat (rewrite lookup_insert; case_decide; [done |]).
    by rewrite lookup_empty. }
  split; [reflexivity |]. split; [exact Hno |].
  exact (find_hapax_unknown_id_raises [Row 1 1 1; Row 1 7 1] example_types 7
           eq_refl Hno).
Defined.

End FilterExtra.

(** ** Stopwords and the bags of the documents *)

Module FrequentExtra.
Import Py PyFacts Bow BowFacts Filter FilterFacts CorpusFacts CorpusExtra.
Import FilterExtra Frequent.

(** What is taken for granted of [Series.nlargest]: it returns
    [min n (len l)] of the groups, none more often than it is there,
    largest sums first, and no group it leaves out has a larger sum
    than one it returns. *)
Record nlargest_ok (nlargest : Z → list (Z * Z) → list (Z * Z)) : Prop := {
    nlargest_sub : ∀ n l, nlargest n l ⊆+ l;
    nlargest_length :
      ∀ n l, length (nlargest n l) = Nat.min (Z.to_nat n) (length l);
    nlargest_desc :
      ∀ n l, StronglySorted (λ a b : Z * Z, b.2 ≤ a.2) (nlargest n l);
    nlargest_top :
      ∀ n l kv kv', kv ∈ nlargest n l → kv' ∈ l → kv' ∉ nlargest n l →
                    kv'.2 ≤ kv.2
  }.

Lemma insert_desc_perm kv l : insert_desc kv l ≡ₚ kv :: l.
Proof.
  induction l as [|h t IH]; simpl; [done |].
  destruct (kv.2 <=? h.2); [| done]. rewrite IH. apply perm_swap.
Qed.

Lemma insert_desc_sorted kv l :
  StronglySorted (λ a b : Z * Z, b.2 ≤ a.2) l →
  StronglySorted (λ a b : Z * Z, b.2 ≤ a.2) (insert_desc kv l).
Proof.
  induction l as [|h t IH]; simpl; intros Hs.
  { repeat constructor. }
  apply StronglySorted_cons in Hs as [Hall Hs].
  destruct (kv.2 <=? h.2) eqn:Hle.
  - apply Z.leb_le in Hle. apply StronglySorted_cons. split; [| by apply IH].
    apply Forall_forall. intros x Hx. rewrite insert_desc_perm in Hx.
    apply elem_of_cons in Hx as [->|Hx]; [done |].
    by eapply Forall_forall in Hall.
  - apply Z.leb_gt in Hle. apply StronglySorted_cons. split.
    + constructor; [lia |]. eapply Forall_impl; [exact Hall |].
      simpl. intros; lia.
    + by apply StronglySorted_cons.
Qed.

Lemma sort_desc_spec l :
  sort_desc l ≡ₚ l ∧ StronglySorted (λ a b : Z * Z, b.2 ≤ a.2) (sort_desc l).
Proof.
  unfold sort_desc.
  assert (∀ acc, StronglySorted (λ a b : Z * Z, b.2 ≤ a.2) acc →
            foldl (λ acc kv, insert_desc kv acc) acc l ≡ₚ acc ++ l
            ∧ StronglySorted (λ a b : Z * Z, b.2 ≤ a.2)
                (foldl (λ acc kv, insert_desc kv acc) acc l)) as Hgen.
  { induction l as [|kv l IH]; intros acc Hs; simpl.
    - by rewrite app_nil_r.
    - destruct (IH (insert_desc kv acc)) as [Hp Hs'];
        [by apply insert_desc_sorted |].
      split; [| done]. rewrite Hp, insert_desc_perm. simpl.
      apply Permutation_middle. }
  apply (Hgen []). constructor.
Qed.

Lemma nlargest_first_ok : nlargest_ok nlargest_first.
Proof.
  split; unfold nlargest_first.
  - intros n l. rewrite <- (proj1 (sort_desc_spec l)) at 2.
    apply submseteq_take.
  - intros n l. by rewrite length_take, (proj1 (sort_desc_spec l)).
  - intros n l. apply (StronglySorted_app_1_l _ _ (drop (Z.to_nat n) (sort_desc l))).
    rewrite take_drop. apply sort_desc_spec.
  - intros n l kv kv' Hkv Hkv' Hnot.
    rewrite <- (proj1 (sort_desc_spec l)) in Hkv'.
    rewrite <- (take_drop (Z.to_nat n) (sort_desc l)) in Hkv'.
    apply elem_of_app in Hkv' as [?|Hdrop]; [done |].
    pose proof (proj2 (sort_desc_spec l)) as Hs.
    rewrite <- (take_drop (Z.to_nat n) (sort_desc l)) in Hs.
    by apply (StronglySorted_app_1_elem_of _ _ _ _ _ Hs Hkv Hdrop).
Qed.

Lemma submseteq_NoDup {A} (l k : list A) : l ⊆+ k → NoDup k → NoDup l.
Proof.
  intros [k' Hk']%submseteq_Permutation Hnd. rewrite Hk' in Hnd.
  by apply NoDup_app in Hnd as [? _].
Qed.

(** The groups of [collapse]: one per token id of the table, with the
    total of the id. *)
Lemma elem_of_collapse (tbl : table) i v :
  (i, v) ∈ collapse tbl ↔ i ∈ map token_id tbl ∧ v = token_total tbl i.
Proof.
  pose proof (StronglySorted_lt_NoDup _ (collapse_sorted tbl)) as Hnd.
  pose proof (collapse_get tbl i) as Hget. split.
  - intros Hin. rewrite (dict_get_NoDup i v) in Hget by done.
    case_decide; by simplify_eq.
  - intros [Hin ->]. rewrite decide_True in Hget by done.
    by apply dict_get_Some.
Qed.

(** X25. If [nlargest] does what is taken for granted of it, the type
    dictionary is one-to-one and has a token for every token id of the
    table, then [find_stopwords] returns [mfw] tokens, or as many as
    the table has token ids if these are fewer, each once, and no token
    of the table that it leaves out has a larger total than one it
    returns. *)
Theorem find_stopwords_most_frequent
    (nlargest : Z → list (Z * Z) → list (Z * Z)) (tbl : table) id_types mfw :
  nlargest_ok nlargest →
  injective id_types →
  (∀ r, r ∈ tbl → ∃ t, id_types !! t = Some (token_id r)) →
  ∃ stopwords,
    find_stopwords nlargest tbl id_types mfw = Ok stopwords
    ∧ NoDup stopwords
    ∧ length stopwords
      = Nat.min (Z.to_nat mfw) (length (remove_dups (map token_id tbl)))
    ∧ ∀ t i t' i',
        t ∈ stopwords → id_types !! t = Some i →
        id_types !! t' = Some i' → i' ∈ map token_id tbl → t' ∉ stopwords →
        token_total tbl i' ≤ token_total tbl i.
Proof.
  intros Hok Hinj Hcov. unfold find_stopwords.
  set (top := nlargest mfw (collapse tbl)).
  pose proof (nlargest_sub _ Hok mfw (collapse tbl)) as Hsub. fold top in Hsub.
  pose proof (StronglySorted_lt_NoDup _ (collapse_sorted tbl)) as Hnd.
  assert (∀ kv, kv ∈ top →
            kv.1 ∈ map token_id tbl ∧ kv.2 = token_total tbl kv.1) as Htop.
  { intros [i v] Hkv. apply elem_of_collapse.
    by apply (elem_of_submseteq _ _ _ Hkv). }
  assert (∀ k, k ∈ map fst top → ∃ t, id_types !! t = Some k) as Hkeys.
  { intros k (kv & -> & Hkv)%list_elem_of_fmap.
    destruct (Htop kv Hkv) as [(r & -> & Hr)%list_elem_of_fmap _].
    by apply Hcov. }
  assert (NoDup (map fst top)) as Hndtop.
  { apply (submseteq_NoDup _ (collapse tbl).*1); [| done].
    by apply fmap_submseteq. }
  rewrite lookup_all_present.
  2:{ intros k [t Ht]%Hkeys. exists t. by apply invert_lookup. }
  eexists. split; [done |].
  assert (∀ t, t ∈ map (λ k, default "" (invert id_types !! k)) (map fst top)
               ↔ ∃ i, id_types !! t = Some i ∧ i ∈ map fst top) as Hmem.
  { intros t. rewrite list_elem_of_fmap. split.
    - intros (k & -> & Hk). destruct (Hkeys k Hk) as [t Ht]. exists k.
      apply invert_lookup in Ht as Hi; [| done]. by rewrite Hi.
    - intros (i & Hi & Hin). exists i. split; [| done].
      apply invert_lookup in Hi; [| done]. by rewrite Hi. }
  split_and!.
  - apply NoDup_fmap_2_strong; [| done].
    intros k1 k2 [t1 H1]%Hkeys [t2 H2]%Hkeys.
    apply invert_lookup in H1, H2; try done. rewrite H1, H2. simpl.
    intros ->. apply invert_lookup in H1, H2; try done. congruence.
  - rewrite !length_map. unfold top.
    rewrite (nlargest_length _ Hok). f_equal.
    rewrite <- (length_fmap fst (collapse tbl)).
    apply Permutation_length, NoDup_Permutation;
      [done | apply NoDup_remove_dups |].
    intros i. rewrite elem_of_remove_dups. split.
    + intros ([j v] & -> & Hin)%list_elem_of_fmap.
      by apply elem_of_collapse in Hin as [? _].
    + intros Hi. apply list_elem_of_fmap. exists (i, token_total tbl i).
      split; [done |]. by apply elem_of_collapse.
  - intros t i t' i' Ht Hi Hi' Hin' Hnot'.
    apply Hmem in Ht as (j & Hj & Hjin). simplify_eq.
    apply list_elem_of_fmap in Hjin as ([i v] & -> & Hkv).
    destruct (Htop _ Hkv) as [_ Hv]. simpl in Hv. subst v. simpl.
    apply (nlargest_top _ Hok mfw (collapse tbl)
             (i, token_total tbl i) (i', token_total tbl i')); [done | |].
    + by apply elem_of_collapse.
    + intros Hin. apply Hnot', Hmem. exists i'. split; [done |].
      apply list_elem_of_fmap. by exists (i', token_total tbl i').
Qed.

Lemma find_stopwords_most_frequent_witness :
  ∃ stopwords,
    find_stopwords nlargest_first [Row 1 1 2; Row 1 2 1; Row 1 3 1]
      example_types 1 = Ok stopwords
    ∧ NoDup stopwords
    ∧ length stopwords
      = Nat.min (Z.to_nat 1)
          (length (remove_dups
                     (map token_id [Row 1 1 2; Row 1 2 1; Row 1 3 1]))).
Proof.
  destruct (find_stopwords_most_frequent nlargest_first
              [Row 1 1 2; Row 1 2 1; Row 1 3 1] example_types 1)
    as (stopwords & Hs & Hnd & Hlen & _).
  - apply nlargest_first_ok.
  - apply example_types_injective.
  - intros r Hr.
    apply elem_of_cons in Hr as [->|Hr]; [by exists "short" |].
    apply elem_of_cons in Hr as [->|Hr]; [by exists "example" |].
    apply elem_of_cons in Hr as [->|Hr]; [by exists "text" |].
    by apply elem_of_nil in Hr.
  - exists stopwords. split; [exact Hs |]. split; [exact Hnd | exact Hlen].
Defined.

(** The example of the docstring, with ties left in their order. *)
Lemma find_stopwords_docstring :
  find_stopwords nlargest_first [Row 1 1 2; Row 1 2 1; Row 1 3 1]
    example_types 1 = Ok ["short"].
Proof. vm_compute. reflexivity. Qed.

(** X26. [find_stopwords] ends in a [KeyError] when [mfw] is at least
    the number of token ids of the table and the dictionary has no
    token for one of them, as it has none for the token id 0 of the row
    of a document without tokens. *)
Theorem find_stopwords_unknown_id_raises
    (nlargest : Z → list (Z * Z) → list (Z * Z)) (tbl : table) id_types mfw i :
  nlargest_ok nlargest →
  i ∈ map token_id tbl → (∀ t, id_types !! t ≠ Some i) →
  Z.of_nat (length (remove_dups (map token_id tbl))) ≤ mfw →
  find_stopwords nlargest tbl id_types mfw = Raise KeyError.
Proof.
  intros Hok Hi Hno Hmfw. unfold find_stopwords.
  apply (lookup_all_missing _ _ i); [| by apply invert_lookup_None].
  pose proof (StronglySorted_lt_NoDup _ (collapse_sorted tbl)) as Hnd.
  assert (length (collapse tbl)
          = length (remove_dups (map token_id tbl))) as Hlen.
  { rewrite <- (length_fmap fst (collapse tbl)).
    apply Permutation_length, NoDup_Permutation;
      [done | apply NoDup_remove_dups |].
    intros j. rewrite elem_of_remove_dups. split.
    + intros ([j' v] & -> & Hin)%list_elem_of_fmap.
      by apply elem_of_collapse in Hin as [? _].
    + intros Hj. apply list_elem_of_fmap. exists (j, token_total tbl j).
      split; [done |]. by apply elem_of_collapse. }
  assert (nlargest mfw (collapse tbl) ≡ₚ collapse tbl) as Hperm.
  { apply submseteq_length_Permutation; [apply (nlargest_sub _ Hok) |].
    rewrite (nlargest_length _ Hok). lia. }
  apply list_elem_of_fmap. exists (i, token_total tbl i). split; [done |].
  rewrite Hperm. by apply elem_of_collapse.
Qed.

Lemma find_stopwords_unknown_id_raises_witness :
  create_sparse_bow ["d1"; "d2"] [["a"]; []] abb_types d1_d2_docs
  = Ok [Row 1 1 1; Row 2 0 0]
  ∧ find_stopwords nlargest_first [Row 1 1 1; Row 2 0 0] abb_types default_mfw
    = Raise KeyError.
Proof.
  split; [vm_compute; reflexivity |].
  apply (find_stopwords_unknown_id_raises nlargest_first
           [Row 1 1 1; Row 2 0 0] abb_types default_mfw 0).
  - apply nlargest_first_ok.
  - apply elem_of_cons. right. apply elem_of_cons. by left.
  - intros t. unfold abb_types.
    repeat (rewrite lookup_insert; case_decide; [done |]).
    by rewrite lookup_empty.
  - by vm_compute.
Defined.

End FrequentExtra.

(** ** The bags of the documents: [make_doc2bow_list] *)

Module BagsExtra.
Import Py PyFacts Bow BowFacts Filter FilterFacts CorpusFacts CorpusExtra.
Import Frequent.

(** The groups of [index.groupby(doc_id)] are the document ids of the
    table, each once, in increasing order. *)
Lemma doc_groups_spec (tbl : table) :
  StronglySorted Z.lt (doc_groups tbl)
  ∧ ∀ k, k ∈ doc_groups tbl ↔ k ∈ map doc_id tbl.
Proof.
  unfold doc_groups.
  assert (∀ acc : list (Z * Z), StronglySorted Z.lt acc.*1 →
            let res := foldl (λ acc r, add_sorted (doc_id r) 0 acc) acc tbl in
            StronglySorted Z.lt res.*1
            ∧ ∀ k, k ∈ res.*1 ↔ k ∈ acc.*1 ∨ k ∈ map doc_id tbl) as Hgen.
  { induction tbl as [|r tbl IH]; intros acc Hs; simpl.
    - split; [done |]. intros k. rewrite elem_of_nil. naive_solver.
    - destruct (IH (add_sorted (doc_id r) 0 acc)) as [Hs' Hk];
        [by apply add_sorted_sorted |].
      split; [done |]. intros k.
      rewrite Hk, add_sorted_keys, elem_of_cons. naive_solver. }
  destruct (Hgen []) as [Hs Hk]; [constructor |]. split; [done |].
  intros k. rewrite Hk. csimpl. rewrite elem_of_nil. naive_solver.
Qed.

Lemma filter_all {A} (P : A → Prop) `{!∀ x, Decision (P x)} (l : list A) :
  (∀ x, x ∈ l → P x) → filter P l = l.
Proof.
  induction l as [|x l IH]; intros Hall; [done |].
  rewrite filter_cons_True by (apply Hall, elem_of_cons; by left).
  rewrite IH; [done |]. intros y Hy. apply Hall, elem_of_cons. by right.
Qed.

Lemma filter_none {A} (P : A → Prop) `{!∀ x, Decision (P x)} (l : list A) :
  (∀ x, x ∈ l → ¬ P x) → filter P l = [].
Proof.
  induction l as [|x l IH]; intros Hall; [done |].
  rewrite filter_cons_False by (apply Hall, elem_of_cons; by left).
  apply IH. intros y Hy. apply Hall, elem_of_cons. by right.
Qed.

(** [sparse_bow.loc[doc]] on a table that is made document by
    document. *)
Lemma filter_doc_flat_map (f : Z → table) keys k :
  (∀ k' r, r ∈ f k' → doc_id r = k') → NoDup keys →
  filter (λ r, doc_id r = k) (flat_map f keys)
  = if decide (k ∈ keys) then f k else [].
Proof.
  intros Hf. induction keys as [|k0 keys IH]; intros Hnd; [done |].
  apply NoDup_cons in Hnd as [Hk0 Hnd]. simpl.
  rewrite filter_app, IH by done.
  destruct (decide (k0 = k)) as [->|Hne].
  - rewrite filter_all by (intros r Hr; by apply Hf).
    rewrite decide_False by done. rewrite app_nil_r.
    rewrite decide_True; [done | apply elem_of_cons; by left].
  - rewrite filter_none.
    2:{ intros r Hr Hd. apply Hne. rewrite <- Hd. symmetry. by apply Hf. }
    simpl. destruct (decide (k ∈ keys)) as [Hin|Hnot].
    + rewrite decide_True; [done | apply elem_of_cons; by right].
    + rewrite decide_False; [done |].
      intros [?|?]%elem_of_cons; [congruence | done].
Qed.

Lemma lookup_map {A B} (f : A → B) (l : list A) (i : nat) :
  map f l !! i = f <$> (l !! i).
Proof.
  revert i. induction l as [|x l IH]; intros [|i]; simpl; done.
Qed.

Lemma doc_groups_bow largecounter n :
  doc_groups (bow_of largecounter n) = range 1 n.
Proof.
  destruct (doc_groups_spec (bow_of largecounter n)) as [Hs Hk].
  apply (StronglySorted_unique_strong Z.lt);
    [intros; lia | done | apply StronglySorted_seqZ |].
  apply NoDup_Permutation;
    [by apply StronglySorted_lt_NoDup | apply NoDup_seqZ |].
  intros k. rewrite Hk, list_elem_of_fmap. split.
  - intros (r & -> & Hr). by apply elem_of_bow_of in Hr as [? _].
  - intros Hrange.
    destruct (doc_rows_nonempty k (default [] (dict_get k largecounter)))
      as [r Hr].
    pose proof (doc_rows_doc_id _ _ _ Hr) as Hd.
    exists r. split; [done |]. apply elem_of_bow_of. by rewrite Hd.
Qed.

Lemma doc_bag_bow largecounter n k :
  k ∈ range 1 n →
  doc_bag (bow_of largecounter n) k
  = let c := default [] (dict_get k largecounter) in
    if decide (c = []) then [(0, 0)] else c.
Proof.
  intros Hk. unfold doc_bag, bow_of.
  rewrite filter_doc_flat_map;
    [| intros k' r; apply doc_rows_doc_id | apply NoDup_seqZ].
  rewrite decide_True by done. cbv zeta.
  generalize (default [] (dict_get k largecounter)). intros c.
  unfold doc_rows. rewrite map_app, map_map. simpl.
  assert (map (λ x : Z * Z, (x.1, x.2)) c = c) as ->.
  { induction c as [|[i v] c IH]; [done |]. simpl. by rewrite IH. }
  destruct c; done.
Qed.

(** X27. On the table that [create_sparse_bow] returns for well-formed
    arguments [make_doc2bow_list] has one entry per document, in the
    order of the document ids: the entry of document [k] holds the
    token ids of the document with their counts, in the order of first
    occurrence, and it is [[(0, 0)]] for a document without tokens. *)
Theorem make_doc2bow_list_documents
    doc_labels doc_tokens type_dictionary doc_dictionary :
  well_formed doc_labels doc_tokens type_dictionary doc_dictionary →
  ∃ tbl,
    create_sparse_bow doc_labels doc_tokens type_dictionary doc_dictionary
    = Ok tbl
    ∧ length (make_doc2bow_list tbl) = length doc_labels
    ∧ ∀ label tokens k,
        (label, tokens) ∈ zip doc_labels doc_tokens →
        doc_dictionary !! label = Some k →
        ∃ ids,
          token_ids type_dictionary tokens = Ok ids
          ∧ make_doc2bow_list tbl !! Z.to_nat (k - 1)
            = Some (if decide (ids = []) then [(0, 0)] else Counter ids).
Proof.
  intros wf. rewrite (create_sparse_bow_well_formed _ _ _ _ wf).
  eexists. split; [done |]. unfold make_doc2bow_list.
  rewrite doc_groups_bow. split.
  - unfold range. rewrite length_map, length_seqZ. lia.
  - intros label tokens k Hz Hk.
    destruct (largecounter_of_label _ _ _ _ wf label tokens k Hz Hk)
      as [Hget Hrange].
    exists (id_list type_dictionary tokens). split.
    + apply token_ids_covered. intros t Ht.
      by apply (zip_tokens_known _ _ _ _ wf label tokens).
    + pose proof Hrange as Hr. unfold range in Hr. apply elem_of_seqZ in Hr.
      unfold range. rewrite lookup_map, lookup_seqZ_lt by lia. simpl.
      replace (1 + Z.of_nat (Z.to_nat (k - 1))) with k by lia.
      rewrite doc_bag_bow by done. cbv zeta. rewrite Hget. simpl.
      f_equal. destruct (decide (id_list type_dictionary tokens = []))
        as [Hnil|Hne].
      * rewrite decide_True; [done |]. by apply Counter_empty.
      * rewrite decide_False; [done |]. by rewrite Counter_empty.
Qed.

Lemma make_doc2bow_list_documents_witness :
  well_formed ["d1"; "d2"] [["a"]; ["b"]] abb_types d1_d2_docs
  ∧ ∃ tbl,
      create_sparse_bow ["d1"; "d2"] [["a"]; ["b"]] abb_types d1_d2_docs
      = Ok tbl
      ∧ length (make_doc2bow_list tbl) = length ["d1"; "d2"].
Proof.
  split; [apply d1_d2_well_formed |].
  destruct (make_doc2bow_list_documents _ _ _ _ d1_d2_well_formed)
    as (tbl & Htbl & Hlen & _).
  exists tbl. split; [exact Htbl | exact Hlen].
Defined.

(** The example of the docstring, and a corpus with an empty
    document. *)
Lemma make_doc2bow_list_docstring :
  make_doc2bow_list [Row 1 1 1; Row 1 2 1; Row 2 3 1; Row 2 4 1]
  = [[(1, 1); (2, 1)]; [(3, 1); (4, 1)]]
  ∧ make_doc2bow_list [Row 1 1 1; Row 2 0 0] = [[(1, 1)]; [(0, 0)]].
Proof. split; vm_compute; reflexivity. Qed.

End BagsExtra.
